(** * gdal_trace_outline: the driver of the raster-to-outline pipeline

    A shallow embedding of [src/gdal_trace_outline.cc]: the option parser
    of [main], the checks it makes before touching the raster, the
    per-feature pipeline and [calc_ring_from_mask].

    The driver calls into the rest of the repository (mask tracer,
    beveler, excursion pincher, Douglas-Peucker reducer, rasterizer,
    coordinate mapping) and into GDAL/OGR and libc.  Those functions are
    collaborators: they are fields of the classes [Libc], [Gdal] and
    [Core] below, and every call made by the driver is recorded in an
    event trace in the order in which the C++ code makes it.  Messages
    printed on stdout are not part of the model.

    The contour tracer and the rasterizer are not among the sources; for
    the round trip between them they are modelled from the specification
    of the repository, on pixel grids with integer vertices. *)

From Stdlib Require Import ZArith List String Ascii Bool Lia.
From Stdlib Require Import Permutation FinFun.
From Stdlib Require Import Floats.SpecFloat.
Import ListNotations.

Local Open Scope string_scope.
Local Open Scope Z_scope.
Local Open Scope list_scope.

(** ** C [double]

    A [double] is an IEEE-754 value: zero, infinity, NaN or a finite
    number [(-1)^s * m * 2^e].  Comparisons are the IEEE ones, in which
    every comparison with NaN is false. *)

Definition double := spec_float.

Definition dbl_lt (a b : double) : bool := SFltb a b.
Definition dbl_le (a b : double) : bool := SFleb a b.
Definition dbl_gt (a b : double) : bool := SFltb b a.
Definition dbl_ge (a b : double) : bool := SFleb b a.

Definition dbl_eq (a b : double) : bool := SFeqb a b.

Definition dbl_0 : double := S754_zero false.
Definition dbl_1 : double := S754_finite false 4503599627370496 (-52).
Definition dbl_2 : double := S754_finite false 4503599627370496 (-51).
(** The double nearest to [0.1], 0x3FB999999999999A. *)
Definition dbl_0_1 : double := S754_finite false 7205759403792794 (-56).

Definition is_nan (a : double) : bool :=
  match a with S754_nan => true | _ => false end.

(** A key that orders the doubles that are not NaN: [SFcompare] is the
    lexicographic comparison of the keys. *)
Definition dbl_key (a : double) : Z * Z * Z :=
  match a with
  | S754_nan => (0, 0, 0)
  | S754_zero _ => (0, 0, 0)
  | S754_infinity true => (-2, 0, 0)
  | S754_infinity false => (2, 0, 0)
  | S754_finite true m e => (-1, - e, Z.neg m)
  | S754_finite false m e => (1, e, Z.pos m)
  end.

Definition key_compare (k1 k2 : Z * Z * Z) : comparison :=
  let '(a1, b1, c1) := k1 in
  let '(a2, b2, c2) := k2 in
  match a1 ?= a2 with
  | Eq => match b1 ?= b2 with
          | Eq => c1 ?= c2
          | c => c
          end
  | c => c
  end.

(** ** C [int]: a [long] stored in an [int] wraps to 32 bits. *)
Definition cast_int (z : Z) : Z := (z + 2 ^ 31) mod 2 ^ 32 - 2 ^ 31.

(** ** Coordinate systems ([#define CS_...]) *)
Definition CS_UNKNOWN : Z := 0.
Definition CS_XY : Z := 1.
Definition CS_EN : Z := 2.
Definition CS_LL : Z := 3.

(** ** Termination of the process

    [usage] prints the help text and calls [exit(1)]; [fatal_error]
    prints its message and terminates the process. *)
Inductive outcome (A : Type) : Type :=
| Ok (a : A)
| Usage
| Fatal (msg : string).
Arguments Ok {A} a.
Arguments Usage {A}.
Arguments Fatal {A} msg.

(** ** Collaborators from libc *)
Class Libc := {
  (** [strtol(s, &endptr, 10)]: the value and the text left at [endptr]. *)
  strtol : string -> Z * string;
  (** [strtod(s, &endptr)]. *)
  strtod : string -> double * string;
  (** whether [fopen(fn, "w")] returns a non-null handle. *)
  fopen_w : string -> bool
}.

(** ** Polygons ([polygon.h]) *)
Section Polygon.
(** The vertex type is declared outside the driver, which never looks
    inside a vertex. *)
Variable Point : Type.

Record Ring := {
  pts : list Point;
  is_hole : bool;
  parent_id : Z
}.

Record Mpoly := {
  rings : list Ring
}.

Definition rings_size (mp : Mpoly) : nat := List.length (rings mp).
End Polygon.

Arguments pts {Point} r.
Arguments is_hole {Point} r.
Arguments parent_id {Point} r.
Arguments rings {Point} m.
Arguments Build_Ring {Point} pts is_hole parent_id.
Arguments Build_Mpoly {Point} rings.
Arguments rings_size {Point} mp.

(** ** Debug plot ([debugplot.h]); the picture itself is not modelled. *)
Inductive plot_mode := PLOT_CONTOURS | PLOT_PINCH.

Record report_image_t := {
  plot_w : Z;
  plot_h : Z;
  mode : plot_mode
}.

(** ** Georeference ([georef.h]): the fields the driver reads. *)
Record georef_t := {
  georef_w : Z;
  georef_h : Z;
  (** [fwd_affine] is a non-null pointer *)
  fwd_affine : bool;
  (** [fwd_xform] is a non-null handle *)
  fwd_xform : bool
}.

(** ** The core of the repository, as the driver sees it *)
Class Core := {
  Point : Type;
  BitGrid : Type;
  (** [BitGrid(w, h)] *)
  BitGrid_new : Z -> Z -> BitGrid;
  invert : BitGrid -> BitGrid;
  erode : BitGrid -> BitGrid;
  (** [Ring::area()] *)
  area : Ring Point -> double;
  trace_mask : BitGrid -> Z -> Z -> Z -> bool -> Mpoly Point;
  (** takes the Mpoly by reference and rewrites it *)
  bevel_self_intersections : Mpoly Point -> double -> Mpoly Point;
  pinch_excursions2 : Mpoly Point -> option report_image_t -> Mpoly Point;
  compute_reduced_pointset : Mpoly Point -> double -> Mpoly Point;
  split_mpoly_to_polys : Mpoly Point -> list (Mpoly Point);
  (** [Mpoly::xy2en] and [Mpoly::xy2ll_with_interp] rewrite the Mpoly *)
  xy2en : Mpoly Point -> georef_t -> Mpoly Point;
  xy2ll_with_interp : Mpoly Point -> georef_t -> double -> Mpoly Point
}.

(** ** GDAL and the raster readers ([mask.h], [ndv.h], [georef.h]) *)
Class Gdal {C : Core} := {
  Dataset : Type;
  geo_opts_t : Type;
  ndv_def_t : Type;
  Raster8 : Type;
  ColorTable : Type;
  ColorEntry : Type;
  (** both remove the options they know from [argv] *)
  init_geo_options : list string -> geo_opts_t * list string;
  init_ndv_options : list string -> ndv_def_t * list string;
  nranges : ndv_def_t -> Z;
  GDALOpen : string -> option Dataset;
  GDALGetRasterCount : Dataset -> Z;
  add_ndv_from_raster : ndv_def_t -> Dataset -> list Z -> ndv_def_t;
  init_georef : geo_opts_t -> Dataset -> georef_t;
  (** the raster and its [usage_array] *)
  read_dataset_8bit :
    Dataset -> Z -> option report_image_t -> Raster8 * (Z -> bool);
  (** the colour table of a band whose interpretation is a palette index *)
  palette_color_table : Dataset -> Z -> option ColorTable;
  GDALGetColorEntry : ColorTable -> Z -> option ColorEntry;
  get_bitgrid_for_dataset :
    Dataset -> list Z -> ndv_def_t -> option report_image_t -> BitGrid;
  get_bitgrid_for_8bit_raster : Z -> Z -> Raster8 -> Z -> BitGrid;
  OGRGetDriverByName : string -> bool;
  OGR_Dr_CreateDataSource : string -> string -> bool;
  OGR_DS_CreateLayer : string -> bool
}.

(** ** The effect monad of the driver

    A computation yields the calls it made to the outside, in order, and
    either a value or the way the process was terminated. *)
Definition M (E A : Type) : Type := list E * outcome A.

Definition ret {E A} (a : A) : M E A := ([], Ok a).

Definition bind {E A B} (m : M E A) (f : A -> M E B) : M E B :=
  match m with
  | (l, Ok a) => let '(l', r) := f a in (l ++ l', r)
  | (l, Usage) => (l, Usage)
  | (l, Fatal msg) => (l, Fatal msg)
  end.

Definition tell {E} (e : E) : M E unit := ([e], Ok tt).
Definition fatal_error {E A} (msg : string) : M E A := ([], Fatal msg).
Definition usage {E A} : M E A := ([], Usage).
Definition lift {E A} (r : outcome A) : M E A := ([], r).
Definition when {E} (b : bool) (m : M E unit) : M E unit :=
  if b then m else ret tt.

Definition trace_of {E A} (m : M E A) : list E := fst m.
Definition result_of {E A} (m : M E A) : outcome A := snd m.

Declare Scope monad_scope.
Delimit Scope monad_scope with monad.
Notation "x <- c1 ;; c2" := (bind c1 (fun x => c2))
  (at level 61, c1 at next level, right associativity) : monad_scope.
Notation "c1 ;; c2" := (bind c1 (fun _ => c2))
  (at level 61, right associativity) : monad_scope.
Local Open Scope monad_scope.

Fixpoint for_each {E A} (l : list A) (f : A -> M E unit) : M E unit :=
  match l with
  | [] => ret tt
  | a :: l' => f a ;; for_each l' f
  end.

(** [l] with the position of each element. *)
Definition indexed {A} (l : list A) : list (nat * A) :=
  combine (seq 0 (List.length l)) l.

(** ** Options of the command line *)

Record geom_output_t := {
  out_cs : Z;
  wkt_fn : option string;
  wkb_fn : option string;
  ogr_fn : option string;
  ogr_fmt : option string
}.

(** The local variables of [main] that the option loop sets. *)
Record locals := {
  input_raster_fn : option string;
  classify : bool;
  debug_report : option string;
  inspect_bandids : list Z;
  split_polys : bool;
  cur_out_cs : Z;
  cur_ogr_fmt : string;
  geom_outputs : list geom_output_t;
  mask_out_fn : option string;
  major_ring_only : bool;
  no_donuts : bool;
  min_ring_area : Z;
  reduction_tolerance : double;
  do_erosion : bool;
  do_invert : bool;
  llproj_toler : double;
  bevel_size : double;
  do_pinch_excursions : bool;
  VERBOSE : Z
}.

Definition initial_locals : locals := {|
  input_raster_fn := None;
  classify := false;
  debug_report := None;
  inspect_bandids := [];
  split_polys := false;
  cur_out_cs := CS_UNKNOWN;
  cur_ogr_fmt := "ESRI Shapefile";
  geom_outputs := [];
  mask_out_fn := None;
  major_ring_only := false;
  no_donuts := false;
  min_ring_area := 0;
  reduction_tolerance := dbl_2;
  do_erosion := false;
  do_invert := false;
  llproj_toler := dbl_1;
  bevel_size := dbl_0_1;
  do_pinch_excursions := false;
  VERBOSE := 0
|}.

Definition inspect_numbands (o : locals) : Z :=
  Z.of_nat (List.length (inspect_bandids o)).

(** Field updates. *)
Definition set_input_raster_fn v (o : locals) : locals :=
  {| input_raster_fn := v; classify := classify o;
     debug_report := debug_report o; inspect_bandids := inspect_bandids o;
     split_polys := split_polys o; cur_out_cs := cur_out_cs o;
     cur_ogr_fmt := cur_ogr_fmt o; geom_outputs := geom_outputs o;
     mask_out_fn := mask_out_fn o; major_ring_only := major_ring_only o;
     no_donuts := no_donuts o; min_ring_area := min_ring_area o;
     reduction_tolerance := reduction_tolerance o;
     do_erosion := do_erosion o; do_invert := do_invert o;
     llproj_toler := llproj_toler o; bevel_size := bevel_size o;
     do_pinch_excursions := do_pinch_excursions o; VERBOSE := VERBOSE o |}.
Definition set_classify v (o : locals) : locals :=
  {| input_raster_fn := input_raster_fn o; classify := v;
     debug_report := debug_report o; inspect_bandids := inspect_bandids o;
     split_polys := split_polys o; cur_out_cs := cur_out_cs o;
     cur_ogr_fmt := cur_ogr_fmt o; geom_outputs := geom_outputs o;
     mask_out_fn := mask_out_fn o; major_ring_only := major_ring_only o;
     no_donuts := no_donuts o; min_ring_area := min_ring_area o;
     reduction_tolerance := reduction_tolerance o;
     do_erosion := do_erosion o; do_invert := do_invert o;
     llproj_toler := llproj_toler o; bevel_size := bevel_size o;
     do_pinch_excursions := do_pinch_excursions o; VERBOSE := VERBOSE o |}.
Definition set_debug_report v (o : locals) : locals :=
  {| input_raster_fn := input_raster_fn o; classify := classify o;
     debug_report := v; inspect_bandids := inspect_bandids o;
     split_polys := split_polys o; cur_out_cs := cur_out_cs o;
     cur_ogr_fmt := cur_ogr_fmt o; geom_outputs := geom_outputs o;
     mask_out_fn := mask_out_fn o; major_ring_only := major_ring_only o;
     no_donuts := no_donuts o; min_ring_area := min_ring_area o;
     reduction_tolerance := reduction_tolerance o;
     do_erosion := do_erosion o; do_invert := do_invert o;
     llproj_toler := llproj_toler o; bevel_size := bevel_size o;
     do_pinch_excursions := do_pinch_excursions o; VERBOSE := VERBOSE o |}.
Definition set_inspect_bandids v (o : locals) : locals :=
  {| input_raster_fn := input_raster_fn o; classify := classify o;
     debug_report := debug_report o; inspect_bandids := v;
     split_polys := split_polys o; cur_out_cs := cur_out_cs o;
     cur_ogr_fmt := cur_ogr_fmt o; geom_outputs := geom_outputs o;
     mask_out_fn := mask_out_fn o; major_ring_only := major_ring_only o;
     no_donuts := no_donuts o; min_ring_area := min_ring_area o;
     reduction_tolerance := reduction_tolerance o;
     do_erosion := do_erosion o; do_invert := do_invert o;
     llproj_toler := llproj_toler o; bevel_size := bevel_size o;
     do_pinch_excursions := do_pinch_excursions o; VERBOSE := VERBOSE o |}.
Definition set_split_polys v (o : locals) : locals :=
  {| input_raster_fn := input_raster_fn o; classify := classify o;
     debug_report := debug_report o; inspect_bandids := inspect_bandids o;
     split_polys := v; cur_out_cs := cur_out_cs o;
     cur_ogr_fmt := cur_ogr_fmt o; geom_outputs := geom_outputs o;
     mask_out_fn := mask_out_fn o; major_ring_only := major_ring_only o;
     no_donuts := no_donuts o; min_ring_area := min_ring_area o;
     reduction_tolerance := reduction_tolerance o;
     do_erosion := do_erosion o; do_invert := do_invert o;
     llproj_toler := llproj_toler o; bevel_size := bevel_size o;
     do_pinch_excursions := do_pinch_excursions o; VERBOSE := VERBOSE o |}.
Definition set_cur_out_cs v (o : locals) : locals :=
  {| input_raster_fn := input_raster_fn o; classify := classify o;
     debug_report := debug_report o; inspect_bandids := inspect_bandids o;
     split_polys := split_polys o; cur_out_cs := v;
     cur_ogr_fmt := cur_ogr_fmt o; geom_outputs := geom_outputs o;
     mask_out_fn := mask_out_fn o; major_ring_only := major_ring_only o;
     no_donuts := no_donuts o; min_ring_area := min_ring_area o;
     reduction_tolerance := reduction_tolerance o;
     do_erosion := do_erosion o; do_invert := do_invert o;
     llproj_toler := llproj_toler o; bevel_size := bevel_size o;
     do_pinch_excursions := do_pinch_excursions o; VERBOSE := VERBOSE o |}.
Definition set_cur_ogr_fmt v (o : locals) : locals :=
  {| input_raster_fn := input_raster_fn o; classify := classify o;
     debug_report := debug_report o; inspect_bandids := inspect_bandids o;
     split_polys := split_polys o; cur_out_cs := cur_out_cs o;
     cur_ogr_fmt := v; geom_outputs := geom_outputs o;
     mask_out_fn := mask_out_fn o; major_ring_only := major_ring_only o;
     no_donuts := no_donuts o; min_ring_area := min_ring_area o;
     reduction_tolerance := reduction_tolerance o;
     do_erosion := do_erosion o; do_invert := do_invert o;
     llproj_toler := llproj_toler o; bevel_size := bevel_size o;
     do_pinch_excursions := do_pinch_excursions o; VERBOSE := VERBOSE o |}.
Definition set_geom_outputs v (o : locals) : locals :=
  {| input_raster_fn := input_raster_fn o; classify := classify o;
     debug_report := debug_report o; inspect_bandids := inspect_bandids o;
     split_polys := split_polys o; cur_out_cs := cur_out_cs o;
     cur_ogr_fmt := cur_ogr_fmt o; geom_outputs := v;
     mask_out_fn := mask_out_fn o; major_ring_only := major_ring_only o;
     no_donuts := no_donuts o; min_ring_area := min_ring_area o;
     reduction_tolerance := reduction_tolerance o;
     do_erosion := do_erosion o; do_invert := do_invert o;
     llproj_toler := llproj_toler o; bevel_size := bevel_size o;
     do_pinch_excursions := do_pinch_excursions o; VERBOSE := VERBOSE o |}.
Definition set_mask_out_fn v (o : locals) : locals :=
  {| input_raster_fn := input_raster_fn o; classify := classify o;
     debug_report := debug_report o; inspect_bandids := inspect_bandids o;
     split_polys := split_polys o; cur_out_cs := cur_out_cs o;
     cur_ogr_fmt := cur_ogr_fmt o; geom_outputs := geom_outputs o;
     mask_out_fn := v; major_ring_only := major_ring_only o;
     no_donuts := no_donuts o; min_ring_area := min_ring_area o;
     reduction_tolerance := reduction_tolerance o;
     do_erosion := do_erosion o; do_invert := do_invert o;
     llproj_toler := llproj_toler o; bevel_size := bevel_size o;
     do_pinch_excursions := do_pinch_excursions o; VERBOSE := VERBOSE o |}.
Definition set_major_ring_only v (o : locals) : locals :=
  {| input_raster_fn := input_raster_fn o; classify := classify o;
     debug_report := debug_report o; inspect_bandids := inspect_bandids o;
     split_polys := split_polys o; cur_out_cs := cur_out_cs o;
     cur_ogr_fmt := cur_ogr_fmt o; geom_outputs := geom_outputs o;
     mask_out_fn := mask_out_fn o; major_ring_only := v;
     no_donuts := no_donuts o; min_ring_area := min_ring_area o;
     reduction_tolerance := reduction_tolerance o;
     do_erosion := do_erosion o; do_invert := do_invert o;
     llproj_toler := llproj_toler o; bevel_size := bevel_size o;
     do_pinch_excursions := do_pinch_excursions o; VERBOSE := VERBOSE o |}.
Definition set_no_donuts v (o : locals) : locals :=
  {| input_raster_fn := input_raster_fn o; classify := classify o;
     debug_report := debug_report o; inspect_bandids := inspect_bandids o;
     split_polys := split_polys o; cur_out_cs := cur_out_cs o;
     cur_ogr_fmt := cur_ogr_fmt o; geom_outputs := geom_outputs o;
     mask_out_fn := mask_out_fn o; major_ring_only := major_ring_only o;
     no_donuts := v; min_ring_area := min_ring_area o;
     reduction_tolerance := reduction_tolerance o;
     do_erosion := do_erosion o; do_invert := do_invert o;
     llproj_toler := llproj_toler o; bevel_size := bevel_size o;
     do_pinch_excursions := do_pinch_excursions o; VERBOSE := VERBOSE o |}.
Definition set_min_ring_area v (o : locals) : locals :=
  {| input_raster_fn := input_raster_fn o; classify := classify o;
     debug_report := debug_report o; inspect_bandids := inspect_bandids o;
     split_polys := split_polys o; cur_out_cs := cur_out_cs o;
     cur_ogr_fmt := cur_ogr_fmt o; geom_outputs := geom_outputs o;
     mask_out_fn := mask_out_fn o; major_ring_only := major_ring_only o;
     no_donuts := no_donuts o; min_ring_area := v;
     reduction_tolerance := reduction_tolerance o;
     do_erosion := do_erosion o; do_invert := do_invert o;
     llproj_toler := llproj_toler o; bevel_size := bevel_size o;
     do_pinch_excursions := do_pinch_excursions o; VERBOSE := VERBOSE o |}.
Definition set_reduction_tolerance v (o : locals) : locals :=
  {| input_raster_fn := input_raster_fn o; classify := classify o;
     debug_report := debug_report o; inspect_bandids := inspect_bandids o;
     split_polys := split_polys o; cur_out_cs := cur_out_cs o;
     cur_ogr_fmt := cur_ogr_fmt o; geom_outputs := geom_outputs o;
     mask_out_fn := mask_out_fn o; major_ring_only := major_ring_only o;
     no_donuts := no_donuts o; min_ring_area := min_ring_area o;
     reduction_tolerance := v;
     do_erosion := do_erosion o; do_invert := do_invert o;
     llproj_toler := llproj_toler o; bevel_size := bevel_size o;
     do_pinch_excursions := do_pinch_excursions o; VERBOSE := VERBOSE o |}.
Definition set_do_erosion v (o : locals) : locals :=
  {| input_raster_fn := input_raster_fn o; classify := classify o;
     debug_report := debug_report o; inspect_bandids := inspect_bandids o;
     split_polys := split_polys o; cur_out_cs := cur_out_cs o;
     cur_ogr_fmt := cur_ogr_fmt o; geom_outputs := geom_outputs o;
     mask_out_fn := mask_out_fn o; major_ring_only := major_ring_only o;
     no_donuts := no_donuts o; min_ring_area := min_ring_area o;
     reduction_tolerance := reduction_tolerance o;
     do_erosion := v; do_invert := do_invert o;
     llproj_toler := llproj_toler o; bevel_size := bevel_size o;
     do_pinch_excursions := do_pinch_excursions o; VERBOSE := VERBOSE o |}.
Definition set_do_invert v (o : locals) : locals :=
  {| input_raster_fn := input_raster_fn o; classify := classify o;
     debug_report := debug_report o; inspect_bandids := inspect_bandids o;
     split_polys := split_polys o; cur_out_cs := cur_out_cs o;
     cur_ogr_fmt := cur_ogr_fmt o; geom_outputs := geom_outputs o;
     mask_out_fn := mask_out_fn o; major_ring_only := major_ring_only o;
     no_donuts := no_donuts o; min_ring_area := min_ring_area o;
     reduction_tolerance := reduction_tolerance o;
     do_erosion := do_erosion o; do_invert := v;
     llproj_toler := llproj_toler o; bevel_size := bevel_size o;
     do_pinch_excursions := do_pinch_excursions o; VERBOSE := VERBOSE o |}.
Definition set_llproj_toler v (o : locals) : locals :=
  {| input_raster_fn := input_raster_fn o; classify := classify o;
     debug_report := debug_report o; inspect_bandids := inspect_bandids o;
     split_polys := split_polys o; cur_out_cs := cur_out_cs o;
     cur_ogr_fmt := cur_ogr_fmt o; geom_outputs := geom_outputs o;
     mask_out_fn := mask_out_fn o; major_ring_only := major_ring_only o;
     no_donuts := no_donuts o; min_ring_area := min_ring_area o;
     reduction_tolerance := reduction_tolerance o;
     do_erosion := do_erosion o; do_invert := do_invert o;
     llproj_toler := v; bevel_size := bevel_size o;
     do_pinch_excursions := do_pinch_excursions o; VERBOSE := VERBOSE o |}.
Definition set_bevel_size v (o : locals) : locals :=
  {| input_raster_fn := input_raster_fn o; classify := classify o;
     debug_report := debug_report o; inspect_bandids := inspect_bandids o;
     split_polys := split_polys o; cur_out_cs := cur_out_cs o;
     cur_ogr_fmt := cur_ogr_fmt o; geom_outputs := geom_outputs o;
     mask_out_fn := mask_out_fn o; major_ring_only := major_ring_only o;
     no_donuts := no_donuts o; min_ring_area := min_ring_area o;
     reduction_tolerance := reduction_tolerance o;
     do_erosion := do_erosion o; do_invert := do_invert o;
     llproj_toler := llproj_toler o; bevel_size := v;
     do_pinch_excursions := do_pinch_excursions o; VERBOSE := VERBOSE o |}.
Definition set_do_pinch_excursions v (o : locals) : locals :=
  {| input_raster_fn := input_raster_fn o; classify := classify o;
     debug_report := debug_report o; inspect_bandids := inspect_bandids o;
     split_polys := split_polys o; cur_out_cs := cur_out_cs o;
     cur_ogr_fmt := cur_ogr_fmt o; geom_outputs := geom_outputs o;
     mask_out_fn := mask_out_fn o; major_ring_only := major_ring_only o;
     no_donuts := no_donuts o; min_ring_area := min_ring_area o;
     reduction_tolerance := reduction_tolerance o;
     do_erosion := do_erosion o; do_invert := do_invert o;
     llproj_toler := llproj_toler o; bevel_size := bevel_size o;
     do_pinch_excursions := v; VERBOSE := VERBOSE o |}.
Definition set_VERBOSE v (o : locals) : locals :=
  {| input_raster_fn := input_raster_fn o; classify := classify o;
     debug_report := debug_report o; inspect_bandids := inspect_bandids o;
     split_polys := split_polys o; cur_out_cs := cur_out_cs o;
     cur_ogr_fmt := cur_ogr_fmt o; geom_outputs := geom_outputs o;
     mask_out_fn := mask_out_fn o; major_ring_only := major_ring_only o;
     no_donuts := no_donuts o; min_ring_area := min_ring_area o;
     reduction_tolerance := reduction_tolerance o;
     do_erosion := do_erosion o; do_invert := do_invert o;
     llproj_toler := llproj_toler o; bevel_size := bevel_size o;
     do_pinch_excursions := do_pinch_excursions o; VERBOSE := v |}.

(** ** [add_geom_output]

    Appends an output that writes in [out_cs]; [fill] is the assignment
    that the caller makes through the returned pointer. *)
Definition add_geom_output (outputs : list geom_output_t) (out_cs : Z)
    (fill : geom_output_t -> geom_output_t) : outcome (list geom_output_t) :=
  if out_cs =? CS_UNKNOWN then
    Fatal "must specify output coordinate system with -out-cs option before specifying output"
  else
    Ok (outputs ++ [fill {| out_cs := out_cs; wkt_fn := None; wkb_fn := None;
                         ogr_fn := None; ogr_fmt := None |}]).

Definition with_wkt_fn (fn : string) (go : geom_output_t) : geom_output_t :=
  {| out_cs := out_cs go; wkt_fn := Some fn; wkb_fn := wkb_fn go;
     ogr_fn := ogr_fn go; ogr_fmt := ogr_fmt go |}.
Definition with_wkb_fn (fn : string) (go : geom_output_t) : geom_output_t :=
  {| out_cs := out_cs go; wkt_fn := wkt_fn go; wkb_fn := Some fn;
     ogr_fn := ogr_fn go; ogr_fmt := ogr_fmt go |}.
Definition with_ogr (fmt fn : string) (go : geom_output_t) : geom_output_t :=
  {| out_cs := out_cs go; wkt_fn := wkt_fn go; wkb_fn := wkb_fn go;
     ogr_fn := Some fn; ogr_fmt := Some fmt |}.

(** ** The option loop of [main] *)

(** [arg[0] == '-'] *)
Definition starts_with_dash (arg : string) : bool :=
  match arg with
  | String c _ => Ascii.eqb c "-"
  | EmptyString => false
  end.

(** [*endptr] is not the terminating zero. *)
Definition trailing (endptr : string) : bool := negb (endptr =? "")%string.

(** What one word of the command line asks for: an action on its own, or
    an action on the word that follows it. *)
Inductive arg_action :=
| Alone (r : outcome locals)
| WithValue (k : string -> outcome locals).

Definition map_outcome {A B} (f : A -> B) (r : outcome A) : outcome B :=
  match r with
  | Ok a => Ok (f a)
  | Usage => Usage
  | Fatal msg => Fatal msg
  end.

Definition parse_arg {L : Libc} (arg : string) (o : locals) : arg_action :=
  if starts_with_dash arg then
    if (arg =? "-v")%string then
      Alone (Ok (set_VERBOSE (VERBOSE o + 1) o))
    else if (arg =? "-classify")%string then
      Alone (Ok (set_classify true o))
    else if (arg =? "-report")%string then
      WithValue (fun v => Ok (set_debug_report (Some v) o))
    else if (arg =? "-b")%string then
      WithValue (fun v =>
        let '(bandid, endptr) := strtol v in
        if trailing endptr then Usage
        else Ok (set_inspect_bandids
                   (inspect_bandids o ++ [cast_int bandid]) o))
    else if (arg =? "-erosion")%string then
      Alone (Ok (set_do_erosion true o))
    else if (arg =? "-invert")%string then
      Alone (Ok (set_do_invert true o))
    else if (arg =? "-split-polys")%string then
      Alone (Ok (set_split_polys true o))
    else if (arg =? "-wkt-out")%string then
      WithValue (fun v =>
        map_outcome (fun l => set_geom_outputs l o)
          (add_geom_output (geom_outputs o) (cur_out_cs o) (with_wkt_fn v)))
    else if (arg =? "-wkb-out")%string then
      WithValue (fun v =>
        map_outcome (fun l => set_geom_outputs l o)
          (add_geom_output (geom_outputs o) (cur_out_cs o) (with_wkb_fn v)))
    else if (arg =? "-ogr-out")%string then
      WithValue (fun v =>
        map_outcome (fun l => set_geom_outputs l o)
          (add_geom_output (geom_outputs o) (cur_out_cs o)
             (with_ogr (cur_ogr_fmt o) v)))
    else if (arg =? "-ogr-fmt")%string then
      WithValue (fun v => Ok (set_cur_ogr_fmt v o))
    else if (arg =? "-out-cs")%string then
      WithValue (fun cs =>
        if (cs =? "xy")%string then Ok (set_cur_out_cs CS_XY o)
        else if (cs =? "en")%string then Ok (set_cur_out_cs CS_EN o)
        else if (cs =? "ll")%string then Ok (set_cur_out_cs CS_LL o)
        else Fatal ("unrecognized value for -out-cs option (" ++ cs ++ ")")%string)
    else if (arg =? "-mask-out")%string then
      WithValue (fun v => Ok (set_mask_out_fn (Some v) o))
    else if (arg =? "-major-ring")%string then
      Alone (Ok (set_major_ring_only true o))
    else if (arg =? "-no-donuts")%string then
      Alone (Ok (set_no_donuts true o))
    else if (arg =? "-min-ring-area")%string then
      WithValue (fun v =>
        let '(n, endptr) := strtol v in
        if trailing endptr then Usage
        else Ok (set_min_ring_area n o))
    else if (arg =? "-dp-toler")%string then
      WithValue (fun v =>
        let '(x, endptr) := strtod v in
        if trailing endptr then Usage
        else Ok (set_reduction_tolerance x o))
    else if (arg =? "-bevel-size")%string then
      WithValue (fun v =>
        let '(x, endptr) := strtod v in
        if trailing endptr then Usage
        else if dbl_lt x dbl_0 || dbl_ge x dbl_1 then
          Fatal "-bevel-size must be in the range 0 <= bevel < 1"
        else Ok (set_bevel_size x o))
    else if (arg =? "-pinch-excursions")%string then
      Alone (Ok (set_do_pinch_excursions true o))
    else if (arg =? "-llproj-toler")%string then
      WithValue (fun v =>
        let '(x, endptr) := strtod v in
        if trailing endptr then Usage
        else Ok (set_llproj_toler x o))
    else if (arg =? "-h")%string || (arg =? "--help")%string then
      Alone Usage
    else
      Alone (Fatal ("unrecognized option: " ++ arg)%string)
  else
    match input_raster_fn o with
    | Some _ => Alone Usage
    | None => Alone (Ok (set_input_raster_fn (Some arg) o))
    end.

(** [while(argp < argc)]: [args] is [argv] from [argp] on. *)
Fixpoint parse_args {L : Libc} (args : list string) (o : locals)
    : outcome locals :=
  match args with
  | [] => Ok o
  | arg :: rest =>
      match parse_arg arg o with
      | Alone r =>
          match r with
          | Ok o' => parse_args rest o'
          | Usage => Usage
          | Fatal msg => Fatal msg
          end
      | WithValue k =>
          match rest with
          | [] => Usage
          | v :: rest' =>
              match k v with
              | Ok o' => parse_args rest' o'
              | Usage => Usage
              | Fatal msg => Fatal msg
              end
          end
      end
  end.

(** ** The driver *)
Section Driver.
Context {L : Libc} {C : Core} {G : Gdal}.

(** Calls that the driver makes to the outside, with their arguments. *)
Inductive event :=
| EvGDALOpen (fn : string)
| EvReadDataset8bit (bandid : Z)
| EvGetBitgridForDataset (bandids : list Z)
| EvFopen (fn : string)
| EvOgrCreateDataSource (fmt fn : string)
| EvOgrCreateLayer (fn : string) (out_cs : Z) (split_polys : bool)
| EvTraceMask (mask : BitGrid) (w h min_ring_area : Z) (no_donuts : bool)
| EvBevel (mp : Mpoly Point) (bevel_size : double)
| EvPinch (mp : Mpoly Point)
| EvMaskFromMpoly (mp : Mpoly Point) (w h : Z) (fn : string)
| EvReduce (mp : Mpoly Point) (tolerance : double)
| EvDebugPlotMpoly (mp : Mpoly Point)
| EvSplit (mp : Mpoly Point)
| EvXy2en (mp : Mpoly Point)
| EvXy2ll (mp : Mpoly Point) (toler : double)
| EvWkt (go_idx : nat) (geom : Mpoly Point)
| EvWkb (go_idx : nat) (geom : Mpoly Point)
| EvOgrFeature (go_idx : nat) (geom : Mpoly Point) (class_id : Z)
    (color : option ColorEntry)
| EvFclose (fn : string)
| EvOgrDestroy (fn : string)
| EvWritePlot (fn : string).

(** [mp.rings.size()] used as a condition. *)
Definition has_rings (mp : Mpoly Point) : bool :=
  negb (rings_size mp =? 0)%nat.

(** What [mp.rings[i]] is read as when [i] is out of range; the index
    that the loop for the biggest ring selects is always in range. *)
Definition no_ring : Ring Point :=
  {| pts := []; is_hole := false; parent_id := -1 |}.

(** The loop that looks for the biggest ring: [rs] is what is left of
    [mp.rings] from index [i] on. *)
Fixpoint biggest_ring (rs : list (Ring Point)) (i : nat)
    (biggest_area : double) (best_idx : nat) : double * nat :=
  match rs with
  | [] => (biggest_area, best_idx)
  | r :: rs' =>
      let a := area r in
      if dbl_gt a biggest_area then biggest_ring rs' (S i) a i
      else biggest_ring rs' (S i) biggest_area best_idx
  end.

Definition best_idx_of (mp : Mpoly Point) : nat :=
  snd (biggest_ring (rings mp) 0%nat dbl_0 0%nat).

(** [if(major_ring_only && mp.rings.size() > 1) { ... }] *)
Definition take_major_ring (major_ring_only : bool) (mp : Mpoly Point)
    : M event (Mpoly Point) :=
  if major_ring_only && (1 <? rings_size mp)%nat then
    let best_idx := best_idx_of mp in
    let best := nth best_idx (rings mp) no_ring in
    if parent_id best >=? 0 then
      fatal_error "largest ring should not have a parent"
    else
      ret {| rings := [best] |}
  else ret mp.

(** [if(mp.rings.size() && bevel_size > 0) { ... }] *)
Definition bevel_pass (mp : Mpoly Point) (bevel_size : double)
    : M event (Mpoly Point) :=
  if has_rings mp && dbl_gt bevel_size dbl_0 then
    tell (EvBevel mp bevel_size) ;;
    ret (bevel_self_intersections mp bevel_size)
  else ret mp.

Definition calc_ring_from_mask (mask : BitGrid) (w h : Z)
    (major_ring_only no_donuts : bool)
    (min_ring_area : Z) (bevel_size : double) : M event (Mpoly Point) :=
  let no_donuts := if major_ring_only then true else no_donuts in
  tell (EvTraceMask mask w h min_ring_area no_donuts) ;;
  let mp := trace_mask mask w h min_ring_area no_donuts in
  mp <- take_major_ring major_ring_only mp ;;
  bevel_pass mp bevel_size.

(** *** The body of the loop over classes, from the mask on *)

(** [if(feature_poly.rings.size() && do_pinch_excursions) { ... }] *)
Definition pinch_pass (o : locals) (dbuf : option report_image_t)
    (feature_poly : Mpoly Point) : M event (Mpoly Point) :=
  if has_rings feature_poly && do_pinch_excursions o then
    tell (EvPinch feature_poly) ;;
    ret (pinch_excursions2 feature_poly dbuf)
  else ret feature_poly.

(** [if(mask_out_fn) { ... }] *)
Definition mask_out_pass (o : locals) (georef : georef_t)
    (feature_poly : Mpoly Point) : M event unit :=
  match mask_out_fn o with
  | Some fn =>
      tell (EvMaskFromMpoly feature_poly (georef_w georef) (georef_h georef) fn)
  | None => ret tt
  end.

(** [if(feature_poly.rings.size() && reduction_tolerance > 0) { ... }] *)
Definition reduce_pass (o : locals) (feature_poly : Mpoly Point)
    : M event (Mpoly Point) :=
  if has_rings feature_poly && dbl_gt (reduction_tolerance o) dbl_0 then
    tell (EvReduce feature_poly (reduction_tolerance o)) ;;
    ret (compute_reduced_pointset feature_poly (reduction_tolerance o))
  else ret feature_poly.

(** The copy of the shape in the coordinate system of one output. *)
Definition project_poly (o : locals) (georef : georef_t) (cs : Z)
    (poly_in : Mpoly Point) : M event (Mpoly Point) :=
  if cs =? CS_XY then ret poly_in
  else if cs =? CS_EN then
    tell (EvXy2en poly_in) ;; ret (xy2en poly_in georef)
  else if cs =? CS_LL then
    tell (EvXy2ll poly_in (llproj_toler o)) ;;
    ret (xy2ll_with_interp poly_in georef (llproj_toler o))
  else fatal_error "bad val for out_cs".

Definition is_some {A} (x : option A) : bool :=
  match x with Some _ => true | None => false end.

(** One shape to one output. *)
Definition write_shape (o : locals) (georef : georef_t) (class_id : Z)
    (color : option ColorEntry) (poly_in : Mpoly Point)
    (igo : nat * geom_output_t) : M event unit :=
  let '(go_idx, go) := igo in
  proj_poly <- project_poly o georef (out_cs go) poly_in ;;
  when (is_some (wkt_fn go)) (tell (EvWkt go_idx proj_poly)) ;;
  when (is_some (wkb_fn go)) (tell (EvWkb go_idx proj_poly)) ;;
  when (is_some (ogr_fn go))
       (tell (EvOgrFeature go_idx proj_poly class_id color)).

(** [if(feature_poly.rings.size()) { ... }] at the end of the body. *)
Definition output_pass (o : locals) (georef : georef_t)
    (dbuf : option report_image_t) (class_id : Z)
    (color : option ColorEntry) (feature_poly : Mpoly Point)
    : M event unit :=
  if has_rings feature_poly then
    when (match dbuf with
          | Some d => match mode d with PLOT_CONTOURS => true | _ => false end
          | None => false
          end)
         (tell (EvDebugPlotMpoly feature_poly)) ;;
    if negb (List.length (geom_outputs o) =? 0)%nat && has_rings feature_poly
    then
      shapes <- (if split_polys o then
                   tell (EvSplit feature_poly) ;;
                   ret (split_mpoly_to_polys feature_poly)
                 else ret [feature_poly]) ;;
      for_each shapes (fun poly_in =>
        for_each (indexed (geom_outputs o))
                 (write_shape o georef class_id color poly_in))
    else ret tt
  else ret tt.

(** [if(do_invert) mask.invert(); if(do_erosion) mask.erode();] *)
Definition prepare_mask (o : locals) (mask : BitGrid) : BitGrid :=
  let mask := if do_invert o then invert mask else mask in
  if do_erosion o then erode mask else mask.

Definition process_mask (o : locals) (georef : georef_t)
    (dbuf : option report_image_t) (class_id : Z)
    (color : option ColorEntry) (mask : BitGrid) : M event unit :=
  let mask := prepare_mask o mask in
  feature_poly <- calc_ring_from_mask mask (georef_w georef) (georef_h georef)
                    (major_ring_only o) (no_donuts o)
                    (min_ring_area o) (bevel_size o) ;;
  feature_poly <- pinch_pass o dbuf feature_poly ;;
  mask_out_pass o georef feature_poly ;;
  feature_poly <- reduce_pass o feature_poly ;;
  output_pass o georef dbuf class_id color feature_poly.

(** *** [main], after the option loop *)

(** The checks on the combination of options. *)
Definition check_options (o : locals) (ndv_def : ndv_def_t)
    : M event string :=
  input_raster_fn <- match input_raster_fn o with
                     | Some fn => ret fn
                     | None => fatal_error "must specify filename of image"
                     end ;;
  when (major_ring_only o && negb (min_ring_area o =? 0))
    (fatal_error "-major-ring and -min-ring-area options cannot both be used at the same time") ;;
  when (major_ring_only o && no_donuts o)
    (fatal_error "-major-ring and -no-donuts options cannot both be used at the same time") ;;
  when (classify o)
    (when (negb (nranges ndv_def =? 0))
       (fatal_error "-classify option is not compatible with NDV options") ;;
     when (do_invert o)
       (fatal_error "-classify option is not compatible with -invert option") ;;
     when (is_some (mask_out_fn o))
       (fatal_error "-classify option is not compatible with -mask-out option")) ;;
  ret input_raster_fn.

(** The loop over the outputs that checks their coordinate systems. *)
Definition check_out_cs (georef : georef_t) (go : geom_output_t)
    : M event unit :=
  when (((out_cs go =? CS_EN) || (out_cs go =? CS_LL))
        && negb (fwd_affine georef))
    (fatal_error "missing affine transform") ;;
  when ((out_cs go =? CS_LL) && negb (fwd_xform georef))
    (fatal_error "missing coordinate transform").

(** The loop that opens the outputs. *)
Definition open_output (o : locals) (go : geom_output_t) : M event unit :=
  match wkt_fn go with
  | Some fn =>
      tell (EvFopen fn) ;;
      when (negb (fopen_w fn)) (fatal_error "cannot open output file for WKT")
  | None => ret tt
  end ;;
  match wkb_fn go with
  | Some fn =>
      tell (EvFopen fn) ;;
      when (negb (fopen_w fn)) (fatal_error "cannot open output file for WKB")
  | None => ret tt
  end ;;
  match ogr_fn go with
  | Some fn =>
      fmt <- match ogr_fmt go with
             | Some fmt => ret fmt
             | None => fatal_error "no OGR format was specified"
             end ;;
      when (negb (OGRGetDriverByName fmt))
        (fatal_error ("cannot get OGR driver (" ++ fmt ++ ")")%string) ;;
      tell (EvOgrCreateDataSource fmt fn) ;;
      when (negb (OGR_Dr_CreateDataSource fmt fn))
        (fatal_error "cannot create OGR data source") ;;
      tell (EvOgrCreateLayer fn (out_cs go) (split_polys o)) ;;
      when (negb (OGR_DS_CreateLayer fn))
        (fatal_error "cannot create OGR layer")
  | None => ret tt
  end.

(** [for(int class_id=0; class_id<256; class_id++)]: [ids] are the values
    of [class_id] still to come and [mask] is the variable [mask]. *)
Fixpoint class_loop (o : locals) (georef : georef_t)
    (dbuf : option report_image_t)
    (raster : option (Raster8 * (Z -> bool)))
    (color_table : option ColorTable)
    (ids : list Z) (mask : BitGrid) : M event unit :=
  match ids with
  | [] => ret tt
  | class_id :: ids' =>
      if classify o then
        match raster with
        | Some (raster8, usage_array) =>
            if usage_array class_id then
              let color := match color_table with
                           | Some ct => GDALGetColorEntry ct class_id
                           | None => None
                           end in
              let mask := get_bitgrid_for_8bit_raster
                            (georef_w georef) (georef_h georef)
                            raster8 (class_id mod 256) in
              process_mask o georef dbuf class_id color mask ;;
              class_loop o georef dbuf raster color_table ids'
                         (BitGrid_new 0 0)
            else class_loop o georef dbuf raster color_table ids' mask
        | None => class_loop o georef dbuf raster color_table ids' mask
        end
      else if negb (class_id =? 0) then
        class_loop o georef dbuf raster color_table ids' mask
      else
        process_mask o georef dbuf class_id None mask ;;
        class_loop o georef dbuf raster color_table ids' (BitGrid_new 0 0)
  end.

(** The loop that closes the outputs. *)
Definition close_output (go : geom_output_t) : M event unit :=
  match wkt_fn go with
  | Some fn => tell (EvFclose fn)
  | None => ret tt
  end ;;
  match wkb_fn go with
  | Some fn => tell (EvFclose fn)
  | None => ret tt
  end ;;
  match ogr_fn go with
  | Some fn => tell (EvOgrDestroy fn)
  | None => ret tt
  end.

(** [1, 2, ..., n] *)
Definition bands_upto (n : Z) : list Z :=
  map (fun i => Z.of_nat i + 1) (seq 0 (Z.to_nat n)).

(** [main] from the reading of the raster to [return 0]. *)
Definition read_and_trace (o : locals) (ds : Dataset) (georef : georef_t)
    (inspect_bandids : list Z) (ndv_def : ndv_def_t) : M event unit :=
  let dbuf :=
    match debug_report o with
    | Some _ =>
        Some {| plot_w := georef_w georef; plot_h := georef_h georef;
                mode := if do_pinch_excursions o then PLOT_PINCH
                        else PLOT_CONTOURS |}
    | None => None
    end in
  input <-
    (if classify o then
       when (negb (Z.of_nat (List.length inspect_bandids) =? 1))
         (fatal_error "only one band may be used in classify mode") ;;
       let band := hd 0 inspect_bandids in
       tell (EvReadDataset8bit band) ;;
       ret (Some (read_dataset_8bit ds band dbuf),
            palette_color_table ds band, BitGrid_new 0 0)
     else
       tell (EvGetBitgridForDataset inspect_bandids) ;;
       ret (None, None,
            get_bitgrid_for_dataset ds inspect_bandids ndv_def dbuf)) ;;
  let '(raster, color_table, mask) := input in
  for_each (geom_outputs o) (open_output o) ;;
  class_loop o georef dbuf raster color_table
             (map Z.of_nat (seq 0 256)) mask ;;
  for_each (geom_outputs o) close_output ;;
  match dbuf, debug_report o with
  | Some _, Some fn => tell (EvWritePlot fn)
  | _, _ => ret tt
  end.

(** [main] from the checks on the options on. *)
Definition run (o : locals) (geo_opts : geo_opts_t) (ndv_def : ndv_def_t)
    : M event unit :=
  input_raster_fn <- check_options o ndv_def ;;
  tell (EvGDALOpen input_raster_fn) ;;
  ds <- match GDALOpen input_raster_fn with
        | Some ds => ret ds
        | None => fatal_error "open failed"
        end ;;
  let inspect_bandids :=
    if inspect_numbands o =? 0 then
      bands_upto (if classify o then 1 else GDALGetRasterCount ds)
    else inspect_bandids o in
  let ndv_def :=
    if negb (classify o) && (nranges ndv_def =? 0) then
      add_ndv_from_raster ndv_def ds inspect_bandids
    else ndv_def in
  let georef := init_georef geo_opts ds in
  for_each (geom_outputs o) (check_out_cs georef) ;;
  read_and_trace o ds georef inspect_bandids ndv_def.

(** [main]: [argv] is the whole command line, [argv[0]] included. *)
Definition main (argv : list string) : M event unit :=
  if (List.length argv =? 1)%nat then usage
  else
    let '(geo_opts, argv) := init_geo_options argv in
    let '(ndv_def, argv) := init_ndv_options argv in
    o <- lift (parse_args (tl argv) initial_locals) ;;
    run o geo_opts ndv_def.

End Driver.

Arguments event {C G}.

(** ** Reading a trace *)
Section Stages.
Context {C : Core} {G : Gdal}.

(** The stages of the pipeline and the emission to a writer. *)
Inductive stage :=
| ContourTracer | Beveler | ExcursionPincher | Rasterizer | Simplifier
| CoordinateMapper | Writer.

Definition stage_of (e : event) : option stage :=
  match e with
  | EvTraceMask _ _ _ _ _ => Some ContourTracer
  | EvBevel _ _ => Some Beveler
  | EvPinch _ => Some ExcursionPincher
  | EvMaskFromMpoly _ _ _ _ => Some Rasterizer
  | EvReduce _ _ => Some Simplifier
  | EvXy2en _ | EvXy2ll _ _ => Some CoordinateMapper
  | EvWkt _ _ | EvWkb _ _ | EvOgrFeature _ _ _ _ => Some Writer
  | _ => None
  end.

(** The ranks, under [rk], of the events of [l] that have one. *)
Fixpoint ranks (rk : stage -> option nat) (l : list event) : list nat :=
  match l with
  | [] => []
  | e :: l' =>
      match stage_of e with
      | Some s =>
          match rk s with
          | Some n => n :: ranks rk l'
          | None => ranks rk l'
          end
      | None => ranks rk l'
      end
  end.

Fixpoint nondecreasing (l : list nat) : bool :=
  match l with
  | [] => true
  | a :: l' =>
      match l' with
      | [] => true
      | b :: _ => (a <=? b)%nat && nondecreasing l'
      end
  end.

(** The ranked events of [l] come in the order of their ranks. *)
Definition in_rank_order (rk : stage -> option nat) (l : list event) : bool :=
  nondecreasing (ranks rk l).

(** The order in which the driver runs the stages on one mask.  The
    mapper and the writers take turns, once per shape and output. *)
Definition driver_rank (s : stage) : option nat :=
  Some match s with
       | ContourTracer => 0
       | Beveler => 1
       | ExcursionPincher => 2
       | Rasterizer => 3
       | Simplifier => 4
       | CoordinateMapper => 5
       | Writer => 5
       end%nat.

(** The order of the overview of the pipeline: tracer, pincher,
    simplifier, beveler, then mapper and writers. *)
Definition overview_rank (s : stage) : option nat :=
  match s with
  | ContourTracer => Some 0
  | ExcursionPincher => Some 1
  | Simplifier => Some 2
  | Beveler => Some 3
  | CoordinateMapper => Some 4
  | Writer => Some 4
  | Rasterizer => None
  end%nat.

(** Within one emission: the mapper, then the writers. *)
Definition emission_rank (s : stage) : option nat :=
  match s with
  | CoordinateMapper => Some 0
  | Writer => Some 1
  | _ => None
  end%nat.

(** The rasterizer against the mapper. *)
Definition raster_rank (s : stage) : option nat :=
  match s with
  | Rasterizer => Some 0
  | CoordinateMapper => Some 1
  | _ => None
  end%nat.

(** Reading of the raster, and the stages of the core. *)
Definition reads_mask (e : event) : bool :=
  match e with
  | EvReadDataset8bit _ | EvGetBitgridForDataset _ => true
  | _ => false
  end.

Definition is_core_stage (e : event) : bool :=
  match stage_of e with
  | Some Writer | None => false
  | Some _ => true
  end.

(** What the process writes: files of the outputs, the mask, the plot. *)
Definition is_output (e : event) : bool :=
  match e with
  | EvFopen _ | EvOgrCreateDataSource _ _ | EvOgrCreateLayer _ _ _
  | EvMaskFromMpoly _ _ _ _ | EvWkt _ _ | EvWkb _ _ | EvOgrFeature _ _ _ _
  | EvWritePlot _ => true
  | _ => false
  end.

(** The tracer is not asked for holes. *)
Definition suppresses_holes (e : event) : bool :=
  match e with
  | EvTraceMask _ _ _ _ no_donuts => no_donuts
  | _ => true
  end.

(** [lo <= n <= hi] for every [n] of a nondecreasing [l]. *)
Definition sorted_between (lo hi : nat) (l : list nat) : Prop :=
  nondecreasing l = true /\ Forall (fun n => lo <= n <= hi)%nat l.

(** The ranks of the trace of [m] are sorted and lie in [lo..hi]. *)
Definition ranked_within {A} rk (lo hi : nat) (m : M event A) : Prop :=
  sorted_between lo hi (ranks rk (trace_of m)).

(** [e] has no rank under [rk]. *)
Definition unranked (rk : stage -> option nat) (e : event) : Prop :=
  match stage_of e with
  | Some s => rk s = None
  | None => True
  end.

(** An output that the georeference of the raster cannot serve. *)
Definition cs_unavailable (georef : georef_t) (go : geom_output_t) : bool :=
  ((out_cs go =? CS_LL) && negb (fwd_xform georef))
  || (((out_cs go =? CS_EN) || (out_cs go =? CS_LL))
      && negb (fwd_affine georef)).

End Stages.

(** ** The calls of one pass, stage by stage

    The order of the stages, spelled out: the calls that a pass over one
    mask makes when it ends normally, with the condition under which
    each stage runs and the Mpoly that it is given. *)
Section StagedPass.
Context {C : Core} {G : Gdal}.
Variables (o : locals) (georef : georef_t) (dbuf : option report_image_t).
Variables (class_id : Z) (color : option ColorEntry).

(** What goes on from the Mpoly of the tracer: with [-major-ring] and
    more than one ring, the ring that the loop selects, alone. *)
Definition selected (mp : Mpoly Point) : Mpoly Point :=
  if major_ring_only o && (1 <? rings_size mp)%nat
  then {| rings := [nth (best_idx_of mp) (rings mp) no_ring] |}
  else mp.

(** The beveler runs on an Mpoly with rings when the bevel size is above
    zero. *)
Definition bevels (mp : Mpoly Point) : bool :=
  has_rings mp && dbl_gt (bevel_size o) dbl_0.

Definition beveled (mp : Mpoly Point) : Mpoly Point :=
  if bevels mp then bevel_self_intersections mp (bevel_size o) else mp.

(** The pincher runs on an Mpoly with rings when it is enabled. *)
Definition pinches (mp : Mpoly Point) : bool :=
  has_rings mp && do_pinch_excursions o.

Definition pinched (mp : Mpoly Point) : Mpoly Point :=
  if pinches mp then pinch_excursions2 mp dbuf else mp.

(** The simplifier runs on an Mpoly with rings when the tolerance is
    above zero. *)
Definition simplifies (mp : Mpoly Point) : bool :=
  has_rings mp && dbl_gt (reduction_tolerance o) dbl_0.

Definition simplified (mp : Mpoly Point) : Mpoly Point :=
  if simplifies mp then compute_reduced_pointset mp (reduction_tolerance o)
  else mp.

(** The coordinate mapper runs on a shape for an output that is not in
    pixel coordinates. *)
Definition mapper_calls (cs : Z) (shape : Mpoly Point) : list event :=
  if cs =? CS_XY then []
  else if cs =? CS_EN then [EvXy2en shape]
  else if cs =? CS_LL then [EvXy2ll shape (llproj_toler o)]
  else [].

Definition mapped (cs : Z) (shape : Mpoly Point) : Mpoly Point :=
  if cs =? CS_XY then shape
  else if cs =? CS_EN then xy2en shape georef
  else if cs =? CS_LL then xy2ll_with_interp shape georef (llproj_toler o)
  else shape.

(** The writers of one output, on the geometry [geom]. *)
Definition writer_calls (igo : nat * geom_output_t) (geom : Mpoly Point)
    : list event :=
  (if is_some (wkt_fn (snd igo)) then [EvWkt (fst igo) geom] else [])
  ++ (if is_some (wkb_fn (snd igo)) then [EvWkb (fst igo) geom] else [])
  ++ (if is_some (ogr_fn (snd igo))
      then [EvOgrFeature (fst igo) geom class_id color] else []).

(** One shape to one output: the mapper, then the writers on what the
    mapper made of the shape. *)
Definition emission (shape : Mpoly Point) (igo : nat * geom_output_t)
    : list event :=
  mapper_calls (out_cs (snd igo)) shape
  ++ writer_calls igo (mapped (out_cs (snd igo)) shape).

Definition shapes_of (fp : Mpoly Point) : list (Mpoly Point) :=
  if split_polys o then split_mpoly_to_polys fp else [fp].

(** What is done with the final Mpoly when it has rings: the debug plot,
    the splitter, and every shape to every output. *)
Definition emissions (fp : Mpoly Point) : list event :=
  if has_rings fp then
    match dbuf with
    | Some d => match mode d with
                | PLOT_CONTOURS => [EvDebugPlotMpoly fp]
                | _ => []
                end
    | None => []
    end
    ++ (if negb (List.length (geom_outputs o) =? 0)%nat then
          (if split_polys o then [EvSplit fp] else [])
          ++ flat_map (fun shape =>
                         flat_map (emission shape) (indexed (geom_outputs o)))
                      (shapes_of fp)
        else [])
  else [].

(** The calls of the pass over [mask], in their order: the tracer on the
    prepared mask; the beveler on what was selected of its Mpoly; the
    pincher on the beveled Mpoly; the rasterizer of the mask output and
    the simplifier, both on the pinched Mpoly; the emissions of the
    simplified Mpoly. *)
Definition staged_calls (mask : BitGrid) : list event :=
  let mask := prepare_mask o mask in
  let nd := if major_ring_only o then true else no_donuts o in
  let mp0 := selected (trace_mask mask (georef_w georef) (georef_h georef)
                                  (min_ring_area o) nd) in
  let mp1 := beveled mp0 in
  let mp2 := pinched mp1 in
  let mp3 := simplified mp2 in
  [EvTraceMask mask (georef_w georef) (georef_h georef) (min_ring_area o) nd]
  ++ (if bevels mp0 then [EvBevel mp0 (bevel_size o)] else [])
  ++ (if pinches mp1 then [EvPinch mp1] else [])
  ++ match mask_out_fn o with
     | Some fn => [EvMaskFromMpoly mp2 (georef_w georef) (georef_h georef) fn]
     | None => []
     end
  ++ (if simplifies mp2 then [EvReduce mp2 (reduction_tolerance o)] else [])
  ++ emissions mp3.

End StagedPass.

(** ** What the option loop leaves behind *)

(** One of the three coordinate systems that [-out-cs] can name. *)
Definition known_cs (cs : Z) : bool :=
  (cs =? CS_XY) || (cs =? CS_EN) || (cs =? CS_LL).

(** An output as the option loop makes them: a known coordinate system
    and one file name, with a format exactly when the file is for OGR. *)
Definition well_formed_output (go : geom_output_t) : bool :=
  known_cs (out_cs go) &&
  match wkt_fn go, wkb_fn go, ogr_fn go, ogr_fmt go with
  | Some _, None, None, None => true
  | None, Some _, None, None => true
  | None, None, Some _, Some _ => true
  | _, _, _, _ => false
  end.

(** The options that read the word after them. *)
Definition takes_value (arg : string) : bool :=
  existsb (String.eqb arg)
    ["-report"; "-b"; "-wkt-out"; "-wkb-out"; "-ogr-out"; "-ogr-fmt";
     "-out-cs"; "-mask-out"; "-min-ring-area"; "-dp-toler"; "-bevel-size";
     "-llproj-toler"].

(** The options that add an output. *)
Definition names_output (arg : string) : bool :=
  existsb (String.eqb arg) ["-wkt-out"; "-wkb-out"; "-ogr-out"].


(** ** More readings of a trace *)
Section Phases.
Context {C : Core} {G : Gdal}.

(** The calls that the pass over one mask makes. *)
Definition from_mask_pass (e : event) : bool :=
  match e with
  | EvTraceMask _ _ _ _ _ | EvBevel _ _ | EvPinch _ | EvMaskFromMpoly _ _ _ _
  | EvReduce _ _ | EvDebugPlotMpoly _ | EvSplit _ | EvXy2en _ | EvXy2ll _ _
  | EvWkt _ _ | EvWkb _ _ | EvOgrFeature _ _ _ _ => true
  | _ => false
  end.

(** The calls that serve a geometry output. *)
Definition serves_geom_output (e : event) : bool :=
  match e with
  | EvFopen _ | EvOgrCreateDataSource _ _ | EvOgrCreateLayer _ _ _
  | EvSplit _ | EvXy2en _ | EvXy2ll _ _
  | EvWkt _ _ | EvWkb _ _ | EvOgrFeature _ _ _ _
  | EvFclose _ | EvOgrDestroy _ => true
  | _ => false
  end.

(** A call of the beveler with a bevel size strictly between 0 and 1. *)
Definition bevel_call_in_range (e : event) : bool :=
  match e with
  | EvBevel _ b => dbl_gt b dbl_0 && dbl_lt b dbl_1
  | _ => true
  end.

(** The phases of a run: opening of the raster, reading of the mask or
    the raster, opening of the outputs, the passes over the masks,
    closing of the outputs, writing of the debug plot. *)
Definition phase (e : event) : nat :=
  match e with
  | EvGDALOpen _ => 0
  | EvReadDataset8bit _ | EvGetBitgridForDataset _ => 1
  | EvFopen _ | EvOgrCreateDataSource _ _ | EvOgrCreateLayer _ _ _ => 2
  | EvFclose _ | EvOgrDestroy _ => 4
  | EvWritePlot _ => 5
  | _ => 3
  end%nat.

Definition in_phase_order (l : list event) : bool :=
  nondecreasing (map phase l).

Definition phased_within {A} (lo hi : nat) (m : M event A) : Prop :=
  sorted_between lo hi (map phase (trace_of m)).

(** The geometry that a writer was given, with the index of its output. *)
Definition written (e : event) : option (nat * Mpoly Point) :=
  match e with
  | EvWkt go_idx geom | EvWkb go_idx geom | EvOgrFeature go_idx geom _ _ =>
      Some (go_idx, geom)
  | _ => None
  end.

(** The file that an output writes, whatever its kind. *)
Definition opened_by (go : geom_output_t) (fn : string) : Prop :=
  wkt_fn go = Some fn \/ wkb_fn go = Some fn \/ ogr_fn go = Some fn.

End Phases.

(** ** The tracer and the rasterizer, from the specification *)

(** Modelled from the spec: the BitGrid of [mask.h], which is not among
    the sources: width, height and one bit per pixel, row-major. *)
Record bit_grid := {
  bg_w : nat;
  bg_h : nat;
  bits : list bool
}.

(** The grid has one bit for each of its pixels. *)
Definition bit_grid_wf (g : bit_grid) : Prop :=
  List.length (bits g) = (bg_h g * bg_w g)%nat.

Definition in_grid (g : bit_grid) (x y : Z) : bool :=
  (0 <=? x) && (x <? Z.of_nat (bg_w g))
  && (0 <=? y) && (y <? Z.of_nat (bg_h g)).

(** Modelled from the spec: access to a pixel; out of range it is an
    error, not a wrap-around. *)
Definition bg_get (g : bit_grid) (x y : Z) : option bool :=
  if in_grid g x y then
    nth_error (bits g) (Z.to_nat y * bg_w g + Z.to_nat x)
  else None.

(** The pixel is foreground; beyond the border of the grid everything is
    background. *)
Definition fg (g : bit_grid) (x y : Z) : bool :=
  match bg_get g x y with
  | Some b => b
  | None => false
  end.

(** Modelled from the spec: [invert] flips every bit. *)
Definition invert_grid (g : bit_grid) : bit_grid :=
  {| bg_w := bg_w g; bg_h := bg_h g; bits := map negb (bits g) |}.

(** The pixel [(x, y)] is the unit square from [(x, y)] to
    [(x + 1, y + 1)].  An edge of the boundary is a side of a foreground
    pixel, walked with the pixel on the same hand: the top side towards
    [+x], the right side towards [+y], the bottom side towards [-x], the
    left side towards [-y]. *)
Inductive side := Top | Right | Bottom | Left.

Definition edge : Type := Z * Z * side.

Definition side_eq_dec (a b : side) : {a = b} + {a <> b}.
Proof. decide equality. Defined.

Definition edge_eq_dec (a b : edge) : {a = b} + {a <> b}.
Proof.
  decide equality; [apply side_eq_dec|].
  decide equality; apply Z.eq_dec.
Defined.

Definition start_vertex (e : edge) : Z * Z :=
  let '(x, y, s) := e in
  match s with
  | Top => (x, y)
  | Right => (x + 1, y)
  | Bottom => (x + 1, y + 1)
  | Left => (x, y + 1)
  end.

Definition end_vertex (e : edge) : Z * Z :=
  let '(x, y, s) := e in
  match s with
  | Top => (x + 1, y)
  | Right => (x + 1, y + 1)
  | Bottom => (x, y + 1)
  | Left => (x, y)
  end.

(** The pixel on the other side of the edge. *)
Definition across (e : edge) : Z * Z :=
  let '(x, y, s) := e in
  match s with
  | Top => (x, y - 1)
  | Right => (x + 1, y)
  | Bottom => (x, y + 1)
  | Left => (x - 1, y)
  end.

(** A side between a foreground pixel and background (or the border). *)
Definition is_boundary (g : bit_grid) (e : edge) : bool :=
  let '(x, y, _) := e in
  fg g x y && negb (fg g (fst (across e)) (snd (across e))).

(** Modelled from the spec: one step of the walk along the boundary.  At
    the end of a side the walk crosses to the pixel that touches by the
    corner if that one is foreground (so that two pixels that touch only
    diagonally are on one ring), else goes straight on along the next
    pixel if that one is foreground, else turns around the corner of its
    own pixel. *)
Definition next_edge (g : bit_grid) (e : edge) : edge :=
  let '(x, y, s) := e in
  match s with
  | Top =>
      if fg g (x + 1) (y - 1) then (x + 1, y - 1, Left)
      else if fg g (x + 1) y then (x + 1, y, Top)
      else (x, y, Right)
  | Right =>
      if fg g (x + 1) (y + 1) then (x + 1, y + 1, Top)
      else if fg g x (y + 1) then (x, y + 1, Right)
      else (x, y, Bottom)
  | Bottom =>
      if fg g (x - 1) (y + 1) then (x - 1, y + 1, Right)
      else if fg g (x - 1) y then (x - 1, y, Bottom)
      else (x, y, Left)
  | Left =>
      if fg g (x - 1) (y - 1) then (x - 1, y - 1, Bottom)
      else if fg g x (y - 1) then (x, y - 1, Left)
      else (x, y, Top)
  end.

(** The step backwards. *)
Definition prev_edge (g : bit_grid) (e : edge) : edge :=
  let '(x, y, s) := e in
  match s with
  | Top =>
      if fg g (x - 1) (y - 1) then (x - 1, y - 1, Right)
      else if fg g (x - 1) y then (x - 1, y, Top)
      else (x, y, Left)
  | Right =>
      if fg g (x + 1) (y - 1) then (x + 1, y - 1, Bottom)
      else if fg g x (y - 1) then (x, y - 1, Right)
      else (x, y, Top)
  | Bottom =>
      if fg g (x + 1) (y + 1) then (x + 1, y + 1, Left)
      else if fg g (x + 1) y then (x + 1, y, Bottom)
      else (x, y, Right)
  | Left =>
      if fg g (x - 1) (y + 1) then (x - 1, y + 1, Top)
      else if fg g x (y + 1) then (x, y + 1, Left)
      else (x, y, Bottom)
  end.

Definition columns (w : nat) : list Z := map Z.of_nat (seq 0 w).

Definition pixel_sides (x y : Z) : list edge :=
  [(x, y, Top); (x, y, Right); (x, y, Bottom); (x, y, Left)].

(** The sides of all pixels, row by row. *)
Definition all_sides (w h : nat) : list edge :=
  flat_map (fun y => flat_map (fun x => pixel_sides x y) (columns w))
           (columns h).

Definition boundary_edges (g : bit_grid) : list edge :=
  filter (is_boundary g) (all_sides (bg_w g) (bg_h g)).

(** The walk from [e] over edges not yet visited: the edges of the loop
    and the edges that remain. *)
Fixpoint walk (fuel : nat) (g : bit_grid) (e : edge) (unvisited : list edge)
    : list edge * list edge :=
  match fuel with
  | O => ([], unvisited)
  | S fuel' =>
      let unvisited := remove edge_eq_dec e unvisited in
      let e' := next_edge g e in
      if in_dec edge_eq_dec e' unvisited then
        let '(lp, rest) := walk fuel' g e' unvisited in (e :: lp, rest)
      else ([e], unvisited)
  end.

(** One loop from each edge that no earlier loop has visited. *)
Fixpoint trace_loops (fuel : nat) (g : bit_grid) (unvisited : list edge)
    : list (list edge) :=
  match fuel with
  | O => []
  | S fuel' =>
      match unvisited with
      | [] => []
      | e0 :: _ =>
          let '(lp, rest) := walk (List.length unvisited) g e0 unvisited in
          lp :: trace_loops fuel' g rest
      end
  end.

Definition loops_of (g : bit_grid) : list (list edge) :=
  trace_loops (List.length (boundary_edges g)) g (boundary_edges g).

(** The segments of a closed ring: each point to the next, and the last
    to the first. *)
Definition closed_pairs (pts : list (Z * Z)) : list ((Z * Z) * (Z * Z)) :=
  match pts with
  | [] => []
  | p :: t => combine pts (t ++ [p])
  end.

(** Twice the signed area, by the shoelace formula. *)
Definition twice_area (pts : list (Z * Z)) : Z :=
  fold_right (fun pq acc =>
                let '((x1, y1), (x2, y2)) := pq in x1 * y2 - x2 * y1 + acc)
             0 (closed_pairs pts).

(** The segment from [p] to [q] crosses the half-line that leaves the
    centre of the pixel [(x, y)] towards [-x]. *)
Definition crosses (x y : Z) (pq : (Z * Z) * (Z * Z)) : bool :=
  let '((x1, y1), (x2, y2)) := pq in
  let d := (2 * x1 - 2 * x - 1) * (y2 - y1) + (2 * y + 1 - 2 * y1) * (x2 - x1) in
  if (y1 <=? y) && (y <? y2) then d <? 0
  else if (y2 <=? y) && (y <? y1) then 0 <? d
  else false.

Definition crossings (pts : list (Z * Z)) (x y : Z) : nat :=
  List.length (filter (crosses x y) (closed_pairs pts)).

(** The centre of the pixel [(x, y)] is inside the ring. *)
Definition inside (r : Ring (Z * Z)) (x y : Z) : bool :=
  Nat.odd (crossings (pts r) x y).

(** Modelled from the spec: the ring of a loop.  The walk keeps the
    foreground on one hand, so the sign of the area tells a hole from an
    exterior ring. *)
Definition ring_of_loop (lp : list edge) : Ring (Z * Z) :=
  let pts := map start_vertex lp in
  {| pts := pts; is_hole := twice_area pts <? 0; parent_id := -1 |}.

(** The representative point of a loop: the centre of the pixel across
    its first edge, which for a hole is a background pixel in the
    hole. *)
Definition representative (lp : list edge) : Z * Z :=
  match lp with
  | [] => (0, 0)
  | e :: _ => across e
  end.

Definition abs_twice_area (r : Ring (Z * Z)) : Z := Z.abs (twice_area (pts r)).

(** Modelled from the spec: the innermost enclosing ring of a hole, the
    one of smallest area among the exterior rings that contain its
    representative point; [-1] when there is none. *)
Fixpoint innermost (rs : list (Ring (Z * Z))) (i : Z) (rep : Z * Z)
    (best : Z) (best_area : Z) : Z :=
  match rs with
  | [] => best
  | r :: rs' =>
      if negb (is_hole r) && inside r (fst rep) (snd rep)
         && ((best <? 0) || (abs_twice_area r <? best_area))
      then innermost rs' (i + 1) rep i (abs_twice_area r)
      else innermost rs' (i + 1) rep best best_area
  end.

Definition with_parent (rs : list (Ring (Z * Z)))
    (rlp : Ring (Z * Z) * list edge) : Ring (Z * Z) :=
  let '(r, lp) := rlp in
  {| pts := pts r; is_hole := is_hole r;
     parent_id := if is_hole r then innermost rs 0 (representative lp) (-1) 0
                  else -1 |}.

(** The rings of the mask with their nesting, before any is dropped. *)
Definition nested_rings (g : bit_grid) : list (Ring (Z * Z)) :=
  let loops := loops_of g in
  let rs := map ring_of_loop loops in
  map (with_parent rs) (combine rs loops).

(** Modelled from the spec: a ring is dropped when its area is below
    [min_ring_area], when it is a hole of a ring that is dropped, and,
    if holes are suppressed, when it has a parent. *)
Definition too_small (min_ring_area : Z) (r : Ring (Z * Z)) : bool :=
  abs_twice_area r <? 2 * min_ring_area.

Definition dropped (rs : list (Ring (Z * Z))) (min_ring_area : Z)
    (suppress_holes : bool) (r : Ring (Z * Z)) : bool :=
  too_small min_ring_area r
  || ((parent_id r >=? 0)
      && (suppress_holes
          || match nth_error rs (Z.to_nat (parent_id r)) with
             | Some p => too_small min_ring_area p
             | None => false
             end)).

(** The index of ring [i] once the dropped rings are gone. *)
Definition new_index (rs : list (Ring (Z * Z))) (min_ring_area : Z)
    (suppress_holes : bool) (i : Z) : Z :=
  if i <? 0 then -1
  else Z.of_nat (List.length
         (filter (fun r => negb (dropped rs min_ring_area suppress_holes r))
                 (firstn (Z.to_nat i) rs))).

Definition compact (rs : list (Ring (Z * Z))) (min_ring_area : Z)
    (suppress_holes : bool) : list (Ring (Z * Z)) :=
  map (fun r => {| pts := pts r; is_hole := is_hole r;
                   parent_id := new_index rs min_ring_area suppress_holes
                                  (parent_id r) |})
      (filter (fun r => negb (dropped rs min_ring_area suppress_holes r)) rs).

(** Modelled from the spec: [trace(mask, min_ring_area, suppress_holes)],
    the contour tracer of [mask-tracer.h], which is not among the
    sources. *)
Definition trace (mask : bit_grid) (min_ring_area : Z)
    (suppress_holes : bool) : Mpoly (Z * Z) :=
  {| rings := compact (nested_rings mask) min_ring_area suppress_holes |}.

(** Modelled from the spec: [fill(mpoly, w, h)], the rasterizer of
    [polygon-rasterizer.h], which is not among the sources: a pixel is
    foreground when it is inside an odd number of the rings. *)
Definition fill (mp : Mpoly (Z * Z)) (w h : nat) : bit_grid :=
  {| bg_w := w; bg_h := h;
     bits := flat_map
               (fun y =>
                  map (fun x =>
                         Nat.odd (List.length
                                    (filter (fun r => inside r x y) (rings mp))))
                      (columns w))
               (columns h) |}.

Definition grid_of_rows (rows : list (list bool)) : bit_grid :=
  {| bg_w := List.length (List.hd [] rows);
     bg_h := @List.length (list bool) rows;
     bits := List.concat rows |}.

(** The segment that an edge covers. *)
Definition segment (e : edge) : (Z * Z) * (Z * Z) :=
  (start_vertex e, end_vertex e).

(** Each edge of the list is followed by its next edge. *)
Fixpoint chain (g : bit_grid) (lp : list edge) : Prop :=
  match lp with
  | [] => True
  | e :: t =>
      match t with
      | [] => True
      | e' :: _ => next_edge g e = e' /\ chain g t
      end
  end.

(** A set of boundary edges that the walk cannot leave, in either
    direction. *)
Definition closed_set (g : bit_grid) (R : list edge) : Prop :=
  forall e, In e R ->
    is_boundary g e = true /\ In (next_edge g e) R /\ In (prev_edge g e) R.

(** The points of the loop, joined in a ring, are its edges. *)
Definition good_loop (lp : list edge) : Prop :=
  closed_pairs (map start_vertex lp) = map segment lp.

(** The edge crosses the half-line that leaves the centre of the pixel
    [(x, y)] towards [-x]. *)
Definition crossing (x y : Z) (e : edge) : bool := crosses x y (segment e).

(** The number of elements of [l] with the property [P] is odd. *)
Definition odd_count {A} (P : A -> bool) (l : list A) : bool :=
  Nat.odd (List.length (filter P l)).

(** A boundary edge that the half-line of the pixel [(x, y)] crosses. *)
Definition hit (g : bit_grid) (x y : Z) (e : edge) : bool :=
  is_boundary g e && crossing x y e.

(** *** The driver on the tracer and the rasterizer of the specification

    The passes that the specification leaves open are parameters. *)
Section ModelCore.
Variable erode_grid : bit_grid -> bit_grid.
Variable ring_area : Ring (Z * Z) -> double.
Variable bevel : Mpoly (Z * Z) -> double -> Mpoly (Z * Z).
Variable pinch : Mpoly (Z * Z) -> option report_image_t -> Mpoly (Z * Z).
Variable reduce : Mpoly (Z * Z) -> double -> Mpoly (Z * Z).
Variable split : Mpoly (Z * Z) -> list (Mpoly (Z * Z)).
Variable to_en : Mpoly (Z * Z) -> georef_t -> Mpoly (Z * Z).
Variable to_ll : Mpoly (Z * Z) -> georef_t -> double -> Mpoly (Z * Z).

Definition model_core : Core := {|
  Point := Z * Z;
  BitGrid := bit_grid;
  BitGrid_new := fun w h =>
    {| bg_w := Z.to_nat w; bg_h := Z.to_nat h;
       bits := repeat false (Z.to_nat h * Z.to_nat w) |};
  invert := invert_grid;
  erode := erode_grid;
  area := ring_area;
  trace_mask := fun mask _ _ min_ring_area no_donuts =>
    trace mask min_ring_area no_donuts;
  bevel_self_intersections := bevel;
  pinch_excursions2 := pinch;
  compute_reduced_pointset := reduce;
  split_mpoly_to_polys := split;
  xy2en := to_en;
  xy2ll_with_interp := to_ll
|}.

End ModelCore.

(** ** A small world for the examples

    Stand-ins for libc, GDAL and the core, on which the driver can be run:
    two-by-two rasters, a tracer that answers one square ring per set
    pixel, and passes that mark the rings they are given. *)
Module World.

Definition is_digit (c : ascii) : bool :=
  (48 <=? nat_of_ascii c)%nat && (nat_of_ascii c <=? 57)%nat.

Fixpoint digits (s : string) (acc : Z) : Z * string :=
  match s with
  | String c s' =>
      if is_digit c then digits s' (10 * acc + Z.of_nat (nat_of_ascii c - 48))
      else (acc, s)
  | EmptyString => (acc, EmptyString)
  end.

Definition decimal (s : string) : Z * string :=
  match s with
  | String "-"%char s' => let '(n, r) := digits s' 0 in (- n, r)
  | _ => digits s 0
  end.

Definition dbl_half : double := S754_finite false 4503599627370496 (-53).
Definition dbl_minus_1 : double := S754_finite true 4503599627370496 (-52).
Definition dbl_1_5 : double := S754_finite false 6755399441055744 (-52).

(** The few literals that the examples use. *)
Definition literal (s : string) : double * string :=
  if (s =? "0")%string then (dbl_0, EmptyString)
  else if (s =? "0.1")%string then (dbl_0_1, EmptyString)
  else if (s =? "0.5")%string then (dbl_half, EmptyString)
  else if (s =? "1")%string then (dbl_1, EmptyString)
  else if (s =? "1.5")%string then (dbl_1_5, EmptyString)
  else if (s =? "2")%string then (dbl_2, EmptyString)
  else if (s =? "-1")%string then (dbl_minus_1, EmptyString)
  else if (s =? "nan")%string then (S754_nan, EmptyString)
  else (dbl_0, s).

#[export] Instance libc : Libc := {|
  strtol := decimal;
  strtod := literal;
  fopen_w := fun fn => negb (fn =? "/readonly/out")%string
|}.

Definition grid := list (list bool).

Definition square (x y : Z) : Ring (Z * Z) :=
  {| pts := [(x, y); (x + 1, y); (x + 1, y + 1); (x, y + 1)];
     is_hole := false; parent_id := -1 |}.

Fixpoint squares_of_row (row : list bool) (x y : Z) : list (Ring (Z * Z)) :=
  match row with
  | [] => []
  | b :: row' =>
      (if b then [square x y] else []) ++ squares_of_row row' (x + 1) y
  end.

Fixpoint squares_of_rows (rows : grid) (y : Z) : list (Ring (Z * Z)) :=
  match rows with
  | [] => []
  | row :: rows' => squares_of_row row 0 y ++ squares_of_rows rows' (y + 1)
  end.

(** A pass leaves its mark as one more vertex on every ring. *)
Definition mark (p : Z * Z) (mp : Mpoly (Z * Z)) : Mpoly (Z * Z) :=
  {| rings := map (fun r => {| pts := pts r ++ [p]; is_hole := is_hole r;
                               parent_id := parent_id r |}) (rings mp) |}.

(** The area of a ring of the examples: its number of vertices. *)
Definition vertex_count_area (r : Ring (Z * Z)) : double :=
  match pts r with
  | [] => dbl_0
  | _ :: l => S754_finite false (Pos.of_succ_nat (List.length l)) 0
  end.

(** The tracer of the examples. *)
Definition squares_tracer (mask : grid) (w h min_ring_area : Z)
    (no_donuts : bool) : Mpoly (Z * Z) :=
  {| rings := squares_of_rows mask 0 |}.

(** A tracer with the fault that the check on the major ring is there
    for: its largest ring has a parent. *)
Definition faulty_tracer (mask : grid) (w h min_ring_area : Z)
    (no_donuts : bool) : Mpoly (Z * Z) :=
  {| rings := [square 0 0;
               {| pts := [(0, 0); (2, 0); (2, 2); (1, 3); (0, 2)];
                  is_hole := true; parent_id := 0 |}] |}.

Definition raster_named (ds : string) : grid :=
  if (ds =? "empty.tif")%string then [[false; false]; [false; false]]
  else if (ds =? "two.tif")%string then [[true; false]; [false; true]]
  else [[true; false]; [false; false]].

(** A tracer with the same fault on a single ring. *)
Definition orphan_tracer (mask : grid) (w h min_ring_area : Z)
    (no_donuts : bool) : Mpoly (Z * Z) :=
  {| rings := [{| pts := [(0, 0); (1, 0); (1, 1); (0, 1)];
                  is_hole := true; parent_id := 0 |}] |}.

Section WithTracer.
Variable tracer : grid -> Z -> Z -> Z -> bool -> Mpoly (Z * Z).

Definition core_of : Core := {|
  Point := Z * Z;
  BitGrid := grid;
  BitGrid_new := fun _ _ => [];
  invert := map (map negb);
  erode := fun g => g;
  area := vertex_count_area;
  trace_mask := tracer;
  bevel_self_intersections := fun mp _ => mark (-1, -1) mp;
  pinch_excursions2 := fun mp _ => mark (-2, -2) mp;
  compute_reduced_pointset := fun mp _ => mark (-3, -3) mp;
  split_mpoly_to_polys := fun mp => map (fun r => {| rings := [r] |}) (rings mp);
  xy2en := fun mp _ => mark (-4, -4) mp;
  xy2ll_with_interp := fun mp _ _ => mark (-5, -5) mp
|}.

#[local] Existing Instance core_of.

(** Rasters by name: [plain.tif] has no georeference, [empty.tif] has no
    data pixel, [missing.tif] cannot be opened. *)
Definition gdal_of : @Gdal core_of := {|
  Dataset := string;
  geo_opts_t := unit;
  ndv_def_t := Z;
  Raster8 := grid;
  ColorTable := unit;
  ColorEntry := unit;
  init_geo_options := fun argv => (tt, argv);
  init_ndv_options := fun argv => (0, argv);
  nranges := fun n => n;
  GDALOpen := fun fn => if (fn =? "missing.tif")%string then None else Some fn;
  GDALGetRasterCount := fun _ => 1;
  add_ndv_from_raster := fun _ _ _ => 1;
  init_georef := fun _ ds =>
    {| georef_w := 2; georef_h := 2;
       fwd_affine := negb (ds =? "plain.tif")%string;
       fwd_xform := negb (ds =? "plain.tif")%string |};
  read_dataset_8bit := fun _ _ _ =>
    ([[true; false]; [false; false]], fun v => v =? 7);
  palette_color_table := fun _ _ => None;
  GDALGetColorEntry := fun _ _ => None;
  get_bitgrid_for_dataset := fun ds _ _ _ => raster_named ds;
  get_bitgrid_for_8bit_raster := fun _ _ r _ => r;
  OGRGetDriverByName := fun _ => true;
  OGR_Dr_CreateDataSource := fun _ _ => true;
  OGR_DS_CreateLayer := fun _ => true
|}.

End WithTracer.

#[export] Instance core : Core := core_of squares_tracer.
#[export] Instance gdal : Gdal := gdal_of squares_tracer.

Definition faulty_core : Core := core_of faulty_tracer.
Definition faulty_gdal : @Gdal faulty_core := gdal_of faulty_tracer.

Definition orphan_core : Core := core_of orphan_tracer.
Definition orphan_gdal : @Gdal orphan_core := gdal_of orphan_tracer.

(** Some sets of options. *)
Definition plain_ll : locals :=
  set_geom_outputs
    [{| out_cs := CS_LL; wkt_fn := Some "o.wkt"; wkb_fn := None;
        ogr_fn := None; ogr_fmt := None |}]
    (set_input_raster_fn (Some "plain.tif") initial_locals).

Definition major_with_area : locals :=
  set_min_ring_area 3
    (set_major_ring_only true
       (set_input_raster_fn (Some "in.tif") initial_locals)).

Definition major_xy : locals :=
  set_geom_outputs
    [{| out_cs := CS_XY; wkt_fn := Some "o.wkt"; wkb_fn := None;
        ogr_fn := None; ogr_fmt := None |}]
    (set_major_ring_only true
       (set_input_raster_fn (Some "two.tif") initial_locals)).

Definition exact_outline : locals :=
  set_reduction_tolerance dbl_0
    (set_input_raster_fn (Some "in.tif") initial_locals).

Definition with_mask_out : locals :=
  set_mask_out_fn (Some "m.pbm")
    (set_geom_outputs
       [{| out_cs := CS_EN; wkt_fn := Some "o.wkt"; wkb_fn := None;
           ogr_fn := None; ogr_fmt := None |}]
       (set_input_raster_fn (Some "in.tif") initial_locals)).

Definition georef_2x2 : georef_t :=
  {| georef_w := 2; georef_h := 2; fwd_affine := true; fwd_xform := true |}.

(** The driver on the tracer of the specification, with passes that
    leave the rings as they are. *)
Definition plain_model_core : Core :=
  model_core (fun g => g) vertex_count_area
             (fun mp _ => mp) (fun mp _ => mp) (fun mp _ => mp)
             (fun mp => [mp]) (fun mp _ => mp) (fun mp _ _ => mp).

Definition diagonal_pixels : bit_grid :=
  grid_of_rows [[false; false; false; false];
                [false; false; true; false];
                [false; true; false; false];
                [false; false; false; false]].

Definition ring_in_ring : bit_grid :=
  grid_of_rows [[true; true; true; true; true];
                [true; false; false; false; true];
                [true; false; true; false; true];
                [true; false; false; false; true];
                [true; true; true; true; true]].

#[local] Existing Instance plain_model_core.

Definition plain_model_gdal : @Gdal plain_model_core := {|
  Dataset := string;
  geo_opts_t := unit;
  ndv_def_t := Z;
  Raster8 := bit_grid;
  ColorTable := unit;
  ColorEntry := unit;
  init_geo_options := fun argv => (tt, argv);
  init_ndv_options := fun argv => (0, argv);
  nranges := fun n => n;
  GDALOpen := fun fn => Some fn;
  GDALGetRasterCount := fun _ => 1;
  add_ndv_from_raster := fun _ _ _ => 1;
  init_georef := fun _ ds =>
    {| georef_w := 4; georef_h := 4; fwd_affine := true; fwd_xform := true |};
  read_dataset_8bit := fun _ _ _ => (diagonal_pixels, fun v => v =? 1);
  palette_color_table := fun _ _ => None;
  GDALGetColorEntry := fun _ _ => None;
  get_bitgrid_for_dataset := fun _ _ _ _ => diagonal_pixels;
  get_bitgrid_for_8bit_raster := fun _ _ r _ => r;
  OGRGetDriverByName := fun _ => true;
  OGR_Dr_CreateDataSource := fun _ _ => true;
  OGR_DS_CreateLayer := fun _ => true
|}.

(** The options of an exact outline with a mask output. *)
Definition exact_with_mask_out : locals :=
  set_bevel_size dbl_0
    (set_reduction_tolerance dbl_0
       (set_mask_out_fn (Some "m.pbm")
          (set_input_raster_fn (Some "in.tif") initial_locals))).

Definition georef_4x4 : georef_t :=
  {| georef_w := 4; georef_h := 4; fwd_affine := true; fwd_xform := true |}.

End World.

(** * Properties *)

(** ** The effect monad *)
Section MonadFacts.
Context {E : Type}.

Lemma trace_bind {A B} (m : M E A) (f : A -> M E B) :
  trace_of (bind m f) =
  trace_of m ++ match result_of m with
                | Ok a => trace_of (f a)
                | _ => []
                end.
Proof.
  destruct m as [l [a | | msg]]; simpl; try (now rewrite app_nil_r).
  destruct (f a); reflexivity.
Qed.

Lemma result_bind {A B} (m : M E A) (f : A -> M E B) :
  result_of (bind m f) =
  match result_of m with
  | Ok a => result_of (f a)
  | Usage => Usage
  | Fatal msg => Fatal msg
  end.
Proof.
  destruct m as [l [a | | msg]]; simpl; try reflexivity.
  destruct (f a); reflexivity.
Qed.

Lemma bind_ret_l {A B} (a : A) (f : A -> M E B) : bind (ret a) f = f a.
Proof. unfold bind, ret. destruct (f a); reflexivity. Qed.

Lemma bind_tell {B} (e : E) (f : unit -> M E B) :
  bind (tell e) f = (e :: trace_of (f tt), result_of (f tt)).
Proof. unfold bind, tell. destruct (f tt); reflexivity. Qed.

Lemma bind_silent {A B} (m : M E A) (f : A -> M E B) (a : A) :
  m = ([], Ok a) -> bind m f = f a.
Proof. intros ->. apply bind_ret_l. Qed.

Lemma bind_fatal {A B} (m : M E A) (f : A -> M E B) l msg :
  m = (l, Fatal msg) -> bind m f = (l, Fatal msg).
Proof. intros ->. reflexivity. Qed.

Lemma bind_ext {A B} (m : M E A) (f g : A -> M E B) :
  (forall a, f a = g a) -> bind m f = bind m g.
Proof.
  intros H. destruct m as [l [a | | msg]]; simpl; try reflexivity.
  now rewrite H.
Qed.

Lemma bind_ret_r {A} (m : M E A) : bind m (fun a => ret a) = m.
Proof.
  destruct m as [l [a | | msg]]; simpl; try reflexivity.
  now rewrite app_nil_r.
Qed.

Lemma surjective_run {A} (m : M E A) : m = (trace_of m, result_of m).
Proof. destruct m; reflexivity. Qed.

(** A property of every event passes from the parts to the whole. *)
Lemma Forall_bind {A B} (Q : E -> Prop) (m : M E A) (f : A -> M E B) :
  Forall Q (trace_of m) ->
  (forall a, result_of m = Ok a -> Forall Q (trace_of (f a))) ->
  Forall Q (trace_of (bind m f)).
Proof.
  intros Hm Hf. rewrite trace_bind. apply Forall_app. split; [assumption|].
  destruct (result_of m); auto.
Qed.

Lemma Forall_when (Q : E -> Prop) (b : bool) (m : M E unit) :
  (b = true -> Forall Q (trace_of m)) -> Forall Q (trace_of (when b m)).
Proof. destruct b; simpl; auto. Qed.

Lemma Forall_for_each {A} (Q : E -> Prop) (l : list A) (f : A -> M E unit) :
  (forall a, In a l -> Forall Q (trace_of (f a))) ->
  Forall Q (trace_of (for_each l f)).
Proof.
  induction l as [| a l IH]; intros H; simpl; [constructor|].
  apply Forall_bind; [apply H; now left|].
  intros _ _. apply IH. intros b Hb. apply H. now right.
Qed.

(** A computation that ends normally, followed by another. *)
Lemma bind_ok {A B} (m : M E A) (f : A -> M E B) (l : list E) (a : A) :
  m = (l, Ok a) -> bind m f = (l ++ trace_of (f a), result_of (f a)).
Proof. intros ->. simpl. destruct (f a). reflexivity. Qed.

(** The calls of a loop against the calls that each turn is to make: an
    initial part of them, and all of them when the loop ends normally. *)
Lemma for_each_staged {A} (l : list A) (f : A -> M E unit)
    (g : A -> list E) :
  (forall a, In a l ->
     (exists rest, g a = trace_of (f a) ++ rest)
     /\ (result_of (f a) = Ok tt -> trace_of (f a) = g a)) ->
  (exists rest, flat_map g l = trace_of (for_each l f) ++ rest)
  /\ (result_of (for_each l f) = Ok tt ->
      trace_of (for_each l f) = flat_map g l).
Proof.
  induction l as [| a l IH]; intros H; simpl.
  - split; [now exists [] | reflexivity].
  - destruct (H a (or_introl eq_refl)) as [[rest Hrest] Hok].
    destruct IH as [[rest' Hrest'] Hok'];
      [intros b Hb; apply H; now right|].
    rewrite trace_bind, result_bind.
    destruct (result_of (f a)) as [[] | | msg].
    + rewrite <- (Hok eq_refl). split.
      * exists rest'. now rewrite Hrest', app_assoc.
      * intros Hl. now rewrite (Hok' Hl).
    + split; [|discriminate]. exists (rest ++ flat_map g l).
      now rewrite Hrest, app_nil_r, app_assoc.
    + split; [|discriminate]. exists (rest ++ flat_map g l).
      now rewrite Hrest, app_nil_r, app_assoc.
Qed.

End MonadFacts.

(** ** Ranks *)
Section RankFacts.
Context {C : Core} {G : Gdal}.

Lemma ranks_app rk (l1 l2 : list event) :
  ranks rk (l1 ++ l2) = ranks rk l1 ++ ranks rk l2.
Proof.
  induction l1 as [| e l1 IH]; simpl; [reflexivity|].
  destruct (stage_of e) as [s|]; [|assumption].
  destruct (rk s); [simpl; now f_equal | assumption].
Qed.

Lemma nondecreasing_cons a l :
  nondecreasing (a :: l) = true <->
  Forall (fun n => a <= n)%nat l /\ nondecreasing l = true.
Proof.
  revert a. induction l as [| b l IH]; intros a.
  - simpl. split; [intros _; split; [constructor | reflexivity] | reflexivity].
  - change (nondecreasing (a :: b :: l))
      with ((a <=? b)%nat && nondecreasing (b :: l)).
    rewrite andb_true_iff, Nat.leb_le. split.
    + intros [Hab Hbl]. split; [|assumption].
      constructor; [assumption|].
      apply IH in Hbl. destruct Hbl as [Hb _].
      eapply Forall_impl; [|exact Hb]. simpl. intros; lia.
    + intros [Ha Hbl]. inversion Ha; subst. now split.
Qed.

Lemma sorted_between_nil lo hi : sorted_between lo hi [].
Proof. split; [reflexivity | constructor]. Qed.

Lemma sorted_between_one lo hi n :
  (lo <= n <= hi)%nat -> sorted_between lo hi [n].
Proof. intros H. split; [reflexivity | now constructor]. Qed.

Lemma sorted_between_weaken lo hi lo' hi' l :
  sorted_between lo hi l -> (lo' <= lo)%nat -> (hi <= hi')%nat ->
  sorted_between lo' hi' l.
Proof.
  intros [Hs Hb] Hlo Hhi. split; [assumption|].
  eapply Forall_impl; [|exact Hb]. simpl. intros; lia.
Qed.

Lemma sorted_between_app lo mid hi l1 l2 :
  sorted_between lo mid l1 -> sorted_between mid hi l2 ->
  (lo <= mid <= hi)%nat ->
  sorted_between lo hi (l1 ++ l2).
Proof.
  intros [Hs1 Hb1] [Hs2 Hb2] Hm. split.
  - clear Hm. induction l1 as [| a l1 IH]; simpl; [assumption|].
    inversion Hb1 as [| ? ? Ha Hb1']; subst.
    apply nondecreasing_cons in Hs1. destruct Hs1 as [Hle Hs1].
    apply (proj2 (nondecreasing_cons a (l1 ++ l2))). split.
    + apply Forall_app. split; [assumption|].
      eapply Forall_impl; [|exact Hb2]. simpl. intros; lia.
    + now apply IH.
  - apply Forall_app. split.
    + eapply Forall_impl; [|exact Hb1]. simpl. intros; lia.
    + eapply Forall_impl; [|exact Hb2]. simpl. intros; lia.
Qed.

Lemma ranked_bind {A B} rk lo mid hi (m : M event A) (f : A -> M event B) :
  (lo <= mid <= hi)%nat ->
  ranked_within rk lo mid m ->
  (forall a, result_of m = Ok a -> ranked_within rk mid hi (f a)) ->
  ranked_within rk lo hi (bind m f).
Proof.
  intros Hm H1 H2. unfold ranked_within. rewrite trace_bind, ranks_app.
  eapply sorted_between_app; [exact H1 | | exact Hm].
  destruct (result_of m) as [a | | msg];
    [now apply H2 | apply sorted_between_nil ..].
Qed.

Lemma ranked_silent {A} rk lo hi (m : M event A) :
  trace_of m = [] -> ranked_within rk lo hi m.
Proof. intros H. unfold ranked_within. rewrite H. apply sorted_between_nil. Qed.

Lemma ranked_weaken {A} rk lo hi lo' hi' (m : M event A) :
  ranked_within rk lo hi m -> (lo' <= lo)%nat -> (hi <= hi')%nat ->
  ranked_within rk lo' hi' m.
Proof. unfold ranked_within. intros. eapply sorted_between_weaken; eauto. Qed.

Lemma ranked_when rk lo hi (b : bool) (m : M event unit) :
  (b = true -> ranked_within rk lo hi m) -> ranked_within rk lo hi (when b m).
Proof.
  destruct b; simpl; [auto|]. intros _. now apply ranked_silent.
Qed.

Lemma ranked_for_each {A} rk n (l : list A) (f : A -> M event unit) :
  (forall a, In a l -> ranked_within rk n n (f a)) ->
  ranked_within rk n n (for_each l f).
Proof.
  induction l as [| a l IH]; intros H; simpl; [now apply ranked_silent|].
  apply (ranked_bind rk n n n); [lia | apply H; now left |].
  intros _ _. apply IH. intros b Hb. apply H. now right.
Qed.

Lemma ranks_unranked rk (l : list event) :
  Forall (unranked rk) l -> ranks rk l = [].
Proof.
  induction 1 as [| e l He _ IH]; simpl; [reflexivity|].
  unfold unranked in He. destruct (stage_of e); [|assumption].
  now rewrite He.
Qed.

Lemma ranked_unranked {A} rk lo hi (m : M event A) :
  Forall (unranked rk) (trace_of m) -> ranked_within rk lo hi m.
Proof.
  intros H. unfold ranked_within. rewrite (ranks_unranked rk _ H).
  apply sorted_between_nil.
Qed.

Lemma ranked_in_order {A} rk lo hi (m : M event A) :
  ranked_within rk lo hi m -> in_rank_order rk (trace_of m) = true.
Proof. intros [H _]. exact H. Qed.

End RankFacts.

(** ** The order of the doubles *)

Lemma key_compare_spec (k1 k2 : Z * Z * Z) :
  let '(a1, b1, c1) := k1 in
  let '(a2, b2, c2) := k2 in
  match key_compare k1 k2 with
  | Lt => a1 < a2 \/ (a1 = a2 /\ (b1 < b2 \/ (b1 = b2 /\ c1 < c2)))
  | Eq => a1 = a2 /\ b1 = b2 /\ c1 = c2
  | Gt => a2 < a1 \/ (a1 = a2 /\ (b2 < b1 \/ (b1 = b2 /\ c2 < c1)))
  end.
Proof.
  destruct k1 as [[a1 b1] c1], k2 as [[a2 b2] c2]. unfold key_compare.
  destruct (Z.compare_spec a1 a2); [|lia ..].
  destruct (Z.compare_spec b1 b2); [|lia ..].
  destruct (Z.compare_spec c1 c2); lia.
Qed.

Lemma SFcompare_key (a b : double) :
  SFcompare a b =
  if is_nan a || is_nan b then None
  else Some (key_compare (dbl_key a) (dbl_key b)).
Proof.
  destruct a as [sa | sa | | sa ma ea], b as [sb | sb | | sb mb eb];
    try reflexivity;
    try (destruct sa; reflexivity);
    try (destruct sb; reflexivity);
    try (destruct sa, sb; reflexivity).
  destruct sa, sb; simpl; try reflexivity.
  rewrite Z.compare_opp, (Z.compare_antisym ea eb).
  destruct (ea ?= eb); reflexivity.
Qed.

Lemma dbl_le_key (a b : double) :
  dbl_le a b = true <->
  is_nan a = false /\ is_nan b = false /\
  key_compare (dbl_key a) (dbl_key b) <> Gt.
Proof.
  unfold dbl_le, SFleb. rewrite SFcompare_key.
  destruct (is_nan a), (is_nan b); simpl;
    try (split; [discriminate | intros (? & ? & ?); discriminate]).
  destruct (key_compare (dbl_key a) (dbl_key b)); split;
    try discriminate; try (intros (_ & _ & H); congruence);
    intros _; repeat split; discriminate.
Qed.

Lemma dbl_lt_key (a b : double) :
  dbl_lt a b = true <->
  is_nan a = false /\ is_nan b = false /\
  key_compare (dbl_key a) (dbl_key b) = Lt.
Proof.
  unfold dbl_lt, SFltb. rewrite SFcompare_key.
  destruct (is_nan a), (is_nan b); simpl;
    try (split; [discriminate | intros (? & ? & ?); discriminate]).
  destruct (key_compare (dbl_key a) (dbl_key b)); split;
    try discriminate; try (intros (_ & _ & H); congruence);
    intros _; repeat split; discriminate.
Qed.

Lemma key_compare_antisym k1 k2 :
  key_compare k2 k1 = CompOpp (key_compare k1 k2).
Proof.
  pose proof (key_compare_spec k1 k2) as H12.
  pose proof (key_compare_spec k2 k1) as H21.
  destruct k1 as [[a1 b1] c1], k2 as [[a2 b2] c2].
  destruct (key_compare (a1, b1, c1) (a2, b2, c2)),
           (key_compare (a2, b2, c2) (a1, b1, c1));
    simpl; try reflexivity; exfalso; lia.
Qed.

Lemma key_le_trans k1 k2 k3 :
  key_compare k1 k2 <> Gt -> key_compare k2 k3 <> Gt ->
  key_compare k1 k3 <> Gt.
Proof.
  pose proof (key_compare_spec k1 k2) as H12.
  pose proof (key_compare_spec k2 k3) as H23.
  pose proof (key_compare_spec k1 k3) as H13.
  destruct k1 as [[a1 b1] c1], k2 as [[a2 b2] c2], k3 as [[a3 b3] c3].
  destruct (key_compare (a1, b1, c1) (a2, b2, c2));
    destruct (key_compare (a2, b2, c2) (a3, b3, c3));
    destruct (key_compare (a1, b1, c1) (a3, b3, c3));
    intros N1 N2; try congruence; exfalso; lia.
Qed.

Lemma dbl_le_trans (a b c : double) :
  dbl_le a b = true -> dbl_le b c = true -> dbl_le a c = true.
Proof.
  rewrite !dbl_le_key. intros (Ha & Hb & H1) (_ & Hc & H2).
  repeat split; try assumption. eapply key_le_trans; eassumption.
Qed.

Lemma dbl_le_refl (a : double) : is_nan a = false -> dbl_le a a = true.
Proof.
  intros H. apply dbl_le_key. repeat split; try assumption.
  pose proof (key_compare_spec (dbl_key a) (dbl_key a)) as Hs.
  destruct (dbl_key a) as [[x y] z].
  destruct (key_compare (x, y, z) (x, y, z)); try discriminate.
  exfalso; lia.
Qed.

(** Without NaN, [a > b] is false exactly when [a <= b]. *)
Lemma dbl_not_gt (a b : double) :
  is_nan a = false -> is_nan b = false ->
  dbl_gt a b = false -> dbl_le a b = true.
Proof.
  intros Ha Hb H. apply dbl_le_key. repeat split; try assumption.
  intros Hgt. enough (dbl_gt a b = true) by congruence.
  apply dbl_lt_key. repeat split; try assumption.
  rewrite key_compare_antisym, Hgt. reflexivity.
Qed.

Lemma dbl_gt_le (a b : double) : dbl_gt a b = true -> dbl_le b a = true.
Proof.
  unfold dbl_gt. intros H. apply dbl_lt_key in H. destruct H as (Hb & Ha & H).
  apply dbl_le_key. repeat split; try assumption. congruence.
Qed.

(** [a < b] and [a >= b] exclude each other; so do [a <= b] and [a > b]. *)
Lemma dbl_lt_not_ge (a b : double) : dbl_lt a b = true -> dbl_ge a b = false.
Proof.
  intros H. apply dbl_lt_key in H. destruct H as (Ha & Hb & H).
  destruct (dbl_ge a b) eqn:Hge; [|reflexivity].
  unfold dbl_ge in Hge. apply dbl_le_key in Hge. destruct Hge as (_ & _ & N).
  rewrite key_compare_antisym, H in N. now elim N.
Qed.

Lemma dbl_le_not_gt (a b : double) : dbl_le a b = true -> dbl_gt a b = false.
Proof.
  intros H. apply dbl_le_key in H. destruct H as (Ha & Hb & N).
  destruct (dbl_gt a b) eqn:Hgt; [|reflexivity].
  unfold dbl_gt in Hgt. apply dbl_lt_key in Hgt. destruct Hgt as (_ & _ & H).
  rewrite key_compare_antisym in H.
  destruct (key_compare (dbl_key a) (dbl_key b)); simpl in H;
    try discriminate. now elim N.
Qed.

Lemma dbl_eq_0_not_gt (b : double) :
  dbl_eq b dbl_0 = true -> dbl_gt b dbl_0 = false.
Proof.
  destruct b as [s | s | | s m e]; try destruct s; simpl;
    solve [discriminate | reflexivity].
Qed.

(** ** The option loop *)
Section ParserFacts.
Context {L : Libc}.

Lemma parse_args_app_len (n : nat) :
  forall pre, (List.length pre <= n)%nat ->
  forall o0 o l,
    parse_args pre o0 = Ok o -> parse_args (pre ++ l) o0 = parse_args l o.
Proof.
  induction n as [| n IH]; intros pre Hlen o0 o l H.
  - destruct pre; [|simpl in Hlen; lia]. simpl in *. congruence.
  - destruct pre as [| arg rest]; [simpl in *; congruence|].
    simpl in *. destruct (parse_arg arg o0) as [r | k].
    + destruct r; try discriminate. apply IH; [lia | assumption].
    + destruct rest as [| v rest']; [discriminate|]. simpl in *.
      destruct (k v); try discriminate. apply IH; [lia | assumption].
Qed.

(** Options that were read without error do not change the reading of
    the options that follow them. *)
Lemma parse_args_app pre l o0 o :
  parse_args pre o0 = Ok o -> parse_args (pre ++ l) o0 = parse_args l o.
Proof. apply (parse_args_app_len (List.length pre)). lia. Qed.

Lemma parse_bevel_size (s : string) (rest : list string) (o : locals) :
  parse_args ("-bevel-size" :: s :: rest) o =
  let '(x, endptr) := strtod s in
  if trailing endptr then Usage
  else if dbl_lt x dbl_0 || dbl_ge x dbl_1 then
    Fatal "-bevel-size must be in the range 0 <= bevel < 1"
  else parse_args rest (set_bevel_size x o).
Proof.
  simpl. destruct (strtod s) as [x endptr].
  destruct (trailing endptr); [reflexivity|].
  destruct (dbl_lt x dbl_0 || dbl_ge x dbl_1); reflexivity.
Qed.

End ParserFacts.

(** ** [main] and its parts *)
Section DriverFacts.
Context {L : Libc} {C : Core} {G : Gdal}.

Lemma main_unfold (argv argv1 argv2 : list string) geo ndv :
  List.length argv <> 1%nat ->
  init_geo_options argv = (geo, argv1) ->
  init_ndv_options argv1 = (ndv, argv2) ->
  main argv =
  (o <- lift (parse_args (tl argv2) initial_locals) ;; run o geo ndv).
Proof.
  intros Hlen Hg Hn. unfold main.
  destruct (Nat.eqb_spec (List.length argv) 1); [contradiction|].
  rewrite Hg, Hn. reflexivity.
Qed.

(** C5: a [-bevel-size] value [v] below 0 or not below 1 ends the process
    with the message of the range check before anything was opened, read
    or written (the trace of [main] is empty); with [0 <= v < 1] the
    check passes and the option loop goes on with [bevel_size = v]. *)
Theorem bevel_size_range_check
    (argv argv1 pre rest : list string) (argv0 s : string)
    geo ndv (v : double) (o : locals) :
  List.length argv <> 1%nat ->
  init_geo_options argv = (geo, argv1) ->
  init_ndv_options argv1 = (ndv, argv0 :: pre ++ "-bevel-size" :: s :: rest) ->
  parse_args pre initial_locals = Ok o ->
  strtod s = (v, EmptyString) ->
  (dbl_lt v dbl_0 = true \/ dbl_ge v dbl_1 = true ->
   main argv = ([], Fatal "-bevel-size must be in the range 0 <= bevel < 1"))
  /\
  (dbl_le dbl_0 v = true /\ dbl_lt v dbl_1 = true ->
   main argv =
   (o' <- lift (parse_args rest (set_bevel_size v o)) ;; run o' geo ndv)).
Proof.
  intros Hlen Hg Hn Hpre Hs.
  rewrite (main_unfold argv argv1 _ geo ndv Hlen Hg Hn). simpl tl.
  rewrite (parse_args_app pre _ _ _ Hpre), parse_bevel_size, Hs. simpl trailing.
  cbv iota. split.
  - intros Hbad.
    assert (dbl_lt v dbl_0 || dbl_ge v dbl_1 = true) as ->
      by (apply orb_true_iff; exact Hbad).
    reflexivity.
  - intros [H0 H1].
    assert (dbl_lt v dbl_0 || dbl_ge v dbl_1 = false) as ->.
    { apply orb_false_iff. split.
      - apply (dbl_le_not_gt dbl_0 v H0).
      - apply (dbl_lt_not_ge v dbl_1 H1). }
    reflexivity.
Qed.


End DriverFacts.

(** One step in the proof that every event of a trace has a property. *)
Ltac trace_step :=
  match goal with
  | |- Forall _ (trace_of (ret _)) => apply Forall_nil
  | |- Forall _ (trace_of (fatal_error _)) => apply Forall_nil
  | |- Forall _ (trace_of usage) => apply Forall_nil
  | |- Forall _ (trace_of (lift _)) => apply Forall_nil
  | |- Forall _ (trace_of (tell _)) =>
      apply Forall_cons; [try reflexivity | apply Forall_nil]
  | |- Forall _ (trace_of (bind _ _)) => apply Forall_bind; [| intros ? ?]
  | |- Forall _ (trace_of (when _ _)) => apply Forall_when; intros ?
  | |- Forall _ (trace_of (for_each _ _)) =>
      apply Forall_for_each; intros ? ?
  | |- Forall _ (trace_of (if ?b then _ else _)) => destruct b eqn:?
  | |- Forall _ (trace_of (match ?x with _ => _ end)) => destruct x eqn:?
  end.

(** One step in the proof that the ranked events of a trace all have the
    rank [n]. *)
Ltac rank_step :=
  match goal with
  | |- ranked_within _ _ _ (ret _) => apply ranked_silent; reflexivity
  | |- ranked_within _ _ _ (fatal_error _) => apply ranked_silent; reflexivity
  | |- ranked_within _ _ _ (tell _) =>
      unfold ranked_within; simpl;
      first [apply sorted_between_nil | apply sorted_between_one; lia]
  | |- ranked_within _ ?n ?n (bind _ _) =>
      apply (ranked_bind _ n n n); [lia | | intros ? ?]
  | |- ranked_within _ _ _ (when _ _) => apply ranked_when; intros ?
  | |- ranked_within _ ?n ?n (for_each _ _) =>
      apply ranked_for_each; intros ? ?
  | |- ranked_within _ _ _ (if ?b then _ else _) => destruct b eqn:?
  | |- ranked_within _ _ _ (match ?x with _ => _ end) => destruct x eqn:?
  end.

(** ** The passes of the pipeline *)
Section PipelineFacts.
Context {L : Libc} {C : Core} {G : Gdal}.

Lemma bevel_pass_invoked (mp : Mpoly Point) (b : double) :
  Forall (fun e => match e with
                   | EvBevel mp' _ => rings mp' <> []
                   | _ => True
                   end) (trace_of (bevel_pass mp b)).
Proof.
  unfold bevel_pass. destruct (has_rings mp) eqn:Hr; simpl; [|constructor].
  destruct (dbl_gt b dbl_0); simpl; constructor; [|constructor].
  unfold has_rings, rings_size in Hr. intros E. rewrite E in Hr. discriminate.
Qed.

Lemma bevel_pass_off (mp : Mpoly Point) (b : double) :
  dbl_eq b dbl_0 = true -> bevel_pass mp b = ([], Ok mp).
Proof.
  intros Hb. unfold bevel_pass.
  rewrite (dbl_eq_0_not_gt b Hb), andb_false_r. reflexivity.
Qed.

(** C3: with a bevel size of zero the bevel pass hands its Mpoly on as it
    is and the beveler is not called; nor is it called on an Mpoly
    without rings.  [calc_ring_from_mask] with a zero bevel size is the
    tracer and the major-ring selection alone, and whenever it calls the
    beveler the Mpoly it passes has a ring. *)
Theorem bevel_zero_is_noop (mp : Mpoly Point) (b : double)
    (mask : BitGrid) (w h : Z) (major nd : bool) (mra : Z) :
  (dbl_eq b dbl_0 = true -> bevel_pass mp b = ([], Ok mp))
  /\ (rings mp = [] -> bevel_pass mp b = ([], Ok mp))
  /\ (dbl_eq b dbl_0 = true ->
      calc_ring_from_mask mask w h major nd mra b =
      (let nd' := if major then true else nd in
       tell (EvTraceMask mask w h mra nd') ;;
       take_major_ring major (trace_mask mask w h mra nd')))
  /\ Forall (fun e => match e with
                      | EvBevel mp' _ => rings mp' <> []
                      | _ => True
                      end)
            (trace_of (calc_ring_from_mask mask w h major nd mra b)).
Proof.
  assert (Hzero : dbl_eq b dbl_0 = true ->
                  forall mp', bevel_pass mp' b = ([], Ok mp'))
    by (intros Hb mp'; now apply bevel_pass_off).
  split; [|split; [|split]].
  - intros Hb. now apply Hzero.
  - intros Hmp. unfold bevel_pass, has_rings, rings_size. now rewrite Hmp.
  - intros Hb. unfold calc_ring_from_mask. cbv zeta.
    apply bind_ext. intros _.
    rewrite (bind_ext _ _ (fun mp0 => ret mp0)) by (intros; now apply Hzero).
    apply bind_ret_r.
  - unfold calc_ring_from_mask. cbv zeta.
    apply Forall_bind; [repeat constructor|]. intros _ _.
    apply Forall_bind.
    + unfold take_major_ring.
      destruct (major && (1 <? rings_size _)%nat); [|constructor].
      destruct (parent_id _ >=? 0); constructor.
    + intros mp' _. apply bevel_pass_invoked.
Qed.

(** C4: with a reduction tolerance of zero the reduction pass hands its
    Mpoly on as it is, without a call to the reducer: the Mpoly that
    goes to the output is the one that the pinch pass left. *)
Theorem zero_tolerance_is_noop (o : locals) (georef : georef_t)
    (dbuf : option report_image_t) (class_id : Z)
    (color : option ColorEntry) (mask : BitGrid) (mp : Mpoly Point) :
  dbl_eq (reduction_tolerance o) dbl_0 = true ->
  reduce_pass o mp = ([], Ok mp)
  /\ process_mask o georef dbuf class_id color mask =
     (feature_poly <- calc_ring_from_mask (prepare_mask o mask)
                        (georef_w georef) (georef_h georef)
                        (major_ring_only o) (no_donuts o)
                        (min_ring_area o) (bevel_size o) ;;
      feature_poly <- pinch_pass o dbuf feature_poly ;;
      mask_out_pass o georef feature_poly ;;
      output_pass o georef dbuf class_id color feature_poly).
Proof.
  intros Ht.
  assert (Hred : forall mp', reduce_pass o mp' = ([], Ok mp')).
  { intros mp'. unfold reduce_pass.
    rewrite (dbl_eq_0_not_gt _ Ht), andb_false_r. reflexivity. }
  split; [apply Hred|].
  unfold process_mask. cbv zeta.
  apply bind_ext. intros fp0. apply bind_ext. intros fp1.
  apply bind_ext. intros _.
  now rewrite (bind_silent _ _ fp1 (Hred fp1)).
Qed.

Lemma calc_ring_from_mask_suppresses (mask : BitGrid) (w h : Z)
    (nd : bool) (mra : Z) (b : double) :
  Forall (fun e => suppresses_holes e = true)
         (trace_of (calc_ring_from_mask mask w h true nd mra b)).
Proof.
  unfold calc_ring_from_mask, take_major_ring, bevel_pass. cbv zeta.
  repeat trace_step.
Qed.

Lemma output_pass_suppresses (o : locals) georef dbuf class_id color fp :
  Forall (fun e => suppresses_holes e = true)
         (trace_of (output_pass o georef dbuf class_id color fp)).
Proof.
  unfold output_pass. repeat trace_step.
  all: match goal with
       | |- Forall _ (trace_of (write_shape _ _ _ _ _ ?igo)) =>
           destruct igo; unfold write_shape, project_poly
       end.
  all: repeat trace_step.
Qed.

Lemma process_mask_suppresses (o : locals) georef dbuf class_id color mask :
  major_ring_only o = true ->
  Forall (fun e => suppresses_holes e = true)
         (trace_of (process_mask o georef dbuf class_id color mask)).
Proof.
  intros Hm. unfold process_mask. cbv zeta. rewrite Hm.
  apply Forall_bind; [apply calc_ring_from_mask_suppresses | intros fp0 _].
  apply Forall_bind;
    [unfold pinch_pass; repeat trace_step | intros fp1 _].
  apply Forall_bind;
    [unfold mask_out_pass; repeat trace_step | intros _ _].
  apply Forall_bind;
    [unfold reduce_pass; repeat trace_step | intros fp2 _].
  apply output_pass_suppresses.
Qed.

(** A property of the events of every pass over a mask holds of the
    events of the loop over the classes. *)
Lemma Forall_class_loop (Q : event -> Prop) (o : locals) georef dbuf
    raster color_table :
  (forall class_id color mask,
     Forall Q (trace_of (process_mask o georef dbuf class_id color mask))) ->
  forall ids mask,
    Forall Q (trace_of (class_loop o georef dbuf raster color_table ids mask)).
Proof.
  intros HQ. induction ids as [| class_id ids IH]; intros mask; simpl.
  - constructor.
  - destruct (classify o).
    + destruct raster as [[raster8 usage_array] |]; [|apply IH].
      destruct (usage_array class_id); [|apply IH].
      apply Forall_bind; [apply HQ | intros _ _; apply IH].
    + destruct (negb (class_id =? 0)); [apply IH|].
      apply Forall_bind; [apply HQ | intros _ _; apply IH].
Qed.

(** C9: in major-ring mode [calc_ring_from_mask] calls the tracer with
    [no_donuts] set, whatever the caller passed, and every call to the
    tracer in a run with [-major-ring] asks for no holes. *)
Theorem major_ring_forces_no_donuts :
  (forall (mask : BitGrid) (w h : Z) (nd : bool) (mra : Z) (b : double),
     calc_ring_from_mask mask w h true nd mra b =
     (tell (EvTraceMask mask w h mra true) ;;
      mp <- take_major_ring true (trace_mask mask w h mra true) ;;
      bevel_pass mp b))
  /\
  (forall (o : locals) geo ndv,
     major_ring_only o = true ->
     Forall (fun e => suppresses_holes e = true) (trace_of (run o geo ndv))).
Proof.
  split; [reflexivity|].
  intros o geo ndv Hm. unfold run. cbv zeta.
  apply Forall_bind; [unfold check_options; repeat trace_step | intros fn _].
  apply Forall_bind; [repeat trace_step | intros _ _].
  apply Forall_bind; [repeat trace_step | intros ds _].
  apply Forall_bind;
    [unfold check_out_cs; repeat trace_step | intros _ _].
  unfold read_and_trace. cbv zeta.
  apply Forall_bind; [repeat trace_step | intros [[raster ct] mask] _].
  apply Forall_bind;
    [unfold open_output; repeat trace_step | intros _ _].
  apply Forall_bind.
  { apply Forall_class_loop. intros. now apply process_mask_suppresses. }
  intros _ _.
  apply Forall_bind; [| intros _ _; repeat trace_step].
  apply Forall_for_each. intros go _. unfold close_output.
  repeat trace_step.
Qed.

(** ** The checks before the raster is read *)

Lemma check_options_silent (o : locals) ndv :
  trace_of (check_options o ndv) = [].
Proof.
  unfold check_options.
  destruct (input_raster_fn o); [|reflexivity].
  destruct (major_ring_only o), (min_ring_area o =? 0), (no_donuts o),
    (classify o), (nranges ndv =? 0), (do_invert o), (mask_out_fn o);
    reflexivity.
Qed.

Lemma check_options_major_conflict (o : locals) ndv :
  major_ring_only o = true ->
  min_ring_area o <> 0 \/ no_donuts o = true ->
  check_options o ndv =
  ([], Fatal
         match input_raster_fn o with
         | None => "must specify filename of image"
         | Some _ =>
             if min_ring_area o =? 0 then
               "-major-ring and -no-donuts options cannot both be used at the same time"
             else
               "-major-ring and -min-ring-area options cannot both be used at the same time"
         end).
Proof.
  intros Hm Hc. unfold check_options. rewrite Hm.
  destruct (input_raster_fn o); [|reflexivity].
  destruct (Z.eqb_spec (min_ring_area o) 0) as [E | N]; [|reflexivity].
  destruct Hc as [Hc | Hc]; [contradiction|]. rewrite Hc. reflexivity.
Qed.

(** C10 (as amended): [-major-ring] together with a [-min-ring-area]
    that is not zero, and [-major-ring] together with [-no-donuts], end
    the process with a fatal error before the raster is opened and before
    anything is written: the trace is empty.  When a raster was named the
    message is the one of the conflict. *)
Theorem major_ring_conflicts_rejected (o : locals) geo ndv :
  major_ring_only o = true ->
  min_ring_area o <> 0 \/ no_donuts o = true ->
  trace_of (run o geo ndv) = []
  /\ (exists msg, result_of (run o geo ndv) = Fatal msg)
  /\ (forall fn, input_raster_fn o = Some fn ->
      result_of (run o geo ndv) =
      Fatal (if min_ring_area o =? 0 then
               "-major-ring and -no-donuts options cannot both be used at the same time"
             else
               "-major-ring and -min-ring-area options cannot both be used at the same time")).
Proof.
  intros Hm Hc. unfold run.
  rewrite (bind_fatal _ _ _ _ (check_options_major_conflict o ndv Hm Hc)).
  split; [reflexivity|]. split; [eexists; reflexivity|].
  intros fn Hfn. simpl. now rewrite Hfn.
Qed.

Lemma check_out_cs_cases (georef : georef_t) (go : geom_output_t) :
  (cs_unavailable georef go = false /\
   check_out_cs georef go = ([], Ok tt))
  \/ (cs_unavailable georef go = true /\
      (check_out_cs georef go = ([], Fatal "missing affine transform") \/
       check_out_cs georef go = ([], Fatal "missing coordinate transform"))).
Proof.
  unfold cs_unavailable, check_out_cs.
  destruct (out_cs go =? CS_EN), (out_cs go =? CS_LL),
    (fwd_affine georef), (fwd_xform georef); simpl; auto.
Qed.

Lemma check_out_cs_loop (georef : georef_t) (go : geom_output_t) l :
  In go l -> cs_unavailable georef go = true ->
  for_each l (check_out_cs georef) = ([], Fatal "missing affine transform") \/
  for_each l (check_out_cs georef) = ([], Fatal "missing coordinate transform").
Proof.
  induction l as [| go' l IH]; intros Hin Hbad; [contradiction|].
  simpl. destruct (check_out_cs_cases georef go') as [[Hok E] | [_ [E | E]]];
    rewrite E; simpl; auto.
  destruct Hin as [-> | Hin]; [congruence|].
  destruct (IH Hin Hbad) as [E' | E']; rewrite E'; auto.
Qed.

(** C7: when an output asks for a coordinate system that the raster
    cannot serve (lon/lat without the transform to geographic
    coordinates, or easting/northing or lon/lat without the affine
    transform), the run ends with a fatal error, and nothing but the
    opening of the raster came before: no mask was read, no stage of the
    core ran, nothing was written.  When the options pass their checks
    the error is the one of the missing transform. *)
Theorem unavailable_cs_rejected (o : locals) geo ndv
    (fn : string) (ds : Dataset) (go : geom_output_t) :
  input_raster_fn o = Some fn ->
  GDALOpen fn = Some ds ->
  In go (geom_outputs o) ->
  cs_unavailable (init_georef geo ds) go = true ->
  (exists msg, result_of (run o geo ndv) = Fatal msg)
  /\ Forall (fun e => reads_mask e = false /\ is_core_stage e = false
                      /\ is_output e = false)
            (trace_of (run o geo ndv))
  /\ (result_of (check_options o ndv) = Ok fn ->
      run o geo ndv = ([EvGDALOpen fn], Fatal "missing affine transform") \/
      run o geo ndv = ([EvGDALOpen fn], Fatal "missing coordinate transform")).
Proof.
  intros Hfn Hds Hin Hbad.
  assert (Hrun : result_of (check_options o ndv) = Ok fn ->
            run o geo ndv = ([EvGDALOpen fn], Fatal "missing affine transform")
            \/ run o geo ndv
               = ([EvGDALOpen fn], Fatal "missing coordinate transform")).
  { intros Hok.
    assert (Hc : check_options o ndv = ([], Ok fn)).
    { rewrite (surjective_run (check_options o ndv)).
      now rewrite check_options_silent, Hok. }
    assert (Hgen : forall msg,
              for_each (geom_outputs o) (check_out_cs (init_georef geo ds))
              = ([], Fatal msg) ->
              run o geo ndv = ([EvGDALOpen fn], Fatal msg)).
    { intros msg E. unfold run. rewrite (bind_silent _ _ fn Hc), Hds.
      cbv zeta. rewrite bind_tell, bind_ret_l.
      now rewrite (bind_fatal _ _ _ _ E). }
    destruct (check_out_cs_loop (init_georef geo ds) go _ Hin Hbad) as [E | E];
      rewrite (Hgen _ E); auto. }
  assert (Hcases : (exists fn', result_of (check_options o ndv) = Ok fn')
                   \/ exists msg, check_options o ndv = ([], Fatal msg)).
  { unfold check_options. rewrite Hfn.
    destruct (major_ring_only o), (min_ring_area o =? 0), (no_donuts o),
      (classify o), (nranges ndv =? 0), (do_invert o), (mask_out_fn o);
      simpl; eauto. }
  assert (Hokfn : forall fn', result_of (check_options o ndv) = Ok fn' ->
                              fn' = fn).
  { unfold check_options. rewrite Hfn. intros fn'.
    destruct (major_ring_only o), (min_ring_area o =? 0), (no_donuts o),
      (classify o), (nranges ndv =? 0), (do_invert o), (mask_out_fn o);
      simpl; congruence. }
  split; [|split; [|exact Hrun]].
  - destruct Hcases as [[fn' Hok] | [msg Hf]].
    + rewrite (Hokfn fn' Hok) in Hok.
      destruct (Hrun Hok) as [E | E]; rewrite E; eexists; reflexivity.
    + unfold run. rewrite (bind_fatal _ _ _ _ Hf). eexists; reflexivity.
  - destruct Hcases as [[fn' Hok] | [msg Hf]].
    + rewrite (Hokfn fn' Hok) in Hok.
      destruct (Hrun Hok) as [E | E]; rewrite E; simpl;
        repeat constructor.
    + unfold run. rewrite (bind_fatal _ _ _ _ Hf). constructor.
Qed.

(** ** The major ring *)

Lemma biggest_ring_spec (rs : list (Ring Point)) :
  forall (pre : list (Ring Point)) (ba : double) (bi : nat),
    (forall r, In r (pre ++ rs) -> dbl_le dbl_0 (area r) = true) ->
    is_nan ba = false ->
    (forall r, In r pre -> dbl_le (area r) ba = true) ->
    (bi = 0%nat /\ dbl_le ba dbl_0 = true) \/
    ((bi < List.length pre)%nat /\
     dbl_le ba (area (nth bi pre no_ring)) = true) ->
    let res := biggest_ring rs (List.length pre) ba bi in
    (forall r, In r (pre ++ rs) -> dbl_le (area r) (fst res) = true)
    /\ ((snd res = 0%nat /\ dbl_le (fst res) dbl_0 = true) \/
        ((snd res < List.length (pre ++ rs))%nat /\
         dbl_le (fst res) (area (nth (snd res) (pre ++ rs) no_ring)) = true)).
Proof.
  induction rs as [| r rs IH]; intros pre ba bi Hpos Hnan Hmax Hbest.
  - simpl. rewrite app_nil_r. split; assumption.
  - assert (Hr : dbl_le dbl_0 (area r) = true)
      by (apply Hpos, in_or_app; right; now left).
    destruct (proj1 (dbl_le_key _ _) Hr) as (_ & Hrnan & _).
    simpl biggest_ring.
    replace (S (List.length pre)) with (List.length (pre ++ [r]))
      by (rewrite length_app; simpl; lia).
    replace (pre ++ r :: rs) with ((pre ++ [r]) ++ rs) in *
      by (now rewrite <- app_assoc).
    destruct (dbl_gt (area r) ba) eqn:Hgt.
    + apply (IH (pre ++ [r]) (area r) (List.length pre)); try assumption.
      * intros r' Hin. apply in_app_or in Hin. destruct Hin as [Hin | [<- | []]].
        -- eapply dbl_le_trans; [now apply Hmax | now apply dbl_gt_le].
        -- now apply dbl_le_refl.
      * right. split; [rewrite length_app; simpl; lia|].
        rewrite app_nth2, Nat.sub_diag by lia.
        simpl. now apply dbl_le_refl.
    + apply IH; try assumption.
      * intros r' Hin. apply in_app_or in Hin. destruct Hin as [Hin | [<- | []]].
        -- now apply Hmax.
        -- now apply dbl_not_gt.
      * destruct Hbest as [Hb | [Hlt Hb]]; [now left | right].
        split; [rewrite length_app; simpl; lia|].
        now rewrite app_nth1 by assumption.
Qed.

(** On rings of non-negative area the loop finds a ring of largest area. *)
Lemma best_idx_is_largest (mp : Mpoly Point) :
  rings mp <> [] ->
  (forall r, In r (rings mp) -> dbl_le dbl_0 (area r) = true) ->
  let best := nth (best_idx_of mp) (rings mp) no_ring in
  In best (rings mp)
  /\ forall r, In r (rings mp) -> dbl_le (area r) (area best) = true.
Proof.
  intros Hne Hpos.
  pose proof (biggest_ring_spec (rings mp) [] dbl_0 0%nat) as H.
  simpl in H. specialize (H Hpos eq_refl).
  destruct H as [Hmax Hbest]; [intros r [] | now left |].
  fold (best_idx_of mp) in Hbest.
  assert (Hidx : (best_idx_of mp < List.length (rings mp))%nat).
  { destruct Hbest as [[E _] | [Hlt _]]; [|assumption].
    rewrite E. destruct (rings mp); [congruence | simpl; lia]. }
  assert (Hin : In (nth (best_idx_of mp) (rings mp) no_ring) (rings mp))
    by now apply nth_In.
  split; [assumption|].
  intros r Hr. eapply dbl_le_trans; [now apply Hmax|].
  destruct Hbest as [[_ Hb] | [_ Hb]]; [|assumption].
  eapply dbl_le_trans; [exact Hb | now apply Hpos].
Qed.

(** C6 (as amended): in major-ring mode, when the tracer found more than
    one ring, the ring at the index that the loop selects is taken: if it
    has a parent the process ends with a fatal error, otherwise the Mpoly
    that goes on to the bevel pass is that ring alone; when the areas are
    not negative, that ring has the largest area.  When the tracer found
    one ring or none, its Mpoly goes on as it is, without the check. *)
Theorem major_ring_selection (mask : BitGrid) (w h : Z) (nd : bool)
    (mra : Z) (b : double) :
  let mp := trace_mask mask w h mra true in
  let best := nth (best_idx_of mp) (rings mp) no_ring in
  ((rings_size mp <= 1)%nat ->
   calc_ring_from_mask mask w h true nd mra b =
   (tell (EvTraceMask mask w h mra true) ;; bevel_pass mp b))
  /\
  ((1 < rings_size mp)%nat ->
   (parent_id best >= 0 ->
    calc_ring_from_mask mask w h true nd mra b =
    ([EvTraceMask mask w h mra true],
     Fatal "largest ring should not have a parent"))
   /\ (parent_id best < 0 ->
       calc_ring_from_mask mask w h true nd mra b =
       (tell (EvTraceMask mask w h mra true) ;;
        bevel_pass {| rings := [best] |} b))
   /\ ((forall r, In r (rings mp) -> dbl_le dbl_0 (area r) = true) ->
       In best (rings mp)
       /\ forall r, In r (rings mp) -> dbl_le (area r) (area best) = true)).
Proof.
  intros mp best. unfold calc_ring_from_mask. cbv zeta. fold mp.
  unfold take_major_ring. fold best. split.
  - intros Hle. destruct (Nat.ltb_spec 1 (rings_size mp)) as [Hlt | _]; [lia|].
    simpl andb. cbv iota.
    apply (bind_ext (tell (EvTraceMask mask w h mra true))).
    intros _. exact (bind_ret_l mp (fun mp0 => bevel_pass mp0 b)).
  - intros Hlt. destruct (Nat.ltb_spec 1 (rings_size mp)) as [_ | Hle]; [|lia].
    simpl andb. cbv iota. split; [|split].
    + intros Hp. destruct (Z.geb_spec (parent_id best) 0) as [_ | Hn]; [|lia].
      reflexivity.
    + intros Hp. destruct (Z.geb_spec (parent_id best) 0) as [Hn | _]; [lia|].
      apply (bind_ext (tell (EvTraceMask mask w h mra true))).
      intros _.
      exact (bind_ret_l {| rings := [best] |} (fun mp0 => bevel_pass mp0 b)).
    + intros Hpos. apply best_idx_is_largest; [|assumption].
      unfold rings_size in Hlt. intros E. rewrite E in Hlt. simpl in Hlt. lia.
Qed.

(** ** The order of the stages *)

Lemma take_major_ring_silent (major : bool) (mp : Mpoly Point) :
  trace_of (take_major_ring major mp) = [].
Proof.
  unfold take_major_ring.
  destruct (major && (1 <? rings_size mp)%nat); [|reflexivity].
  destruct (parent_id _ >=? 0); reflexivity.
Qed.

Lemma write_shape_in_order (o : locals) georef class_id color poly igo :
  ranked_within emission_rank 0 1
    (write_shape o georef class_id color poly igo).
Proof.
  destruct igo as [go_idx go]. unfold write_shape.
  apply (ranked_bind _ 0 0 1); [lia | | intros proj _].
  - unfold project_poly. repeat rank_step.
  - apply (ranked_weaken _ 1 1); [|lia ..]. repeat rank_step.
Qed.

Lemma output_pass_ranked rk n (o : locals) georef dbuf class_id color fp :
  rk CoordinateMapper = None \/ rk CoordinateMapper = Some n ->
  rk Writer = None \/ rk Writer = Some n ->
  ranked_within rk n n (output_pass o georef dbuf class_id color fp).
Proof.
  intros Hm Hw. unfold output_pass.
  assert (Hshape : forall poly igo,
            ranked_within rk n n
              (write_shape o georef class_id color poly igo)).
  { intros poly [go_idx go]. unfold write_shape, project_poly.
    destruct Hm as [Hm | Hm], Hw as [Hw | Hw].
    all: repeat rank_step.
    all: unfold ranked_within; simpl; rewrite ?Hm, ?Hw;
      first [apply sorted_between_nil | apply sorted_between_one; lia]. }
  repeat first [apply Hshape | rank_step].
Qed.

(** *** The calls of a pass, stage by stage *)

Lemma take_major_ring_staged (o : locals) (mp mp' : Mpoly Point) :
  result_of (take_major_ring (major_ring_only o) mp) = Ok mp' ->
  take_major_ring (major_ring_only o) mp = ([], Ok (selected o mp)).
Proof.
  unfold take_major_ring, selected.
  destruct (major_ring_only o && (1 <? rings_size mp)%nat); [|reflexivity].
  destruct (parent_id _ >=? 0); [discriminate | reflexivity].
Qed.

Lemma bevel_pass_staged (o : locals) (mp : Mpoly Point) :
  bevel_pass mp (bevel_size o) =
  ((if bevels o mp then [EvBevel mp (bevel_size o)] else []),
   Ok (beveled o mp)).
Proof.
  unfold bevel_pass, beveled, bevels.
  destruct (has_rings mp && dbl_gt (bevel_size o) dbl_0); reflexivity.
Qed.

Lemma pinch_pass_staged (o : locals) dbuf (mp : Mpoly Point) :
  pinch_pass o dbuf mp =
  ((if pinches o mp then [EvPinch mp] else []), Ok (pinched o dbuf mp)).
Proof.
  unfold pinch_pass, pinched, pinches.
  destruct (has_rings mp && do_pinch_excursions o); reflexivity.
Qed.

Lemma mask_out_pass_staged (o : locals) georef (mp : Mpoly Point) :
  mask_out_pass o georef mp =
  (match mask_out_fn o with
   | Some fn => [EvMaskFromMpoly mp (georef_w georef) (georef_h georef) fn]
   | None => []
   end, Ok tt).
Proof. unfold mask_out_pass. destruct (mask_out_fn o); reflexivity. Qed.

Lemma reduce_pass_staged (o : locals) (mp : Mpoly Point) :
  reduce_pass o mp =
  ((if simplifies o mp then [EvReduce mp (reduction_tolerance o)] else []),
   Ok (simplified o mp)).
Proof.
  unfold reduce_pass, simplified, simplifies.
  destruct (has_rings mp && dbl_gt (reduction_tolerance o) dbl_0);
    reflexivity.
Qed.

Lemma write_shape_staged (o : locals) georef class_id color shape igo :
  (exists rest,
     emission o georef class_id color shape igo =
     trace_of (write_shape o georef class_id color shape igo) ++ rest)
  /\ (result_of (write_shape o georef class_id color shape igo) = Ok tt ->
      trace_of (write_shape o georef class_id color shape igo) =
      emission o georef class_id color shape igo).
Proof.
  destruct igo as [go_idx go].
  unfold write_shape, emission, project_poly, mapper_calls, mapped,
    writer_calls. simpl fst. simpl snd.
  destruct (out_cs go =? CS_XY); [|destruct (out_cs go =? CS_EN);
    [|destruct (out_cs go =? CS_LL)]].
  4: { split; [|discriminate]. simpl. eexists. reflexivity. }
  all: destruct (wkt_fn go), (wkb_fn go), (ogr_fn go); simpl;
    (split; [exists []; now rewrite ?app_nil_r | reflexivity]).
Qed.

Lemma output_pass_staged (o : locals) georef dbuf class_id color fp :
  (exists rest,
     emissions o georef dbuf class_id color fp =
     trace_of (output_pass o georef dbuf class_id color fp) ++ rest)
  /\ (result_of (output_pass o georef dbuf class_id color fp) = Ok tt ->
      trace_of (output_pass o georef dbuf class_id color fp) =
      emissions o georef dbuf class_id color fp).
Proof.
  unfold output_pass, emissions, shapes_of.
  destruct (has_rings fp); [|split; [now exists [] | reflexivity]].
  set (plot := match dbuf with
               | Some d => match mode d with
                           | PLOT_CONTOURS => true
                           | PLOT_PINCH => false
                           end
               | None => false
               end).
  assert (Hplot : when plot (tell (EvDebugPlotMpoly fp)) =
                  (match dbuf with
                   | Some d => match mode d with
                               | PLOT_CONTOURS => [EvDebugPlotMpoly fp]
                               | PLOT_PINCH => []
                               end
                   | None => []
                   end, Ok tt)).
  { unfold plot. destruct dbuf as [d |]; [destruct (mode d)|]; reflexivity. }
  rewrite (bind_ok _ _ _ _ Hplot). simpl trace_of. simpl result_of.
  rewrite andb_true_r.
  destruct (negb (List.length (geom_outputs o) =? 0)%nat);
    [|split; [exists []; simpl; now rewrite !app_nil_r | reflexivity]].
  assert (Hshapes :
            (if split_polys o
             then tell (EvSplit fp) ;; ret (split_mpoly_to_polys fp)
             else ret [fp]) =
            ((if split_polys o then [EvSplit fp] else []),
             Ok (if split_polys o then split_mpoly_to_polys fp else [fp])))
    by (destruct (split_polys o); reflexivity).
  rewrite (bind_ok _ _ _ _ Hshapes). simpl trace_of. simpl result_of.
  destruct (for_each_staged
              (if split_polys o then split_mpoly_to_polys fp else [fp])
              (fun poly_in =>
                 for_each (indexed (geom_outputs o))
                          (write_shape o georef class_id color poly_in))
              (fun shape =>
                 flat_map (emission o georef class_id color shape)
                          (indexed (geom_outputs o))))
    as [[rest Hrest] Hok].
  { intros shape _. apply for_each_staged. intros igo _.
    apply write_shape_staged. }
  split.
  - exists rest. rewrite Hrest. now rewrite <- !app_assoc.
  - intros H. now rewrite (Hok H).
Qed.

Lemma process_mask_staged (o : locals) georef dbuf class_id color mask :
  (exists rest,
     staged_calls o georef dbuf class_id color mask =
     trace_of (process_mask o georef dbuf class_id color mask) ++ rest)
  /\ (result_of (process_mask o georef dbuf class_id color mask) = Ok tt ->
      trace_of (process_mask o georef dbuf class_id color mask) =
      staged_calls o georef dbuf class_id color mask).
Proof.
  unfold process_mask, calc_ring_from_mask, staged_calls. cbv zeta.
  set (m := prepare_mask o mask).
  set (nd := if major_ring_only o then true else no_donuts o).
  set (mp := trace_mask m (georef_w georef) (georef_h georef)
                        (min_ring_area o) nd).
  destruct (result_of (take_major_ring (major_ring_only o) mp))
    as [mp' | | msg] eqn:Hsel.
  - pose proof (take_major_ring_staged o mp mp' Hsel) as Htake.
    assert (Hcalc :
              (tell (EvTraceMask m (georef_w georef) (georef_h georef)
                                 (min_ring_area o) nd) ;;
               mp0 <- take_major_ring (major_ring_only o) mp ;;
               bevel_pass mp0 (bevel_size o)) =
              ([EvTraceMask m (georef_w georef) (georef_h georef)
                            (min_ring_area o) nd]
               ++ (if bevels o (selected o mp)
                   then [EvBevel (selected o mp) (bevel_size o)] else []),
               Ok (beveled o (selected o mp)))).
    { rewrite bind_tell, (bind_ok _ _ _ _ Htake), bevel_pass_staged.
      reflexivity. }
    rewrite (bind_ok _ _ _ _ Hcalc).
    rewrite (bind_ok _ _ _ _ (pinch_pass_staged o dbuf _)).
    rewrite (bind_ok _ _ _ _ (mask_out_pass_staged o georef _)).
    rewrite (bind_ok _ _ _ _ (reduce_pass_staged o _)).
    simpl trace_of. simpl result_of.
    destruct (output_pass_staged o georef dbuf class_id color
                (simplified o (pinched o dbuf (beveled o (selected o mp)))))
      as [[rest Hrest] Hok].
    split.
    + exists rest. rewrite Hrest. simpl. now rewrite <- !app_assoc.
    + intros H. now rewrite (Hok H).
  - assert (Hfail : take_major_ring (major_ring_only o) mp = ([], Usage))
      by (rewrite (surjective_run (take_major_ring _ _));
          now rewrite take_major_ring_silent, Hsel).
    rewrite bind_tell, Hfail. simpl.
    split; [eexists; reflexivity | discriminate].
  - assert (Hfail : take_major_ring (major_ring_only o) mp = ([], Fatal msg))
      by (rewrite (surjective_run (take_major_ring _ _));
          now rewrite take_major_ring_silent, Hsel).
    rewrite bind_tell, Hfail. simpl.
    split; [eexists; reflexivity | discriminate].
Qed.

(** C1 (as amended): on every mask the driver runs the stages in the
    order tracer, beveler, pincher, (rasterizer for the mask output,)
    simplifier, and then the mapper and the writers; for each shape and
    output the mapper comes before the writers.  The calls of a pass are
    an initial part of [staged_calls], and all of them when the pass ends
    normally: the tracer on the prepared mask; the beveler, if the bevel
    size is above zero and there are rings, on what was selected of the
    tracer's Mpoly; the pincher, if enabled and there are rings, on the
    beveled Mpoly; the rasterizer, if a mask output was asked for, and
    the simplifier, if the tolerance is above zero and there are rings,
    both on the pinched Mpoly; then, for each shape of the simplified
    Mpoly and each output, the mapper, if the output is not in pixel
    coordinates, on the shape, and the writers of the output on what the
    mapper made of it. *)
Theorem stages_in_driver_order (o : locals) (georef : georef_t)
    (dbuf : option report_image_t) (class_id : Z)
    (color : option ColorEntry) (mask : BitGrid) :
  in_rank_order driver_rank
    (trace_of (process_mask o georef dbuf class_id color mask)) = true
  /\ (forall poly igo,
        in_rank_order emission_rank
          (trace_of (write_shape o georef class_id color poly igo)) = true)
  /\ (exists rest,
        staged_calls o georef dbuf class_id color mask =
        trace_of (process_mask o georef dbuf class_id color mask) ++ rest)
  /\ (result_of (process_mask o georef dbuf class_id color mask) = Ok tt ->
      trace_of (process_mask o georef dbuf class_id color mask) =
      staged_calls o georef dbuf class_id color mask).
Proof.
  split; [|split; [|apply process_mask_staged]].
  - apply (ranked_in_order _ 0 5). unfold process_mask. cbv zeta.
    apply (ranked_bind _ 0 1 5); [lia | | intros fp0 _].
    { unfold calc_ring_from_mask. cbv zeta.
      apply (ranked_bind _ 0 0 1); [lia | rank_step | intros _ _].
      apply (ranked_bind _ 0 0 1); [lia | | intros mp _].
      - apply ranked_silent, take_major_ring_silent.
      - apply (ranked_weaken _ 1 1); [|lia ..].
        unfold bevel_pass. repeat rank_step. }
    apply (ranked_bind _ 1 2 5); [lia | | intros fp1 _].
    { apply (ranked_weaken _ 2 2); [|lia ..].
      unfold pinch_pass. repeat rank_step. }
    apply (ranked_bind _ 2 3 5); [lia | | intros _ _].
    { apply (ranked_weaken _ 3 3); [|lia ..].
      unfold mask_out_pass. repeat rank_step. }
    apply (ranked_bind _ 3 4 5); [lia | | intros fp2 _].
    { apply (ranked_weaken _ 4 4); [|lia ..].
      unfold reduce_pass. repeat rank_step. }
    apply (ranked_weaken _ 5 5); [|lia ..].
    apply output_pass_ranked; now right.
  - intros poly igo. apply (ranked_in_order _ 0 1), write_shape_in_order.
Qed.

(** ** The mask output *)

Lemma check_options_classify (o : locals) ndv fn :
  result_of (check_options o ndv) = Ok fn ->
  classify o = true -> mask_out_fn o = None.
Proof.
  unfold check_options. intros H Hc. rewrite Hc in H.
  destruct (input_raster_fn o); [|discriminate].
  destruct (major_ring_only o), (min_ring_area o =? 0), (no_donuts o),
    (nranges ndv =? 0), (do_invert o), (mask_out_fn o);
    simpl in H; congruence.
Qed.

Lemma class_loop_skip (o : locals) georef dbuf raster color_table :
  classify o = false ->
  forall ids mask, Forall (fun id => id <> 0) ids ->
    class_loop o georef dbuf raster color_table ids mask = ret tt.
Proof.
  intros Hc. induction ids as [| id ids IH]; intros mask Hids; simpl.
  - reflexivity.
  - rewrite Hc. inversion Hids as [| ? ? Hid Hids']; subst.
    destruct (Z.eqb_spec id 0) as [E | _]; [contradiction|].
    simpl. now apply IH.
Qed.

Lemma class_loop_first (o : locals) georef dbuf raster color_table :
  classify o = false ->
  forall ids mask,
    class_loop o georef dbuf raster color_table (0 :: ids) mask =
    (process_mask o georef dbuf 0 None mask ;;
     class_loop o georef dbuf raster color_table ids (BitGrid_new 0 0)).
Proof. intros Hc ids mask. simpl. now rewrite Hc. Qed.

Lemma class_ids_split :
  map Z.of_nat (seq 0 256) = 0 :: map Z.of_nat (seq 1 255)
  /\ Forall (fun id => id <> 0) (map Z.of_nat (seq 1 255)).
Proof.
  split.
  - change (seq 0 256) with (0%nat :: seq 1 255). reflexivity.
  - apply Forall_forall. intros id Hin. apply in_map_iff in Hin.
    destruct Hin as (n & <- & Hn). apply in_seq in Hn. lia.
Qed.

Lemma ranked_class_loop rk n (o : locals) georef dbuf raster color_table :
  (forall class_id color mask,
     ranked_within rk n n
       (process_mask o georef dbuf class_id color mask)) ->
  forall ids mask,
    ranked_within rk n n
      (class_loop o georef dbuf raster color_table ids mask).
Proof.
  intros HQ. induction ids as [| class_id ids IH]; intros mask; simpl.
  - now apply ranked_silent.
  - destruct (classify o).
    + destruct raster as [[raster8 usage_array] |]; [|apply IH].
      destruct (usage_array class_id); [|apply IH].
      apply (ranked_bind _ n n n); [lia | apply HQ | intros _ _; apply IH].
    + destruct (negb (class_id =? 0)); [apply IH|].
      apply (ranked_bind _ n n n); [lia | apply HQ | intros _ _; apply IH].
Qed.

Lemma calc_ring_from_mask_no_raster (mask : BitGrid) (w h : Z)
    (major nd : bool) (mra : Z) (b : double) :
  Forall (fun e => stage_of e <> Some Rasterizer
                   /\ stage_of e <> Some CoordinateMapper)
         (trace_of (calc_ring_from_mask mask w h major nd mra b)).
Proof.
  unfold calc_ring_from_mask, take_major_ring, bevel_pass. cbv zeta.
  repeat trace_step; simpl; split; discriminate.
Qed.

Lemma pinch_pass_no_raster (o : locals) dbuf fp :
  Forall (fun e => stage_of e <> Some Rasterizer
                   /\ stage_of e <> Some CoordinateMapper)
         (trace_of (pinch_pass o dbuf fp)).
Proof.
  unfold pinch_pass. repeat trace_step; simpl; split; discriminate.
Qed.

Lemma pinch_pass_ok (o : locals) dbuf fp :
  exists fp', result_of (pinch_pass o dbuf fp) = Ok fp'.
Proof.
  unfold pinch_pass.
  destruct (has_rings fp && do_pinch_excursions o); eexists; reflexivity.
Qed.

Lemma reduce_pass_no_raster (o : locals) fp :
  Forall (fun e => stage_of e <> Some Rasterizer
                   /\ stage_of e <> Some CoordinateMapper)
         (trace_of (reduce_pass o fp)).
Proof.
  unfold reduce_pass. repeat trace_step; simpl; split; discriminate.
Qed.

Lemma output_pass_no_raster (o : locals) georef dbuf class_id color fp :
  Forall (fun e => stage_of e <> Some Rasterizer)
         (trace_of (output_pass o georef dbuf class_id color fp)).
Proof.
  unfold output_pass. repeat trace_step; try (simpl; discriminate).
  all: match goal with
       | |- Forall _ (trace_of (write_shape _ _ _ _ _ ?igo)) =>
           destruct igo; unfold write_shape, project_poly
       end.
  all: repeat trace_step; simpl; discriminate.
Qed.

Lemma unranked_raster (e : event) :
  stage_of e <> Some Rasterizer /\ stage_of e <> Some CoordinateMapper ->
  unranked raster_rank e.
Proof.
  unfold unranked. intros [H1 H2].
  destruct (stage_of e) as [[]|]; simpl; try reflexivity; exfalso;
    solve [now apply H1 | now apply H2].
Qed.

Lemma process_mask_raster_rank (o : locals) georef dbuf class_id color mask :
  ranked_within raster_rank 0 1
    (process_mask o georef dbuf class_id color mask)
  /\ (mask_out_fn o = None ->
      ranked_within raster_rank 1 1
        (process_mask o georef dbuf class_id color mask)).
Proof.
  assert (Hgen : forall lo, (lo <= 1)%nat ->
            (lo = 0%nat \/ mask_out_fn o = None) ->
            ranked_within raster_rank lo 1
              (process_mask o georef dbuf class_id color mask)).
  { intros lo Hlo Hcase. unfold process_mask. cbv zeta.
    apply (ranked_bind _ lo lo 1); [lia | | intros fp0 _].
    { apply ranked_unranked.
      eapply Forall_impl; [|apply calc_ring_from_mask_no_raster].
      apply unranked_raster. }
    apply (ranked_bind _ lo lo 1); [lia | | intros fp1 _].
    { apply ranked_unranked.
      eapply Forall_impl; [|apply pinch_pass_no_raster].
      apply unranked_raster. }
    apply (ranked_bind _ lo lo 1); [lia | | intros _ _].
    { unfold mask_out_pass. destruct Hcase as [-> | ->].
      - repeat rank_step.
      - now apply ranked_silent. }
    apply (ranked_bind _ lo lo 1); [lia | | intros fp2 _].
    { apply ranked_unranked.
      eapply Forall_impl; [|apply reduce_pass_no_raster].
      apply unranked_raster. }
    apply (ranked_weaken _ 1 1); [|lia ..].
    apply output_pass_ranked; [now right | now left]. }
  split; [apply Hgen; auto | intros Hn; apply Hgen; auto].
Qed.

(** The Mpoly that the rasterizer is given is the one that the tracing
    and the pinch pass left. *)
Lemma mask_out_source (o : locals) georef dbuf class_id color mask
    (mp : Mpoly Point) (w h : Z) (fn : string) :
  In (EvMaskFromMpoly mp w h fn)
     (trace_of (process_mask o georef dbuf class_id color mask)) ->
  result_of
    (fp <- calc_ring_from_mask (prepare_mask o mask)
             (georef_w georef) (georef_h georef)
             (major_ring_only o) (no_donuts o)
             (min_ring_area o) (bevel_size o) ;;
     pinch_pass o dbuf fp) = Ok mp
  /\ w = georef_w georef /\ h = georef_h georef
  /\ mask_out_fn o = Some fn.
Proof.
  unfold process_mask. cbv zeta.
  set (m1 := calc_ring_from_mask _ _ _ _ _ _ _).
  rewrite trace_bind, result_bind. intros Hin.
  apply in_app_or in Hin. destruct Hin as [Hin | Hin].
  { pose proof (calc_ring_from_mask_no_raster (prepare_mask o mask)
                  (georef_w georef) (georef_h georef) (major_ring_only o)
                  (no_donuts o) (min_ring_area o) (bevel_size o)) as Hno.
    rewrite Forall_forall in Hno. apply Hno in Hin. simpl in Hin.
    now destruct Hin. }
  destruct (result_of m1) as [fp0 | | msg]; try contradiction.
  rewrite trace_bind in Hin.
  apply in_app_or in Hin. destruct Hin as [Hin | Hin].
  { pose proof (pinch_pass_no_raster o dbuf fp0) as Hno.
    rewrite Forall_forall in Hno. apply Hno in Hin. simpl in Hin.
    now destruct Hin. }
  destruct (pinch_pass_ok o dbuf fp0) as [fp1 Hfp1].
  rewrite Hfp1 in *. rewrite trace_bind in Hin.
  apply in_app_or in Hin. destruct Hin as [Hin | Hin].
  { unfold mask_out_pass in Hin.
    destruct (mask_out_fn o) as [fn' |]; simpl in Hin; [|contradiction].
    destruct Hin as [E | []]. injection E as -> -> -> ->. auto. }
  assert (Hmo : exists u, result_of (mask_out_pass o georef fp1) = Ok u).
  { unfold mask_out_pass. destruct (mask_out_fn o); eexists; reflexivity. }
  destruct Hmo as [u Hu]. rewrite Hu in Hin.
  rewrite trace_bind in Hin.
  apply in_app_or in Hin. destruct Hin as [Hin | Hin].
  { pose proof (reduce_pass_no_raster o fp1) as Hno.
    rewrite Forall_forall in Hno. apply Hno in Hin. simpl in Hin.
    now destruct Hin. }
  destruct (result_of (reduce_pass o fp1)) as [fp2 | | msg];
    try contradiction.
  pose proof (output_pass_no_raster o georef dbuf class_id color fp2) as Hno.
  rewrite Forall_forall in Hno. apply Hno in Hin. simpl in Hin.
  now elim Hin.
Qed.

(** C8: the mask is rasterized from the Mpoly that came out of the
    tracing (with its bevel) and the pinch pass, which is in pixel
    coordinates; and in a whole run no call of the coordinate mapper
    comes before a call of the rasterizer. *)
Theorem rasterizer_takes_pixel_space (o : locals) :
  (forall georef dbuf class_id color mask mp w h fn,
     In (EvMaskFromMpoly mp w h fn)
        (trace_of (process_mask o georef dbuf class_id color mask)) ->
     result_of
       (fp <- calc_ring_from_mask (prepare_mask o mask)
                (georef_w georef) (georef_h georef)
                (major_ring_only o) (no_donuts o)
                (min_ring_area o) (bevel_size o) ;;
        pinch_pass o dbuf fp) = Ok mp
     /\ w = georef_w georef /\ h = georef_h georef
     /\ mask_out_fn o = Some fn)
  /\
  (forall geo ndv,
     in_rank_order raster_rank (trace_of (run o geo ndv)) = true).
Proof.
  split.
  - intros georef dbuf class_id color mask mp w h fn.
    apply mask_out_source.
  - intros geo ndv. apply (ranked_in_order _ 0 1). unfold run. cbv zeta.
    apply (ranked_bind _ 0 0 1); [lia | | intros fn Hok].
    { apply ranked_silent, check_options_silent. }
    apply (ranked_bind _ 0 0 1); [lia | rank_step | intros _ _].
    apply (ranked_bind _ 0 0 1); [lia | repeat rank_step | intros ds _].
    apply (ranked_bind _ 0 0 1); [lia | | intros _ _].
    { unfold check_out_cs. repeat rank_step. }
    unfold read_and_trace. cbv zeta.
    apply (ranked_bind _ 0 0 1);
      [lia | repeat rank_step | intros [[raster ct] mask] _].
    apply (ranked_bind _ 0 0 1); [lia | | intros _ _].
    { unfold open_output. repeat rank_step. }
    apply (ranked_bind _ 0 1 1); [lia | | intros _ _].
    { destruct (classify o) eqn:Hc.
      - apply (ranked_weaken _ 1 1); [|lia ..].
        apply ranked_class_loop. intros.
        apply process_mask_raster_rank.
        eapply check_options_classify; eassumption.
      - destruct class_ids_split as [-> Hrest].
        rewrite (class_loop_first _ _ _ _ _ Hc).
        apply (ranked_bind _ 0 1 1); [lia | | intros _ _].
        + apply process_mask_raster_rank.
        + rewrite (class_loop_skip _ _ _ _ _ Hc _ _ Hrest).
          now apply ranked_silent. }
    apply (ranked_bind _ 1 1 1); [lia | | intros _ _].
    { apply ranked_for_each. intros go _. unfold close_output.
      repeat rank_step. }
    repeat rank_step.
Qed.

End PipelineFacts.

(** * Further properties of the driver *)

(** ** More on the option loop *)

(** The cases of [parse_arg] on a word that was accepted. *)
Ltac parse_arg_cases H :=
  unfold parse_arg in H;
  repeat match type of H with
         | (if ?b then _ else _) = _ => destruct b eqn:?
         | match ?x with Some _ => _ | None => _ end = _ => destruct x eqn:?
         end;
  try discriminate H.

(** The cases of the action of an option on its value. *)
Ltac value_cases Hk :=
  cbv beta in Hk;
  repeat match type of Hk with
         | (let '(_, _) := ?p in _) = _ => destruct p eqn:?
         | (if ?b then _ else _) = _ => destruct b eqn:?
         | map_outcome _ (add_geom_output _ _ _) = _ =>
             unfold add_geom_output in Hk
         | map_outcome _ (if ?b then _ else _) = _ =>
             destruct b eqn:?; cbn [map_outcome] in Hk
         end;
  try discriminate Hk.

(** From [parse_arg arg o = WithValue k] and [k v = Ok o'] to the cases
    of the value. *)
Ltac option_cases H Hk :=
  parse_arg_cases H;
  match type of H with
  | WithValue _ = WithValue ?k =>
      match type of Hk with
      | k ?v = _ =>
          pose proof (f_equal (fun a => match a with
                                        | WithValue k0 => k0 v
                                        | Alone _ => Usage
                                        end) H) as Ek;
          cbv beta iota in Ek; rewrite <- Ek in Hk; clear Ek H
      end
  end;
  value_cases Hk.

Section OptionLoop.
Context {L : Libc}.

(** A property that every word of the command line preserves holds after
    the option loop; [Q] is what is known of the words. *)
Lemma parse_args_preserves (Q : string -> Prop) (P : locals -> Prop) :
  (forall arg o o', Q arg -> parse_arg arg o = Alone (Ok o') -> P o -> P o') ->
  (forall arg o k v o', Q arg ->
     parse_arg arg o = WithValue k -> k v = Ok o' -> P o -> P o') ->
  forall n args, (List.length args <= n)%nat -> Forall Q args ->
  forall o o', P o -> parse_args args o = Ok o' -> P o'.
Proof.
  intros Halone Hvalue.
  induction n as [| n IH]; intros args Hlen HQ o o' HP H.
  - destruct args; [|simpl in Hlen; lia]. simpl in H. congruence.
  - destruct args as [| arg rest]; [simpl in H; congruence|].
    cbn [parse_args] in H. simpl in Hlen.
    inversion HQ as [| ? ? Harg Hrest]; subst.
    destruct (parse_arg arg o) as [r | k] eqn:E.
    + destruct r as [o1 | |]; try discriminate.
      apply (IH rest ltac:(lia) Hrest o1); [| assumption].
      exact (Halone arg o o1 Harg E HP).
    + destruct rest as [| v rest']; [discriminate|].
      destruct (k v) as [o1 | |] eqn:Ek; try discriminate.
      inversion Hrest; subst.
      apply (IH rest' ltac:(simpl in Hlen; lia) ltac:(assumption) o1);
        [| assumption].
      exact (Hvalue arg o k v o1 Harg E Ek HP).
Qed.

Lemma parse_args_invariant (P : locals -> Prop) :
  (forall arg o o', parse_arg arg o = Alone (Ok o') -> P o -> P o') ->
  (forall arg o k v o',
     parse_arg arg o = WithValue k -> k v = Ok o' -> P o -> P o') ->
  forall args o o', P o -> parse_args args o = Ok o' -> P o'.
Proof.
  intros Halone Hvalue args.
  apply (parse_args_preserves (fun _ => True) P) with (n := List.length args).
  - intros arg o o' _. apply Halone.
  - intros arg o k v o' _. apply Hvalue.
  - lia.
  - apply Forall_forall. trivial.
Qed.





Lemma cur_out_cs_unset (pre : list string) (o : locals) :
  Forall (fun arg => arg <> "-out-cs") pre ->
  parse_args pre initial_locals = Ok o ->
  cur_out_cs o = CS_UNKNOWN.
Proof.
  intros Hpre.
  apply (parse_args_preserves (fun arg => arg <> "-out-cs")
           (fun o => cur_out_cs o = CS_UNKNOWN)) with (n := List.length pre);
    [| | lia | assumption | reflexivity].
  - intros arg o1 o2 _ H HP. parse_arg_cases H.
    all: injection H as <-; exact HP.
  - intros arg o1 k v o2 Harg H Hk HP. option_cases H Hk.
    all: try (injection Hk as <-; exact HP).
    all: match goal with
         | E : (?a =? "-out-cs")%string = true |- _ =>
             apply String.eqb_eq in E; contradiction
         end.
Qed.

(** X2: an output that is named before any [-out-cs] ends the run with the
    fatal error of [add_geom_output], whatever follows. *)
Theorem output_before_out_cs_rejected
    (pre rest : list string) (arg fn : string) (o : locals) :
  Forall (fun a => a <> "-out-cs") pre ->
  parse_args pre initial_locals = Ok o ->
  names_output arg = true ->
  parse_args (pre ++ arg :: fn :: rest) initial_locals =
  Fatal "must specify output coordinate system with -out-cs option before specifying output".
Proof.
  intros Hpre Hok Harg.
  rewrite (parse_args_app pre _ _ _ Hok).
  pose proof (cur_out_cs_unset pre o Hpre Hok) as Hcs.
  unfold names_output in Harg. cbn [existsb] in Harg.
  repeat (apply orb_true_iff in Harg; destruct Harg as [Harg | Harg]);
    try discriminate.
  all: apply String.eqb_eq in Harg; subst arg.
  all: cbn [parse_args]; unfold parse_arg; cbn -[add_geom_output].
  all: unfold add_geom_output; rewrite Hcs; reflexivity.
Qed.

(** X3: an option that reads a value, as the last word of the command line,
    ends the run with the usage message. *)
Theorem option_without_value_is_usage
    (pre : list string) (arg : string) (o0 o : locals) :
  parse_args pre o0 = Ok o ->
  takes_value arg = true ->
  parse_args (pre ++ [arg]) o0 = Usage.
Proof.
  intros Hok Harg. rewrite (parse_args_app pre _ _ _ Hok).
  unfold takes_value in Harg. cbn [existsb] in Harg.
  repeat (apply orb_true_iff in Harg; destruct Harg as [Harg | Harg]);
    try discriminate.
  all: apply String.eqb_eq in Harg; subst arg; reflexivity.
Qed.

(** X4: a second file name ends the run with the usage message. *)
Theorem second_file_name_is_usage
    (pre rest : list string) (arg fn : string) (o0 o : locals) :
  parse_args pre o0 = Ok o ->
  input_raster_fn o = Some fn ->
  starts_with_dash arg = false ->
  parse_args (pre ++ arg :: rest) o0 = Usage.
Proof.
  intros Hok Hfn Harg. rewrite (parse_args_app pre _ _ _ Hok).
  cbn [parse_args]. unfold parse_arg. now rewrite Harg, Hfn.
Qed.

Lemma outputs_grow (o1 : locals) (args : list string) (o2 : locals) :
  parse_args args o1 = Ok o2 ->
  exists added, geom_outputs o2 = geom_outputs o1 ++ added.
Proof.
  apply (parse_args_invariant
           (fun o => exists added, geom_outputs o = geom_outputs o1 ++ added)).
  - intros arg o o' H HP. parse_arg_cases H.
    all: injection H as <-; exact HP.
  - intros arg o k v o' H Hk HP. option_cases H Hk.
    all: injection Hk as <-; try exact HP.
    all: destruct HP as [added E]; cbn; rewrite E, <- app_assoc;
      eexists; reflexivity.
  - exists []. now rewrite app_nil_r.
Qed.

(** X5: the outputs are kept in the order of the command line, and the
    options that follow an output do not change it: after more words
    were read, the outputs read before are still there, as they were, at
    the same positions.  So [-out-cs] and [-ogr-fmt] only bear on the
    outputs that are named after them. *)
Theorem outputs_are_append_only
    (pre rest : list string) (o0 o1 o2 : locals) :
  parse_args pre o0 = Ok o1 ->
  parse_args (pre ++ rest) o0 = Ok o2 ->
  (exists added, geom_outputs o2 = geom_outputs o1 ++ added)
  /\ forall i go, nth_error (geom_outputs o1) i = Some go ->
                  nth_error (geom_outputs o2) i = Some go.
Proof.
  intros H1 H2. rewrite (parse_args_app pre _ _ _ H1) in H2.
  destruct (outputs_grow o1 rest o2 H2) as [added E].
  split; [now exists added|].
  intros i go Hi. rewrite E, nth_error_app1; [assumption|].
  apply nth_error_Some. congruence.
Qed.

Lemma bevel_size_parsed (args : list string) (o : locals) :
  parse_args args initial_locals = Ok o ->
  dbl_lt (bevel_size o) dbl_0 = false /\ dbl_ge (bevel_size o) dbl_1 = false.
Proof.
  apply (parse_args_invariant
           (fun o => dbl_lt (bevel_size o) dbl_0 = false
                     /\ dbl_ge (bevel_size o) dbl_1 = false)).
  - intros arg o1 o2 H HP. parse_arg_cases H.
    all: injection H as <-; exact HP.
  - intros arg o1 k v o2 H Hk HP. option_cases H Hk.
    all: injection Hk as <-; try exact HP.
    cbn. now apply orb_false_iff.
  - split; reflexivity.
Qed.

End OptionLoop.

(** ** Results and membership in a trace *)
Section ResultFacts.
Context {E : Type}.

Lemma result_bind_ok {A B} (m : M E A) (f : A -> M E B) (b : B) :
  result_of (bind m f) = Ok b ->
  exists a, result_of m = Ok a /\ result_of (f a) = Ok b.
Proof.
  rewrite result_bind. destruct (result_of m) as [a | | msg];
    [eauto | discriminate ..].
Qed.

Lemma in_bind_l {A B} (m : M E A) (f : A -> M E B) (e : E) :
  In e (trace_of m) -> In e (trace_of (bind m f)).
Proof. intros H. rewrite trace_bind. apply in_or_app. now left. Qed.

Lemma in_bind_r {A B} (m : M E A) (f : A -> M E B) (a : A) (e : E) :
  result_of m = Ok a -> In e (trace_of (f a)) -> In e (trace_of (bind m f)).
Proof.
  intros Hm H. rewrite trace_bind, Hm. apply in_or_app. now right.
Qed.

Lemma result_for_each_ok {A} (l : list A) (f : A -> M E unit) :
  (forall a, In a l -> result_of (f a) = Ok tt) ->
  result_of (for_each l f) = Ok tt.
Proof.
  induction l as [| a l IH]; intros H; simpl; [reflexivity|].
  rewrite result_bind, (H a) by now left.
  apply IH. intros b Hb. apply H. now right.
Qed.

Lemma in_for_each {A} (l : list A) (f : A -> M E unit) (a : A) (e : E) :
  (forall x, In x l -> result_of (f x) = Ok tt) ->
  In a l -> In e (trace_of (f a)) -> In e (trace_of (for_each l f)).
Proof.
  induction l as [| x l IH]; intros Hok Hin He; [contradiction|].
  simpl. destruct Hin as [-> | Hin].
  - now apply in_bind_l.
  - apply (in_bind_r _ _ tt); [apply Hok; now left|].
    apply IH; [|assumption ..]. intros y Hy. apply Hok. now right.
Qed.

Lemma bind_unit_ret (m : M E unit) : (m ;; ret tt) = m.
Proof.
  destruct m as [l [[] | | msg]]; simpl; try reflexivity.
  now rewrite app_nil_r.
Qed.


End ResultFacts.

Section DriverResults.
Context {L : Libc} {C : Core} {G : Gdal}.

(** ** A property of every event of a run *)
Lemma Forall_run (Q : event -> Prop) (o : locals) geo ndv :
  (forall e, (phase e < 2 \/ phase e = 5)%nat -> Q e) ->
  (forall go, In go (geom_outputs o) ->
     Forall Q (trace_of (open_output o go))
     /\ Forall Q (trace_of (close_output go))) ->
  (forall georef dbuf class_id color mask,
     Forall Q (trace_of (process_mask o georef dbuf class_id color mask))) ->
  Forall Q (trace_of (run o geo ndv)).
Proof.
  intros Hother Hout Hpass.
  assert (Hev : forall e, (phase e <? 2)%nat || (phase e =? 5)%nat = true ->
                          Q e).
  { intros e He. apply Hother. apply orb_true_iff in He.
    destruct He as [He | He];
      [left; now apply Nat.ltb_lt | right; now apply Nat.eqb_eq]. }
  unfold run. cbv zeta.
  apply Forall_bind; [unfold check_options; repeat trace_step | intros fn _].
  apply Forall_bind;
    [repeat trace_step; now apply Hev | intros _ _].
  apply Forall_bind; [repeat trace_step | intros ds _].
  apply Forall_bind;
    [unfold check_out_cs; repeat trace_step | intros _ _].
  unfold read_and_trace. cbv zeta.
  apply Forall_bind;
    [repeat trace_step; now apply Hev | intros [[raster ct] mask] _].
  apply Forall_bind;
    [apply Forall_for_each; intros go Hgo; now apply Hout | intros _ _].
  apply Forall_bind; [now apply Forall_class_loop | intros _ _].
  apply Forall_bind;
    [apply Forall_for_each; intros go Hgo; now apply Hout | intros _ _].
  repeat trace_step; now apply Hev.
Qed.

(** ** How a pass over a mask can end *)

Lemma bevel_pass_result (mp : Mpoly Point) (b : double) :
  exists mp', result_of (bevel_pass mp b) = Ok mp'.
Proof.
  unfold bevel_pass.
  destruct (has_rings mp && dbl_gt b dbl_0); eexists; reflexivity.
Qed.

Lemma reduce_pass_result (o : locals) (fp : Mpoly Point) :
  exists fp', result_of (reduce_pass o fp) = Ok fp'.
Proof.
  unfold reduce_pass.
  destruct (has_rings fp && dbl_gt (reduction_tolerance o) dbl_0);
    eexists; reflexivity.
Qed.

Lemma mask_out_pass_result (o : locals) georef (fp : Mpoly Point) :
  result_of (mask_out_pass o georef fp) = Ok tt.
Proof. unfold mask_out_pass. destruct (mask_out_fn o); reflexivity. Qed.

Lemma calc_ring_from_mask_result (mask : BitGrid) (w h : Z)
    (major nd : bool) (mra : Z) (b : double) :
  (exists mp, result_of (calc_ring_from_mask mask w h major nd mra b) = Ok mp)
  \/ (major = true /\
      result_of (calc_ring_from_mask mask w h major nd mra b) =
      Fatal "largest ring should not have a parent").
Proof.
  unfold calc_ring_from_mask. cbv zeta. rewrite result_bind. simpl result_of at 1.
  cbv iota. rewrite result_bind. unfold take_major_ring.
  destruct major; simpl andb.
  - destruct (1 <? rings_size _)%nat.
    + destruct (parent_id _ >=? 0); [right; split; reflexivity|].
      left. apply bevel_pass_result.
    + left. apply bevel_pass_result.
  - left. apply bevel_pass_result.
Qed.

Lemma project_poly_result (o : locals) georef cs (poly : Mpoly Point) :
  known_cs cs = true ->
  exists proj, result_of (project_poly o georef cs poly) = Ok proj.
Proof.
  unfold known_cs, project_poly. intros H.
  destruct (cs =? CS_XY); [eexists; reflexivity|].
  destruct (cs =? CS_EN); [eexists; reflexivity|].
  destruct (cs =? CS_LL); [eexists; reflexivity | discriminate].
Qed.

Lemma well_formed_known_cs (go : geom_output_t) :
  well_formed_output go = true -> known_cs (out_cs go) = true.
Proof. unfold well_formed_output. intros H. now apply andb_true_iff in H. Qed.

Lemma in_indexed {A} (l : list A) (i : nat) (a : A) :
  In (i, a) (indexed l) -> nth_error l i = Some a.
Proof.
  unfold indexed.
  assert (Hgen : forall k, In (i, a) (combine (seq k (List.length l)) l) ->
                           (k <= i)%nat /\ nth_error l (i - k) = Some a).
  { induction l as [| x l IH]; intros k Hin; [contradiction|].
    simpl in Hin. destruct Hin as [E | Hin].
    - injection E as -> ->. rewrite Nat.sub_diag. split; [lia | reflexivity].
    - apply IH in Hin. destruct Hin as [Hle Hn]. split; [lia|].
      replace (i - k)%nat with (S (i - S k)) by lia. exact Hn. }
  intros Hin. apply Hgen in Hin. destruct Hin as [_ Hn].
  now rewrite Nat.sub_0_r in Hn.
Qed.

Lemma write_shape_result (o : locals) georef class_id color poly igo :
  well_formed_output (snd igo) = true ->
  result_of (write_shape o georef class_id color poly igo) = Ok tt.
Proof.
  destruct igo as [go_idx go]. intros Hwf. simpl in Hwf. unfold write_shape.
  rewrite result_bind.
  destruct (project_poly_result o georef (out_cs go) poly
              (well_formed_known_cs go Hwf)) as [proj ->].
  destruct (wkt_fn go), (wkb_fn go), (ogr_fn go); reflexivity.
Qed.

Lemma output_pass_result (o : locals) georef dbuf class_id color fp :
  Forall (fun go => well_formed_output go = true) (geom_outputs o) ->
  result_of (output_pass o georef dbuf class_id color fp) = Ok tt.
Proof.
  intros Hwf. unfold output_pass.
  destruct (has_rings fp); [|reflexivity].
  rewrite result_bind.
  assert (Hplot : forall b : bool,
            result_of (when b (tell (EvDebugPlotMpoly fp))) = Ok tt)
    by (intros []; reflexivity).
  rewrite Hplot.
  destruct (negb (List.length (geom_outputs o) =? 0)%nat && true);
    [|reflexivity].
  rewrite result_bind.
  assert (Hshapes : exists shapes,
            result_of (if split_polys o
                       then tell (EvSplit fp) ;; ret (split_mpoly_to_polys fp)
                       else ret [fp]) = Ok shapes)
    by (destruct (split_polys o); eexists; reflexivity).
  destruct Hshapes as [shapes ->].
  apply result_for_each_ok. intros poly _.
  apply result_for_each_ok. intros [go_idx go] Hin.
  apply write_shape_result. simpl.
  apply in_indexed, nth_error_In in Hin.
  rewrite Forall_forall in Hwf. now apply Hwf.
Qed.

(** X6: on outputs as the option loop makes them, a pass over a mask ends
    normally, or, in major-ring mode only, with the error of the largest
    ring that has a parent: the error of the bad coordinate system cannot
    occur. *)
Theorem mask_pass_failure_modes (o : locals) georef dbuf class_id color mask :
  Forall (fun go => well_formed_output go = true) (geom_outputs o) ->
  result_of (process_mask o georef dbuf class_id color mask) = Ok tt
  \/ (major_ring_only o = true /\
      result_of (process_mask o georef dbuf class_id color mask) =
      Fatal "largest ring should not have a parent").
Proof.
  intros Hwf. unfold process_mask. cbv zeta. rewrite result_bind.
  destruct (calc_ring_from_mask_result (prepare_mask o mask)
              (georef_w georef) (georef_h georef) (major_ring_only o)
              (no_donuts o) (min_ring_area o) (bevel_size o))
    as [[fp0 ->] | [Hm ->]]; [left | right; now split].
  rewrite result_bind. destruct (pinch_pass_ok o dbuf fp0) as [fp1 ->].
  rewrite result_bind, mask_out_pass_result.
  rewrite result_bind. destruct (reduce_pass_result o fp1) as [fp2 ->].
  now apply output_pass_result.
Qed.

End DriverResults.

(** ** More on the order of the doubles *)

Lemma dbl_not_ge_lt (a b : double) :
  is_nan a = false -> is_nan b = false ->
  dbl_ge a b = false -> dbl_lt a b = true.
Proof.
  intros Ha Hb H. apply dbl_lt_key. repeat split; try assumption.
  destruct (key_compare (dbl_key a) (dbl_key b)) eqn:E; [| reflexivity |];
    exfalso; enough (dbl_ge a b = true) by congruence;
    apply dbl_le_key; repeat split; try assumption;
    rewrite key_compare_antisym, E; discriminate.
Qed.

Lemma key_le_lt_trans k1 k2 k3 :
  key_compare k1 k2 <> Gt -> key_compare k2 k3 = Lt ->
  key_compare k1 k3 = Lt.
Proof.
  pose proof (key_compare_spec k1 k2) as H12.
  pose proof (key_compare_spec k2 k3) as H23.
  pose proof (key_compare_spec k1 k3) as H13.
  destruct k1 as [[a1 b1] c1], k2 as [[a2 b2] c2], k3 as [[a3 b3] c3].
  destruct (key_compare (a1, b1, c1) (a2, b2, c2));
    destruct (key_compare (a2, b2, c2) (a3, b3, c3));
    destruct (key_compare (a1, b1, c1) (a3, b3, c3));
    intros N1 N2; try congruence; exfalso; lia.
Qed.

Lemma dbl_le_lt_trans (a b c : double) :
  dbl_le a b = true -> dbl_lt b c = true -> dbl_lt a c = true.
Proof.
  rewrite dbl_le_key, !dbl_lt_key. intros (Ha & Hb & H1) (_ & Hc & H2).
  repeat split; try assumption. eapply key_le_lt_trans; eassumption.
Qed.

(** ** More on the major ring *)
Section MajorRing.
Context {L : Libc} {C : Core} {G : Gdal}.

Lemma biggest_ring_index (rs : list (Ring Point)) :
  forall (i : nat) (ba : double) (bi : nat),
    snd (biggest_ring rs i ba bi) = bi
    \/ (i <= snd (biggest_ring rs i ba bi) < i + List.length rs)%nat.
Proof.
  induction rs as [| r rs IH]; intros i ba bi; simpl; [now left|].
  destruct (dbl_gt (area r) ba).
  - right. destruct (IH (S i) (area r) i) as [-> | H]; lia.
  - destruct (IH (S i) ba bi) as [-> | H]; [now left | right; lia].
Qed.

Lemma best_idx_in_range (mp : Mpoly Point) :
  rings mp <> [] -> (best_idx_of mp < List.length (rings mp))%nat.
Proof.
  intros Hne. unfold best_idx_of.
  destruct (biggest_ring_index (rings mp) 0 dbl_0 0) as [-> | H]; [|lia].
  destruct (rings mp); [congruence | simpl; lia].
Qed.

(** X7: whatever the areas are, NaN included, what [-major-ring] lets
    through has at most one ring, which is one of the rings that were
    traced; when a choice was made, the ring has no parent. *)
Theorem major_ring_is_a_traced_ring (mp mp' : Mpoly Point) :
  result_of (take_major_ring true mp) = Ok mp' ->
  (rings_size mp' <= 1)%nat
  /\ incl (rings mp') (rings mp)
  /\ ((1 < rings_size mp)%nat ->
      forall r, In r (rings mp') -> parent_id r < 0).
Proof.
  unfold take_major_ring. simpl andb.
  destruct (Nat.ltb_spec 1 (rings_size mp)) as [Hlt | Hle].
  - destruct (Z.geb_spec (parent_id (nth (best_idx_of mp) (rings mp) no_ring)) 0)
      as [Hp | Hp]; [discriminate|].
    intros H. injection H as <-. unfold rings_size. simpl.
    split; [lia|]. split.
    + intros r [<- | []]. apply nth_In, best_idx_in_range.
      unfold rings_size in Hlt. destruct (rings mp); [simpl in Hlt; lia|].
      discriminate.
    + intros _ r [<- | []]. lia.
  - intros H. injection H as <-. split; [assumption|].
    split; [apply incl_refl | lia].
Qed.

Lemma biggest_ring_first (rs : list (Ring Point)) :
  forall (pre : list (Ring Point)) (ba : double) (bi : nat),
    (forall r, In r (pre ++ rs) -> is_nan (area r) = false) ->
    is_nan ba = false ->
    (forall r, In r pre -> dbl_le (area r) ba = true) ->
    (bi = 0%nat \/ (bi < List.length pre)%nat) ->
    (forall j, (j < bi)%nat ->
       dbl_lt (area (nth j pre no_ring)) (area (nth bi pre no_ring)) = true) ->
    let best := snd (biggest_ring rs (List.length pre) ba bi) in
    forall j, (j < best)%nat ->
      dbl_lt (area (nth j (pre ++ rs) no_ring))
             (area (nth best (pre ++ rs) no_ring)) = true.
Proof.
  induction rs as [| r rs IH]; intros pre ba bi Hnan Hba Hmax Hbi Hfirst.
  - simpl. rewrite app_nil_r. exact Hfirst.
  - assert (Hr : is_nan (area r) = false)
      by (apply Hnan, in_or_app; right; now left).
    simpl biggest_ring.
    replace (S (List.length pre)) with (List.length (pre ++ [r]))
      by (rewrite length_app; simpl; lia).
    replace (pre ++ r :: rs) with ((pre ++ [r]) ++ rs) in *
      by (now rewrite <- app_assoc).
    destruct (dbl_gt (area r) ba) eqn:Hgt.
    + apply (IH (pre ++ [r]) (area r) (List.length pre)); try assumption.
      * intros r' Hin. apply in_app_or in Hin.
        destruct Hin as [Hin | [<- | []]].
        -- eapply dbl_le_trans; [now apply Hmax | now apply dbl_gt_le].
        -- now apply dbl_le_refl.
      * right. rewrite length_app. simpl. lia.
      * intros j Hj. rewrite (app_nth2 pre [r] no_ring (Nat.le_refl _)).
        rewrite Nat.sub_diag, app_nth1 by assumption. simpl nth.
        apply (dbl_le_lt_trans _ ba); [|exact Hgt].
        apply Hmax, nth_In. assumption.
    + apply (IH (pre ++ [r]) ba bi); try assumption.
      * intros r' Hin. apply in_app_or in Hin.
        destruct Hin as [Hin | [<- | []]].
        -- now apply Hmax.
        -- now apply dbl_not_gt.
      * destruct Hbi as [Hbi | Hbi]; [now left | right].
        rewrite length_app. simpl. lia.
      * intros j Hj. destruct Hbi as [Hbi | Hbi]; [lia|].
        rewrite !app_nth1 by lia. now apply Hfirst.
Qed.

(** X8: of rings of equal largest area the loop takes the first: when no
    area is NaN, every ring before the one taken is strictly smaller. *)
Theorem major_ring_is_first_of_largest (mp : Mpoly Point) (j : nat) :
  (forall r, In r (rings mp) -> is_nan (area r) = false) ->
  (j < best_idx_of mp)%nat ->
  dbl_lt (area (nth j (rings mp) no_ring))
         (area (nth (best_idx_of mp) (rings mp) no_ring)) = true.
Proof.
  intros Hnan Hj.
  apply (biggest_ring_first (rings mp) [] dbl_0 0%nat); simpl; auto.
  intros k Hk. lia.
Qed.

Lemma biggest_ring_none (rs : list (Ring Point)) :
  (forall r, In r rs -> dbl_gt (area r) dbl_0 = false) ->
  forall i, biggest_ring rs i dbl_0 0%nat = (dbl_0, 0%nat).
Proof.
  induction rs as [| r rs IH]; intros H i; simpl; [reflexivity|].
  rewrite (H r) by now left. apply IH. intros r' Hr'. apply H. now right.
Qed.

(** X9: when no ring has an area above zero (all of them zero, negative or
    NaN), the loop takes ring 0. *)
Theorem major_ring_without_positive_area (mp : Mpoly Point) :
  (forall r, In r (rings mp) -> dbl_gt (area r) dbl_0 = false) ->
  best_idx_of mp = 0%nat.
Proof.
  intros H. unfold best_idx_of. now rewrite biggest_ring_none.
Qed.

End MajorRing.

Lemma bind_assoc {E A B D} (m : M E A) (f : A -> M E B) (g : B -> M E D) :
  bind (bind m f) g = bind m (fun a => bind (f a) g).
Proof.
  destruct m as [l [a | | msg]]; simpl; try reflexivity.
  destruct (f a) as [l' [b | | msg]]; simpl; try reflexivity.
  destruct (g b) as [l'' r]. now rewrite app_assoc.
Qed.

(** ** More on the passes of the pipeline *)
Section MorePipelineFacts.
Context {L : Libc} {C : Core} {G : Gdal}.

Lemma no_rings (mp : Mpoly Point) : rings mp = [] -> has_rings mp = false.
Proof. intros H. unfold has_rings, rings_size. now rewrite H. Qed.

(** X10: when the tracer finds no ring, the pass over the mask is the call to
    the tracer and, if a mask output was asked for, the rasterizing of
    the empty Mpoly: no other stage runs and no geometry is written. *)
Theorem empty_outline_writes_no_geometry (o : locals) georef dbuf class_id
    color mask :
  let m := prepare_mask o mask in
  let nd := if major_ring_only o then true else no_donuts o in
  let mp := trace_mask m (georef_w georef) (georef_h georef)
                       (min_ring_area o) nd in
  rings mp = [] ->
  process_mask o georef dbuf class_id color mask =
  (tell (EvTraceMask m (georef_w georef) (georef_h georef)
                     (min_ring_area o) nd) ;;
   mask_out_pass o georef mp).
Proof.
  intros m nd mp Hr. pose proof (no_rings mp Hr) as Hh.
  assert (Htake : take_major_ring (major_ring_only o) mp = ret mp).
  { unfold take_major_ring, rings_size. rewrite Hr. simpl.
    now rewrite andb_false_r. }
  assert (Hbevel : bevel_pass mp (bevel_size o) = ret mp)
    by (unfold bevel_pass; now rewrite Hh).
  assert (Hpinch : pinch_pass o dbuf mp = ret mp)
    by (unfold pinch_pass; now rewrite Hh).
  assert (Hreduce : reduce_pass o mp = ret mp)
    by (unfold reduce_pass; now rewrite Hh).
  assert (Hout : output_pass o georef dbuf class_id color mp = ret tt)
    by (unfold output_pass; now rewrite Hh).
  unfold process_mask, calc_ring_from_mask. cbv zeta. fold m nd mp.
  rewrite bind_assoc. apply bind_ext. intros _.
  rewrite Htake, bind_ret_l, Hbevel, bind_ret_l, Hpinch, bind_ret_l.
  rewrite <- (bind_unit_ret (mask_out_pass o georef mp)) at 2.
  apply bind_ext. intros _. now rewrite Hreduce, bind_ret_l.
Qed.

Lemma output_pass_no_bevel (o : locals) georef dbuf class_id color fp :
  Forall (fun e => bevel_call_in_range e = true)
         (trace_of (output_pass o georef dbuf class_id color fp)).
Proof.
  unfold output_pass. repeat trace_step.
  all: match goal with
       | |- Forall _ (trace_of (write_shape _ _ _ _ _ ?igo)) =>
           destruct igo; unfold write_shape, project_poly
       end.
  all: repeat trace_step.
Qed.

(** X11: after the option loop, every call of the beveler in the run has a
    bevel size strictly between 0 and 1. *)
Theorem beveler_called_in_range (args : list string) (o : locals) geo ndv :
  parse_args args initial_locals = Ok o ->
  Forall (fun e => bevel_call_in_range e = true) (trace_of (run o geo ndv)).
Proof.
  intros H. destruct (bevel_size_parsed args o H) as [_ H1].
  apply Forall_run.
  - intros e He. destruct e; simpl in *; try reflexivity; lia.
  - intros go _. unfold open_output, close_output.
    split; repeat trace_step.
  - intros georef dbuf class_id color mask. unfold process_mask. cbv zeta.
    apply Forall_bind; [| intros fp0 _].
    { unfold calc_ring_from_mask, take_major_ring, bevel_pass. cbv zeta.
      repeat trace_step.
      match goal with
      | Hb : _ && dbl_gt (bevel_size o) dbl_0 = true |- _ =>
          apply andb_true_iff in Hb; destruct Hb as [_ Hb]
      end.
      simpl. apply andb_true_iff. split; [assumption|].
      apply dbl_not_ge_lt; [| reflexivity | assumption].
      match goal with
      | Hb : dbl_gt _ _ = true |- _ => apply dbl_lt_key in Hb; tauto
      end. }
    apply Forall_bind; [unfold pinch_pass; repeat trace_step | intros fp1 _].
    apply Forall_bind;
      [unfold mask_out_pass; repeat trace_step | intros _ _].
    apply Forall_bind; [unfold reduce_pass; repeat trace_step | intros fp2 _].
    apply output_pass_no_bevel.
Qed.

(** X12: without a geometry output the run still reads and traces, but it
    opens and closes no output file, calls neither the splitter nor the
    coordinate mapper, and writes no geometry. *)
Theorem without_outputs_nothing_is_served (o : locals) geo ndv :
  geom_outputs o = [] ->
  Forall (fun e => serves_geom_output e = false) (trace_of (run o geo ndv)).
Proof.
  intros Hout. apply Forall_run.
  - intros e He. destruct e; simpl in *; try reflexivity; lia.
  - rewrite Hout. intros go [].
  - intros georef dbuf class_id color mask. unfold process_mask. cbv zeta.
    apply Forall_bind; [| intros fp0 _].
    { unfold calc_ring_from_mask, take_major_ring, bevel_pass. cbv zeta.
      repeat trace_step. }
    apply Forall_bind; [unfold pinch_pass; repeat trace_step | intros fp1 _].
    apply Forall_bind;
      [unfold mask_out_pass; repeat trace_step | intros _ _].
    apply Forall_bind; [unfold reduce_pass; repeat trace_step | intros fp2 _].
    unfold output_pass. rewrite Hout. simpl. repeat trace_step.
Qed.

(** ** More on the checks before the raster is read *)

(** X13: [-classify] together with NDV options, with [-invert] or with
    [-mask-out] ends the run with a fatal error before the raster is
    opened; when [-major-ring] is not given, the message names the first
    of the three in this order. *)
Theorem classify_conflicts_rejected (o : locals) geo ndv :
  classify o = true ->
  nranges ndv <> 0 \/ do_invert o = true \/ mask_out_fn o <> None ->
  trace_of (run o geo ndv) = []
  /\ (exists msg, result_of (run o geo ndv) = Fatal msg)
  /\ (forall fn, input_raster_fn o = Some fn -> major_ring_only o = false ->
      result_of (run o geo ndv) =
      Fatal (if negb (nranges ndv =? 0) then
               "-classify option is not compatible with NDV options"
             else if do_invert o then
               "-classify option is not compatible with -invert option"
             else
               "-classify option is not compatible with -mask-out option")).
Proof.
  intros Hc Hbad.
  assert (Hcheck : exists msg, check_options o ndv = ([], Fatal msg)).
  { unfold check_options. rewrite Hc.
    destruct (input_raster_fn o); [|eexists; reflexivity].
    destruct (major_ring_only o), (min_ring_area o =? 0), (no_donuts o);
      simpl; try (eexists; reflexivity).
    all: destruct (Z.eqb_spec (nranges ndv) 0) as [E | N];
      simpl; try (eexists; reflexivity).
    all: destruct (do_invert o); simpl; try (eexists; reflexivity).
    all: destruct (mask_out_fn o); simpl; try (eexists; reflexivity).
    all: exfalso; destruct Hbad as [Hb | [Hb | Hb]];
      solve [contradiction | discriminate | now apply Hb]. }
  destruct Hcheck as [msg Hcheck].
  unfold run. rewrite (bind_fatal _ _ _ _ Hcheck).
  split; [reflexivity|]. split; [eexists; reflexivity|].
  intros fn Hfn Hm. simpl. f_equal.
  unfold check_options in Hcheck. rewrite Hc, Hfn, Hm in Hcheck.
  simpl in Hcheck.
  destruct (nranges ndv =? 0), (do_invert o), (mask_out_fn o);
    simpl in *; congruence.
Qed.






(** ** More on the loop over the classes *)

(** X16: without [-classify] the loop over the 256 class values is one pass,
    over the mask of the whole raster, for the class 0 and without
    color. *)
Theorem single_pass_without_classify (o : locals) georef dbuf raster
    color_table mask :
  classify o = false ->
  class_loop o georef dbuf raster color_table (map Z.of_nat (seq 0 256)) mask
  = process_mask o georef dbuf 0 None mask.
Proof.
  intros Hc. destruct class_ids_split as [-> Hrest].
  rewrite (class_loop_first _ _ _ _ _ Hc).
  rewrite <- (bind_unit_ret (process_mask o georef dbuf 0 None mask)) at 2.
  apply bind_ext. intros _.
  now apply class_loop_skip.
Qed.

(** X17: with [-classify] the loop makes one pass for every class value that
    occurs in the raster, in increasing order, each over the mask of the
    pixels of that value and with the color of the value when the band
    has a palette; the other values are skipped. *)
Theorem classify_pass_per_used_value (o : locals) georef dbuf
    (raster8 : Raster8) (usage_array : Z -> bool)
    (color_table : option ColorTable) (ids : list Z) (mask : BitGrid) :
  classify o = true ->
  class_loop o georef dbuf (Some (raster8, usage_array)) color_table ids mask
  = for_each (filter usage_array ids)
      (fun class_id =>
         process_mask o georef dbuf class_id
           match color_table with
           | Some ct => GDALGetColorEntry ct class_id
           | None => None
           end
           (get_bitgrid_for_8bit_raster (georef_w georef) (georef_h georef)
              raster8 (class_id mod 256))).
Proof.
  intros Hc. revert mask.
  induction ids as [| class_id ids IH]; intros mask; [reflexivity|].
  simpl. rewrite Hc. destruct (usage_array class_id); [|apply IH].
  simpl. apply bind_ext. intros _. apply IH.
Qed.

(** ** The usage message *)

Lemma process_mask_not_usage (o : locals) georef dbuf class_id color mask :
  result_of (process_mask o georef dbuf class_id color mask) <> Usage.
Proof.
  unfold process_mask. cbv zeta. rewrite result_bind.
  destruct (calc_ring_from_mask_result (prepare_mask o mask)
              (georef_w georef) (georef_h georef) (major_ring_only o)
              (no_donuts o) (min_ring_area o) (bevel_size o))
    as [[fp0 ->] | [Hm ->]]; [|discriminate].
  rewrite result_bind. destruct (pinch_pass_ok o dbuf fp0) as [fp1 ->].
  rewrite result_bind, mask_out_pass_result.
  rewrite result_bind. destruct (reduce_pass_result o fp1) as [fp2 ->].
  unfold output_pass. destruct (has_rings fp2); [|discriminate].
  rewrite result_bind.
  assert (Hplot : forall b : bool,
            result_of (when b (tell (EvDebugPlotMpoly fp2))) = Ok tt)
    by (intros []; reflexivity).
  rewrite Hplot.
  destruct (negb (List.length (geom_outputs o) =? 0)%nat && true);
    [|discriminate].
  rewrite result_bind.
  assert (Hshapes : exists shapes,
            result_of (if split_polys o
                       then tell (EvSplit fp2) ;; ret (split_mpoly_to_polys fp2)
                       else ret [fp2]) = Ok shapes)
    by (destruct (split_polys o); eexists; reflexivity).
  destruct Hshapes as [shapes ->].
  assert (Hloop : forall {A} (l : list A) (f : A -> M event unit),
            (forall a, result_of (f a) <> Usage) ->
            result_of (for_each l f) <> Usage).
  { intros A l f Hf. induction l as [| a l IH]; simpl; [discriminate|].
    rewrite result_bind. specialize (Hf a).
    destruct (result_of (f a)); [assumption | congruence | discriminate]. }
  apply Hloop. intros poly. apply Hloop. intros [go_idx go].
  unfold write_shape, project_poly. rewrite result_bind.
  destruct (out_cs go =? CS_XY); [|destruct (out_cs go =? CS_EN);
    [|destruct (out_cs go =? CS_LL); [|discriminate]]].
  all: destruct (wkt_fn go), (wkb_fn go), (ogr_fn go); discriminate.
Qed.

End MorePipelineFacts.

(** ** Where the usage message can come from *)
Section UsageFacts.
Context {E : Type}.

Lemma not_usage_bind {A B} (m : M E A) (f : A -> M E B) :
  result_of m <> Usage ->
  (forall a, result_of m = Ok a -> result_of (f a) <> Usage) ->
  result_of (bind m f) <> Usage.
Proof.
  intros Hm Hf. rewrite result_bind.
  destruct (result_of m) as [a | | msg] eqn:Em;
    [now apply Hf | congruence | discriminate].
Qed.

Lemma not_usage_for_each {A} (l : list A) (f : A -> M E unit) :
  (forall a, In a l -> result_of (f a) <> Usage) ->
  result_of (for_each l f) <> Usage.
Proof.
  induction l as [| a l IH]; intros H; simpl; [discriminate|].
  apply not_usage_bind; [apply H; now left|].
  intros _ _. apply IH. intros b Hb. apply H. now right.
Qed.

End UsageFacts.

(** One step in the proof that a computation does not end with the usage
    message. *)
Ltac usage_step :=
  match goal with
  | |- result_of (ret _) <> Usage => discriminate
  | |- result_of (fatal_error _) <> Usage => discriminate
  | |- result_of (tell _) <> Usage => discriminate
  | |- result_of (bind _ _) <> Usage => apply not_usage_bind; [| intros ? ?]
  | |- result_of (when ?b _) <> Usage => destruct b; unfold when
  | |- result_of (for_each _ _) <> Usage =>
      apply not_usage_for_each; intros ? ?
  | |- result_of (if ?b then _ else _) <> Usage => destruct b
  | |- result_of (match ?x with _ => _ end) <> Usage => destruct x
  end.

Section RunFacts.
Context {L : Libc} {C : Core} {G : Gdal}.

Lemma class_loop_not_usage (o : locals) georef dbuf raster color_table :
  forall ids mask,
    result_of (class_loop o georef dbuf raster color_table ids mask)
    <> Usage.
Proof.
  induction ids as [| class_id ids IH]; intros mask; simpl; [discriminate|].
  destruct (classify o).
  - destruct raster as [[raster8 usage_array] |]; [|apply IH].
    destruct (usage_array class_id); [|apply IH].
    apply not_usage_bind; [apply process_mask_not_usage | intros _ _; apply IH].
  - destruct (negb (class_id =? 0)); [apply IH|].
    apply not_usage_bind; [apply process_mask_not_usage | intros _ _; apply IH].
Qed.

Lemma run_not_usage (o : locals) geo ndv :
  result_of (run o geo ndv) <> Usage.
Proof.
  unfold run. cbv zeta.
  apply not_usage_bind; [unfold check_options; repeat usage_step | intros fn _].
  apply not_usage_bind; [usage_step | intros _ _].
  apply not_usage_bind; [repeat usage_step | intros ds _].
  apply not_usage_bind;
    [unfold check_out_cs; repeat usage_step | intros _ _].
  unfold read_and_trace. cbv zeta.
  apply not_usage_bind; [repeat usage_step | intros [[raster ct] mask] _].
  apply not_usage_bind; [unfold open_output; repeat usage_step | intros _ _].
  apply not_usage_bind; [apply class_loop_not_usage | intros _ _].
  apply not_usage_bind; [| intros _ _; repeat usage_step].
  apply not_usage_for_each. intros go _. unfold close_output.
  repeat usage_step.
Qed.

(** X18: the usage message only comes from the command line: when [main] ends
    with it, nothing was opened, read or written. *)
Theorem usage_only_from_command_line (argv : list string) :
  result_of (main argv) = Usage -> trace_of (main argv) = [].
Proof.
  unfold main. destruct (List.length argv =? 1)%nat; [reflexivity|].
  destruct (init_geo_options argv) as [geo argv1].
  destruct (init_ndv_options argv1) as [ndv argv2].
  rewrite result_bind, trace_bind. simpl.
  destruct (parse_args (tl argv2) initial_locals) as [o | | msg];
    [| reflexivity | discriminate].
  intros H. now elim (run_not_usage o geo ndv).
Qed.

(** ** The phases of a run *)

Lemma phased_silent {A} lo hi (m : M event A) :
  trace_of m = [] -> phased_within lo hi m.
Proof. intros H. unfold phased_within. rewrite H. apply sorted_between_nil. Qed.

Lemma phased_constant {A} n (m : M event A) :
  Forall (fun e => phase e = n) (trace_of m) -> phased_within n n m.
Proof.
  unfold phased_within. induction 1 as [| e l He _ IH]; simpl.
  - apply sorted_between_nil.
  - change (phase e :: map phase l) with ([phase e] ++ map phase l).
    apply (sorted_between_app n n n); [|assumption | lia].
    apply sorted_between_one. lia.
Qed.

Lemma phased_bind {A B} lo mid hi (m : M event A) (f : A -> M event B) :
  (lo <= mid <= hi)%nat ->
  phased_within lo mid m ->
  (forall a, result_of m = Ok a -> phased_within mid hi (f a)) ->
  phased_within lo hi (bind m f).
Proof.
  intros Hm H1 H2. unfold phased_within. rewrite trace_bind, map_app.
  eapply sorted_between_app; [exact H1 | | exact Hm].
  destruct (result_of m) as [a | | msg];
    [now apply H2 | apply sorted_between_nil ..].
Qed.

Lemma phased_weaken {A} lo hi lo' hi' (m : M event A) :
  phased_within lo hi m -> (lo' <= lo)%nat -> (hi <= hi')%nat ->
  phased_within lo' hi' m.
Proof. unfold phased_within. intros. eapply sorted_between_weaken; eauto. Qed.

Lemma process_mask_phase (o : locals) georef dbuf class_id color mask :
  Forall (fun e => phase e = 3%nat)
         (trace_of (process_mask o georef dbuf class_id color mask)).
Proof.
  unfold process_mask. cbv zeta.
  apply Forall_bind; [| intros fp0 _].
  { unfold calc_ring_from_mask, take_major_ring, bevel_pass. cbv zeta.
    repeat trace_step. }
  apply Forall_bind; [unfold pinch_pass; repeat trace_step | intros fp1 _].
  apply Forall_bind; [unfold mask_out_pass; repeat trace_step | intros _ _].
  apply Forall_bind; [unfold reduce_pass; repeat trace_step | intros fp2 _].
  unfold output_pass. repeat trace_step.
  all: match goal with
       | |- Forall _ (trace_of (write_shape _ _ _ _ _ ?igo)) =>
           destruct igo; unfold write_shape, project_poly
       end.
  all: repeat trace_step.
Qed.

(** X19: a run goes through its phases in order: the raster is opened, the
    mask or the raster is read, the outputs are opened, the masks are
    traced and their outlines written, the outputs are closed, the debug
    plot is written.  So no output file is created before the raster was
    read, and none is written after it was closed. *)
Theorem run_in_phase_order (o : locals) geo ndv :
  in_phase_order (trace_of (run o geo ndv)) = true.
Proof.
  enough (H : phased_within 0 5 (run o geo ndv)) by apply H.
  unfold run. cbv zeta.
  apply (phased_bind 0 0 5); [lia | | intros fn _].
  { apply phased_silent, check_options_silent. }
  apply (phased_bind 0 0 5); [lia | | intros _ _].
  { apply phased_constant. repeat trace_step. }
  apply (phased_bind 0 0 5); [lia | | intros ds _].
  { apply phased_constant. repeat trace_step. }
  apply (phased_bind 0 0 5); [lia | | intros _ _].
  { apply phased_constant. unfold check_out_cs. repeat trace_step. }
  unfold read_and_trace. cbv zeta.
  apply (phased_bind 0 1 5); [lia | | intros [[raster ct] mask] _].
  { apply (phased_weaken 1 1); [|lia ..].
    apply phased_constant. repeat trace_step. }
  apply (phased_bind 1 2 5); [lia | | intros _ _].
  { apply (phased_weaken 2 2); [|lia ..].
    apply phased_constant. unfold open_output. repeat trace_step. }
  apply (phased_bind 2 3 5); [lia | | intros _ _].
  { apply (phased_weaken 3 3); [|lia ..].
    apply phased_constant, Forall_class_loop. intros.
    apply process_mask_phase. }
  apply (phased_bind 3 4 5); [lia | | intros _ _].
  { apply (phased_weaken 4 4); [|lia ..].
    apply phased_constant. unfold close_output. repeat trace_step. }
  apply (phased_weaken 5 5); [|lia ..].
  apply phased_constant. repeat trace_step.
Qed.

(** ** Opening and closing of the outputs *)

Lemma close_output_result (go : geom_output_t) :
  result_of (close_output go) = Ok tt.
Proof.
  unfold close_output.
  destruct (wkt_fn go), (wkb_fn go), (ogr_fn go); reflexivity.
Qed.

Lemma run_reaches_close (o : locals) geo ndv (e : event)
    (go : geom_output_t) :
  result_of (run o geo ndv) = Ok tt ->
  In go (geom_outputs o) -> In e (trace_of (close_output go)) ->
  In e (trace_of (run o geo ndv)).
Proof.
  intros H Hgo He. unfold run in *. cbv zeta in *.
  apply result_bind_ok in H. destruct H as (fn & H1 & H).
  apply (in_bind_r _ _ fn); [exact H1|].
  apply result_bind_ok in H. destruct H as ([] & H2 & H).
  apply (in_bind_r _ _ tt); [exact H2|].
  apply result_bind_ok in H. destruct H as (ds & H3 & H).
  apply (in_bind_r _ _ ds); [exact H3|].
  apply result_bind_ok in H. destruct H as ([] & H4 & H).
  apply (in_bind_r _ _ tt); [exact H4|].
  unfold read_and_trace in *. cbv zeta in *.
  apply result_bind_ok in H. destruct H as ([[raster ct] mask] & H5 & H).
  apply (in_bind_r _ _ (raster, ct, mask)); [exact H5|].
  apply result_bind_ok in H. destruct H as ([] & H6 & H).
  apply (in_bind_r _ _ tt); [exact H6|].
  apply result_bind_ok in H. destruct H as ([] & H7 & H).
  apply (in_bind_r _ _ tt); [exact H7|].
  apply in_bind_l. apply (in_for_each _ _ go); [|assumption ..].
  intros x _. apply close_output_result.
Qed.

Lemma run_opens_outputs (o : locals) geo ndv :
  Forall (fun e =>
            match e with
            | EvFopen fn =>
                exists go, In go (geom_outputs o)
                           /\ (wkt_fn go = Some fn \/ wkb_fn go = Some fn)
            | EvOgrCreateDataSource _ fn =>
                exists go, In go (geom_outputs o) /\ ogr_fn go = Some fn
            | _ => True
            end)
         (trace_of (run o geo ndv)).
Proof.
  apply Forall_run.
  - intros e He. destruct e; simpl in *; try exact I; lia.
  - intros go Hgo. unfold open_output, close_output.
    split; repeat trace_step; try exact I; eauto.
  - intros georef dbuf class_id color mask.
    eapply Forall_impl; [|apply process_mask_phase].
    intros e He. destruct e; simpl in *; try exact I; discriminate.
Qed.

(** X20: in a run that ends normally, every output file that was opened is
    closed, and every OGR data source that was created is destroyed. *)
Theorem opened_outputs_are_closed (o : locals) geo ndv (fn : string) :
  result_of (run o geo ndv) = Ok tt ->
  (In (EvFopen fn) (trace_of (run o geo ndv)) ->
   In (EvFclose fn) (trace_of (run o geo ndv)))
  /\ (forall fmt,
        In (EvOgrCreateDataSource fmt fn) (trace_of (run o geo ndv)) ->
        In (EvOgrDestroy fn) (trace_of (run o geo ndv))).
Proof.
  intros Hok. pose proof (run_opens_outputs o geo ndv) as Hopen.
  rewrite Forall_forall in Hopen. split.
  - intros Hin. destruct (Hopen _ Hin) as (go & Hgo & Hfn).
    apply (run_reaches_close o geo ndv _ go Hok Hgo).
    unfold close_output.
    destruct Hfn as [Hfn | Hfn]; rewrite Hfn.
    + apply in_bind_l. now left.
    + apply (in_bind_r _ _ tt);
        [destruct (wkt_fn go); reflexivity|].
      apply in_bind_l. now left.
  - intros fmt Hin. destruct (Hopen _ Hin) as (go & Hgo & Hfn).
    apply (run_reaches_close o geo ndv _ go Hok Hgo).
    unfold close_output. rewrite Hfn.
    apply (in_bind_r _ _ tt); [destruct (wkt_fn go); reflexivity|].
    apply (in_bind_r _ _ tt); [destruct (wkb_fn go); reflexivity|].
    now left.
Qed.

End RunFacts.

(** * The tracer and the rasterizer of the specification *)


(** ** The walk along the boundary *)

Lemma fg_in_grid g x y : fg g x y = true -> in_grid g x y = true.
Proof.
  unfold fg, bg_get. destruct (in_grid g x y); [reflexivity | discriminate].
Qed.

Lemma fg_outside g x y : in_grid g x y = false -> fg g x y = false.
Proof. unfold fg, bg_get. now intros ->. Qed.

(** Coordinates that went one step and came back. *)
Ltac back_and_forth :=
  repeat match goal with
         | |- context [?a + 1 - 1] => replace (a + 1 - 1) with a by lia
         | |- context [?a - 1 + 1] => replace (a - 1 + 1) with a by lia
         | H : context [?a + 1 - 1] |- _ =>
             replace (a + 1 - 1) with a in H by lia
         | H : context [?a - 1 + 1] |- _ =>
             replace (a - 1 + 1) with a in H by lia
         end.

Ltac decide_fg :=
  repeat match goal with
         | |- context [if fg ?g ?a ?b then _ else _] =>
             let E := fresh "E" in destruct (fg g a b) eqn:E
         | H : context [if fg ?g ?a ?b then _ else _] |- _ =>
             let E := fresh "E" in destruct (fg g a b) eqn:E
         end.

Ltac use_fg :=
  repeat match goal with
         | H : fg ?g ?a ?b = _ |- context [fg ?g ?a ?b] => rewrite H
         end.

Lemma next_edge_boundary g e :
  is_boundary g e = true -> is_boundary g (next_edge g e) = true.
Proof.
  destruct e as [[x y] s]. unfold is_boundary, next_edge, across.
  destruct s; cbn [fst snd]; intros H;
    apply andb_true_iff in H; destruct H as [H1 H2];
    apply negb_true_iff in H2;
    decide_fg; cbn [fst snd across]; back_and_forth;
    use_fg; try reflexivity; congruence.
Qed.

Lemma prev_edge_boundary g e :
  is_boundary g e = true -> is_boundary g (prev_edge g e) = true.
Proof.
  destruct e as [[x y] s]. unfold is_boundary, prev_edge, across.
  destruct s; cbn [fst snd]; intros H;
    apply andb_true_iff in H; destruct H as [H1 H2];
    apply negb_true_iff in H2;
    decide_fg; cbn [fst snd across]; back_and_forth;
    use_fg; try reflexivity; congruence.
Qed.

Lemma prev_next_edge g e :
  is_boundary g e = true -> prev_edge g (next_edge g e) = e.
Proof.
  destruct e as [[x y] s]. unfold is_boundary, next_edge, across.
  destruct s; cbn [fst snd]; intros H;
    apply andb_true_iff in H; destruct H as [H1 H2];
    apply negb_true_iff in H2;
    decide_fg; unfold prev_edge; back_and_forth;
    use_fg; try reflexivity; congruence.
Qed.

Lemma next_prev_edge g e :
  is_boundary g e = true -> next_edge g (prev_edge g e) = e.
Proof.
  destruct e as [[x y] s]. unfold is_boundary, prev_edge, across.
  destruct s; cbn [fst snd]; intros H;
    apply andb_true_iff in H; destruct H as [H1 H2];
    apply negb_true_iff in H2;
    decide_fg; unfold next_edge; back_and_forth;
    use_fg; try reflexivity; congruence.
Qed.

(** The walk is continuous: the next edge starts where the edge ends. *)
Lemma start_next_edge g e : start_vertex (next_edge g e) = end_vertex e.
Proof.
  destruct e as [[x y] s]. unfold next_edge.
  destruct s; decide_fg; cbn; f_equal; lia.
Qed.


(** ** Loops *)

Lemma remove_NoDup (e : edge) (U : list edge) :
  NoDup U -> NoDup (remove edge_eq_dec e U).
Proof.
  induction 1 as [| a U Ha _ IH]; simpl; [constructor|].
  destruct (edge_eq_dec e a); [assumption|].
  constructor; [|assumption].
  intros Hin. apply in_remove in Hin. now destruct Hin.
Qed.

Lemma remove_perm (e : edge) (U : list edge) :
  NoDup U -> In e U -> Permutation (e :: remove edge_eq_dec e U) U.
Proof.
  intros Hnd Hin. apply NoDup_Permutation; [|assumption|].
  - constructor; [apply remove_In | now apply remove_NoDup].
  - intros x. split.
    + intros [<- | Hx]; [assumption|]. now apply in_remove in Hx.
    + intros Hx. destruct (edge_eq_dec x e) as [-> | N]; [now left|].
      right. now apply in_in_remove.
Qed.

Lemma NoDup_app_disjoint {A} (l1 l2 : list A) (a : A) :
  NoDup (l1 ++ l2) -> In a l1 -> In a l2 -> False.
Proof.
  induction l1 as [| b l1 IH]; simpl; intros Hnd H1 H2; [contradiction|].
  inversion Hnd as [| ? ? Hb Hnd']; subst.
  destruct H1 as [-> | H1]; [|now apply IH].
  apply Hb, in_or_app. now right.
Qed.

Lemma last_in {A} (l : list A) (d : A) : l <> [] -> In (last l d) l.
Proof.
  induction l as [| a l IH]; [congruence|]. intros _.
  destruct l as [| b l]; [now left|].
  right. apply IH. discriminate.
Qed.

Lemma last_default {A} (l : list A) (d d' : A) :
  l <> [] -> last l d = last l d'.
Proof.
  induction l as [| a l IH]; [congruence|]. intros _.
  destruct l as [| b l]; [reflexivity|].
  apply IH. discriminate.
Qed.

Lemma last_app_r {A} (l1 l2 : list A) (d : A) :
  l2 <> [] -> last (l1 ++ l2) d = last l2 d.
Proof.
  intros H. induction l1 as [| a l1 IH]; [reflexivity|].
  simpl. destruct (l1 ++ l2) eqn:E; [|assumption].
  apply app_eq_nil in E. now destruct E.
Qed.

Section Walk.
Variable g : bit_grid.

Lemma walk_perm (fuel : nat) :
  forall e U, NoDup U -> In e U ->
    Permutation (fst (walk fuel g e U) ++ snd (walk fuel g e U)) U.
Proof.
  induction fuel as [| n IH]; intros e U Hnd Hin; simpl; [reflexivity|].
  destruct (in_dec edge_eq_dec (next_edge g e) (remove edge_eq_dec e U))
    as [Hnext | Hnext].
  - specialize (IH (next_edge g e) (remove edge_eq_dec e U)
                  (remove_NoDup e U Hnd) Hnext).
    destruct (walk n g (next_edge g e) (remove edge_eq_dec e U))
      as [lp rest]. simpl in *.
    transitivity (e :: remove edge_eq_dec e U);
      [now constructor | now apply remove_perm].
  - simpl. now apply remove_perm.
Qed.

Lemma walk_chain (fuel : nat) :
  forall e U,
    chain g (fst (walk fuel g e U))
    /\ (fst (walk fuel g e U) = []
        \/ exists t, fst (walk fuel g e U) = e :: t).
Proof.
  induction fuel as [| n IH]; intros e U; simpl;
    [split; [exact I | now left]|].
  destruct (in_dec edge_eq_dec (next_edge g e) (remove edge_eq_dec e U))
    as [Hnext | Hnext].
  - specialize (IH (next_edge g e) (remove edge_eq_dec e U)).
    destruct (walk n g (next_edge g e) (remove edge_eq_dec e U))
      as [lp rest]. simpl in *. destruct IH as [Hc Hhd].
    split; [|eauto].
    destruct lp as [| e' lp]; [exact I|].
    split; [|assumption].
    destruct Hhd as [Hhd | [t Ht]]; congruence.
  - simpl. split; [exact I | eauto].
Qed.

Lemma walk_stops (fuel : nat) :
  forall e U, (List.length U <= fuel)%nat -> In e U ->
    fst (walk fuel g e U) <> []
    /\ ~ In (next_edge g (last (fst (walk fuel g e U)) e))
           (snd (walk fuel g e U)).
Proof.
  induction fuel as [| n IH]; intros e U Hlen Hin.
  - destruct U; [contradiction | simpl in Hlen; lia].
  - simpl.
    pose proof (remove_length_lt edge_eq_dec U e Hin) as Hlt.
    destruct (in_dec edge_eq_dec (next_edge g e) (remove edge_eq_dec e U))
      as [Hnext | Hnext].
    + specialize (IH (next_edge g e) (remove edge_eq_dec e U)).
      destruct (walk n g (next_edge g e) (remove edge_eq_dec e U))
        as [lp rest]. simpl in *.
      destruct IH as [Hne Hstop]; [lia | assumption |].
      split; [discriminate|].
      destruct lp as [| e' lp]; [congruence|].
      now rewrite (last_default (e' :: lp) e (next_edge g e)).
    + simpl. split; [discriminate | assumption].
Qed.

Lemma chain_split (l1 l2 : list edge) (x d : edge) :
  chain g (l1 ++ x :: l2) -> l1 <> [] -> next_edge g (last l1 d) = x.
Proof.
  induction l1 as [| a l1 IH]; [congruence|]. intros Hc _.
  destruct l1 as [| b l1].
  - simpl in *. now destruct Hc.
  - change (last (a :: b :: l1) d) with (last (b :: l1) d).
    apply IH; [|discriminate]. simpl in Hc. now destruct Hc.
Qed.

Lemma chain_tail (l1 l2 : list edge) :
  chain g (l1 ++ l2) -> chain g l2.
Proof.
  induction l1 as [| a l1 IH]; [trivial|]. intros Hc. apply IH.
  simpl in Hc. destruct (l1 ++ l2); [exact I | now destruct Hc].
Qed.

(** The points of a chain that comes back to its first edge. *)
Lemma chain_segments (t : list edge) :
  forall e, chain g (e :: t) ->
    combine (map start_vertex (e :: t))
            (map start_vertex t ++ [end_vertex (last (e :: t) e)])
    = map segment (e :: t).
Proof.
  induction t as [| e' t IH]; intros e Hc; [reflexivity|].
  destruct Hc as [Hn Hc].
  change (last (e :: e' :: t) e) with (last (e' :: t) e).
  rewrite (last_default (e' :: t) e e') by discriminate.
  specialize (IH e' Hc). simpl in *. rewrite IH.
  unfold segment. f_equal. f_equal. now rewrite <- Hn, start_next_edge.
Qed.

(** What the walk from an edge of a closed set gives. *)
Lemma walk_loop (R : list edge) (e0 : edge) :
  closed_set g R -> NoDup R -> In e0 R ->
  let lp := fst (walk (List.length R) g e0 R) in
  let rest := snd (walk (List.length R) g e0 R) in
  lp <> [] /\ Permutation (lp ++ rest) R
  /\ good_loop lp /\ closed_set g rest.
Proof.
  intros Hcl Hnd Hin lp rest.
  pose proof (walk_perm (List.length R) e0 R Hnd Hin) as Hperm.
  destruct (walk_chain (List.length R) e0 R) as [Hchain Hhd].
  destruct (walk_stops (List.length R) e0 R (le_n _) Hin) as [Hne Hstop].
  fold lp in Hperm, Hchain, Hhd, Hne, Hstop. fold rest in Hperm, Hstop.
  destruct Hhd as [Hhd | [t Ht]]; [contradiction|].
  assert (HndL : NoDup (lp ++ rest))
    by (eapply Permutation_NoDup; [symmetry; exact Hperm | exact Hnd]).
  assert (HinR : forall e, In e lp -> In e R).
  { intros e He. eapply Permutation_in; [exact Hperm|].
    apply in_or_app. now left. }
  assert (Hb : forall e, In e lp -> is_boundary g e = true)
    by (intros e He; now apply Hcl, HinR).
  assert (Hlast : In (last lp e0) lp) by now apply last_in.
  (* the walk comes back to its first edge *)
  assert (Hback : next_edge g (last lp e0) = e0).
  { assert (Hx : In (next_edge g (last lp e0)) lp).
    { assert (In (next_edge g (last lp e0)) (lp ++ rest)) as Hx.
      { eapply Permutation_in; [symmetry; exact Hperm|].
        now apply Hcl, HinR. }
      apply in_app_or in Hx. destruct Hx; [assumption | contradiction]. }
    assert (Hlx : prev_edge g (next_edge g (last lp e0)) = last lp e0)
      by now apply prev_next_edge, Hb.
    set (x := next_edge g (last lp e0)) in *.
    assert (Hx' : In x (e0 :: t)) by now rewrite <- Ht.
    destruct Hx' as [Hx' | Hx']; [now symmetry|].
    exfalso. apply in_split in Hx'. destruct Hx' as (t1 & t2 & Et).
    assert (Elp : lp = (e0 :: t1) ++ x :: t2)
      by (rewrite Ht, Et; reflexivity).
    pose proof Hchain as Hc. rewrite Elp in Hc.
    apply (chain_split _ _ _ e0) in Hc; [|discriminate].
    assert (Hl1 : In (last (e0 :: t1) e0) lp).
    { rewrite Elp. apply in_or_app. left. apply last_in. discriminate. }
    assert (E : last (e0 :: t1) e0 = last lp e0).
    { now rewrite <- (prev_next_edge g _ (Hb _ Hl1)), Hc. }
    apply (NoDup_app_disjoint (e0 :: t1) (x :: t2) (last lp e0)).
    - rewrite <- Elp. eapply NoDup_app_remove_r. exact HndL.
    - rewrite <- E. apply last_in. discriminate.
    - rewrite Elp at 1. rewrite last_app_r by discriminate.
      apply last_in. discriminate. }
  (* the loop is closed under both steps *)
  assert (Hnext : forall e, In e lp -> In (next_edge g e) lp).
  { intros e He. apply in_split in He. destruct He as (l1 & l2 & El).
    destruct l2 as [| e' l2].
    - assert (last lp e0 = e) as <- by (rewrite El; apply last_last).
      rewrite Hback, Ht. now left.
    - pose proof Hchain as Hc. rewrite El in Hc. apply chain_tail in Hc.
      destruct Hc as [-> _]. rewrite El. apply in_or_app.
      right. right. now left. }
  assert (Hprev : forall e, In e lp -> In (prev_edge g e) lp).
  { intros e He. apply in_split in He. destruct He as (l1 & l2 & El).
    destruct l1 as [| a l1].
    - assert (e = e0) as -> by (rewrite Ht in El; simpl in El; congruence).
      rewrite <- Hback at 1. rewrite prev_next_edge by now apply Hb.
      assumption.
    - pose proof Hchain as Hc. rewrite El in Hc.
      apply (chain_split _ _ _ e0) in Hc; [|discriminate].
      assert (Hl1 : In (last (a :: l1) e0) lp).
      { rewrite El. apply in_or_app. left. apply last_in. discriminate. }
      rewrite <- Hc, prev_next_edge by now apply Hb. assumption. }
  split; [assumption|]. split; [assumption|]. split.
  - unfold good_loop. rewrite Ht in *. simpl closed_pairs.
    rewrite <- (chain_segments t e0 Hchain).
    change (map start_vertex (e0 :: t))
      with (start_vertex e0 :: map start_vertex t).
    now rewrite <- Hback at 1; rewrite start_next_edge.
  - intros e He.
    assert (HeR : In e R).
    { eapply Permutation_in; [exact Hperm|]. apply in_or_app. now right. }
    destruct (Hcl e HeR) as (Hbe & Hn & Hp). split; [assumption|].
    split.
    + assert (In (next_edge g e) (lp ++ rest)) as Hx
        by (eapply Permutation_in; [symmetry; exact Hperm | exact Hn]).
      apply in_app_or in Hx. destruct Hx as [Hx | Hx]; [|assumption].
      exfalso. apply Hprev in Hx. rewrite prev_next_edge in Hx by assumption.
      exact (NoDup_app_disjoint _ _ _ HndL Hx He).
    + assert (In (prev_edge g e) (lp ++ rest)) as Hx
        by (eapply Permutation_in; [symmetry; exact Hperm | exact Hp]).
      apply in_app_or in Hx. destruct Hx as [Hx | Hx]; [|assumption].
      exfalso. apply Hnext in Hx. rewrite next_prev_edge in Hx by assumption.
      exact (NoDup_app_disjoint _ _ _ HndL Hx He).
Qed.

(** The loops of a closed set take each of its edges once. *)
Lemma trace_loops_spec (fuel : nat) :
  forall U, closed_set g U -> NoDup U -> (List.length U <= fuel)%nat ->
    Permutation (List.concat (trace_loops fuel g U)) U
    /\ Forall good_loop (trace_loops fuel g U).
Proof.
  induction fuel as [| n IH]; intros U Hcl Hnd Hlen.
  - destruct U; [|simpl in Hlen; lia]. simpl. split; constructor.
  - destruct U as [| e0 U']; [simpl; split; constructor|].
    set (U := e0 :: U') in *.
    destruct (walk_loop U e0 Hcl Hnd (or_introl eq_refl))
      as (Hne & Hperm & Hgood & Hrest).
    change (trace_loops (S n) g U)
      with (let '(lp, rest) := walk (List.length U) g e0 U in
            lp :: trace_loops n g rest).
    destruct (walk (List.length U) g e0 U) as [lp rest]. simpl in *.
    assert (HndL : NoDup (lp ++ rest))
      by (eapply Permutation_NoDup; [symmetry; exact Hperm | exact Hnd]).
    destruct (IH rest Hrest (NoDup_app_remove_l _ _ HndL)) as [Hp Hg].
    { apply Permutation_length in Hperm. rewrite length_app in Hperm.
      destruct lp; [congruence|]. simpl in *. lia. }
    split; [|now constructor].
    transitivity (lp ++ rest); [|assumption].
    now apply Permutation_app_head.
Qed.

End Walk.


(** ** The edges of the boundary *)

Lemma in_columns (w : nat) (x : Z) :
  In x (columns w) <-> 0 <= x < Z.of_nat w.
Proof.
  unfold columns. rewrite in_map_iff. split.
  - intros (n & <- & Hn). apply in_seq in Hn. lia.
  - intros H. exists (Z.to_nat x). split; [lia|]. apply in_seq. lia.
Qed.

Lemma NoDup_columns (w : nat) : NoDup (columns w).
Proof.
  apply Injective_map_NoDup; [|apply seq_NoDup].
  intros a b H. lia.
Qed.

Lemma NoDup_flat_map {A B} (f : A -> list B) (l : list A) :
  NoDup l ->
  (forall a, In a l -> NoDup (f a)) ->
  (forall a b x, In a l -> In b l -> In x (f a) -> In x (f b) -> a = b) ->
  NoDup (flat_map f l).
Proof.
  induction 1 as [| a l Ha Hnd IH]; intros Hf Hdis; simpl; [constructor|].
  apply NoDup_app.
  - apply Hf. now left.
  - apply IH.
    + intros b Hb. apply Hf. now right.
    + intros b c x Hb Hc. apply Hdis; now right.
  - intros x Hx Hx'. apply in_flat_map in Hx'. destruct Hx' as (b & Hb & Hxb).
    assert (a = b) by (apply (Hdis a b x); auto; [now left | now right]).
    congruence.
Qed.

Lemma in_all_sides (w h : nat) (x y : Z) (s : side) :
  In (x, y, s) (all_sides w h) <-> In x (columns w) /\ In y (columns h).
Proof.
  unfold all_sides. rewrite in_flat_map. split.
  - intros (y' & Hy & Hin). apply in_flat_map in Hin.
    destruct Hin as (x' & Hx & Hin). unfold pixel_sides in Hin. simpl in Hin.
    destruct Hin as [E | [E | [E | [E | []]]]]; injection E as -> -> _;
      now split.
  - intros [Hx Hy]. exists y. split; [assumption|]. apply in_flat_map.
    exists x. split; [assumption|]. unfold pixel_sides.
    destruct s; simpl; auto.
Qed.

Lemma NoDup_all_sides (w h : nat) : NoDup (all_sides w h).
Proof.
  unfold all_sides. apply NoDup_flat_map; [apply NoDup_columns | |].
  - intros y _. apply NoDup_flat_map; [apply NoDup_columns | |].
    + intros x _. unfold pixel_sides.
      repeat constructor; simpl; intuition congruence.
    + intros a b e _ _ Ha Hb. unfold pixel_sides in *. simpl in *.
      destruct Ha as [<- | [<- | [<- | [<- | []]]]];
        destruct Hb as [E | [E | [E | [E | []]]]]; congruence.
  - intros a b e _ _ Ha Hb. apply in_flat_map in Ha, Hb.
    destruct Ha as (xa & _ & Ha), Hb as (xb & _ & Hb).
    unfold pixel_sides in *. simpl in *.
    destruct Ha as [<- | [<- | [<- | [<- | []]]]];
      destruct Hb as [E | [E | [E | [E | []]]]]; congruence.
Qed.

Lemma in_boundary_edges (g : bit_grid) (e : edge) :
  In e (boundary_edges g) <-> is_boundary g e = true.
Proof.
  unfold boundary_edges. rewrite filter_In. split; [now intros [_ H]|].
  intros H. split; [|assumption].
  destruct e as [[x y] s]. apply in_all_sides.
  unfold is_boundary in H. apply andb_true_iff in H. destruct H as [H _].
  apply fg_in_grid in H. unfold in_grid in H.
  rewrite !andb_true_iff in H. rewrite !in_columns. lia.
Qed.

Lemma NoDup_boundary_edges (g : bit_grid) : NoDup (boundary_edges g).
Proof. apply NoDup_filter, NoDup_all_sides. Qed.

Lemma closed_boundary_edges (g : bit_grid) :
  closed_set g (boundary_edges g).
Proof.
  intros e He. apply in_boundary_edges in He.
  split; [assumption|]. rewrite !in_boundary_edges.
  split; [now apply next_edge_boundary | now apply prev_edge_boundary].
Qed.

(** The loops of the mask take each edge of its boundary once, and the
    points of each loop, joined in a ring, are its edges. *)
Lemma loops_of_spec (g : bit_grid) :
  Permutation (List.concat (loops_of g)) (boundary_edges g)
  /\ Forall good_loop (loops_of g).
Proof.
  apply trace_loops_spec;
    [apply closed_boundary_edges | apply NoDup_boundary_edges | lia].
Qed.

(** ** Counting crossings *)

Lemma filter_map_length {A B} (f : A -> B) (P : B -> bool) (l : list A) :
  List.length (filter P (map f l))
  = List.length (filter (fun a => P (f a)) l).
Proof.
  induction l as [| a l IH]; simpl; [reflexivity|].
  destruct (P (f a)); simpl; now rewrite IH.
Qed.

Lemma odd_count_app {A} (P : A -> bool) (l1 l2 : list A) :
  odd_count P (l1 ++ l2) = xorb (odd_count P l1) (odd_count P l2).
Proof.
  unfold odd_count. now rewrite filter_app, length_app, Nat.odd_add.
Qed.

Lemma odd_count_cons {A} (P : A -> bool) (a : A) (l : list A) :
  odd_count P (a :: l) = xorb (P a) (odd_count P l).
Proof.
  unfold odd_count. simpl. destruct (P a); [|reflexivity].
  simpl List.length. rewrite Nat.odd_succ, <- Nat.negb_odd. reflexivity.
Qed.

Lemma odd_count_concat {A} (P : A -> bool) (L : list (list A)) :
  odd_count (odd_count P) L = odd_count P (List.concat L).
Proof.
  induction L as [| l L IH]; [reflexivity|].
  simpl List.concat. now rewrite odd_count_app, <- IH, odd_count_cons.
Qed.

Lemma odd_count_perm {A} (P : A -> bool) (l1 l2 : list A) :
  Permutation l1 l2 -> odd_count P l1 = odd_count P l2.
Proof.
  induction 1 as [| a l1 l2 _ IH | a b l | l1 l2 l3 _ IH1 _ IH2];
    rewrite ?odd_count_cons; try congruence.
  now destruct (P a), (P b), (odd_count P l).
Qed.

Lemma odd_count_ext {A} (P Q : A -> bool) (l : list A) :
  (forall a, In a l -> P a = Q a) -> odd_count P l = odd_count Q l.
Proof.
  intros H. unfold odd_count. f_equal. f_equal.
  induction l as [| a l IH]; [reflexivity|]. simpl.
  rewrite (H a) by now left. rewrite IH; [reflexivity|].
  intros b Hb. apply H. now right.
Qed.

Lemma inside_good_loop (lp : list edge) (x y : Z) :
  good_loop lp ->
  inside (ring_of_loop lp) x y = odd_count (crossing x y) lp.
Proof.
  intros Hg. unfold inside, crossings, ring_of_loop, odd_count. cbn [pts].
  rewrite Hg, filter_map_length. reflexivity.
Qed.

(** The parity of the rings that hold a pixel is the parity of the
    boundary edges that its half-line crosses. *)
Lemma rings_parity (g : bit_grid) (x y : Z) :
  odd_count (fun lp => inside (ring_of_loop lp) x y) (loops_of g)
  = odd_count (crossing x y) (boundary_edges g).
Proof.
  destruct (loops_of_spec g) as [Hperm Hgood].
  rewrite <- (odd_count_perm _ _ _ Hperm), <- odd_count_concat.
  apply odd_count_ext. intros lp Hlp. apply inside_good_loop.
  rewrite Forall_forall in Hgood. now apply Hgood.
Qed.


(** ** The crossings along a row *)

Ltac decide_order :=
  repeat match goal with
         | |- context [?a <=? ?b] => destruct (Z.leb_spec a b)
         | |- context [?a <? ?b] => destruct (Z.ltb_spec a b)
         | |- context [?a =? ?b] => destruct (Z.eqb_spec a b)
         end.

Lemma crossing_spec (x y px py : Z) (s : side) :
  crossing x y (px, py, s) =
  match s with
  | Right => (py =? y) && (px + 1 <=? x)
  | Left => (py =? y) && (px <=? x)
  | Top | Bottom => false
  end.
Proof.
  unfold crossing, segment, crosses, start_vertex, end_vertex.
  destruct s; decide_order; cbn [andb]; try reflexivity; lia.
Qed.

Lemma flat_map_cons_app {A B} (f : A -> list B) (a : A) (l : list A) :
  flat_map f (a :: l) = f a ++ flat_map f l.
Proof. reflexivity. Qed.

Section Row.
Variable g : bit_grid.
Variables x y : Z.

Lemma hit_pixel (px py : Z) :
  odd_count (hit g x y) (pixel_sides px py) =
  (py =? y)
  && xorb (fg g px py && negb (fg g (px + 1) py) && (px + 1 <=? x))
          (fg g px py && negb (fg g (px - 1) py) && (px <=? x)).
Proof.
  unfold pixel_sides. rewrite !odd_count_cons. unfold hit.
  rewrite !crossing_spec. unfold is_boundary, across. cbn [fst snd].
  unfold odd_count. simpl.
  destruct (py =? y), (fg g px py), (fg g (px + 1) py), (fg g (px - 1) py),
    (px + 1 <=? x), (px <=? x), (fg g px (py - 1)), (fg g px (py + 1));
    reflexivity.
Qed.

Lemma hit_other_row (w : nat) (py : Z) :
  py <> y ->
  odd_count (hit g x y) (flat_map (fun px => pixel_sides px py) (columns w)) = false.
Proof.
  intros Hy. induction (columns w) as [| px l IH]; [reflexivity|].
  rewrite flat_map_cons_app, odd_count_app, IH, hit_pixel.
  destruct (Z.eqb_spec py y); [contradiction | reflexivity].
Qed.

Lemma columns_S (n : nat) : columns (S n) = columns n ++ [Z.of_nat n].
Proof. unfold columns. now rewrite seq_S, map_app. Qed.

Lemma hit_row_step (n : nat) :
  odd_count (hit g x y) (flat_map (fun px => pixel_sides px y) (columns (S n)))
  = xorb (odd_count (hit g x y) (flat_map (fun px => pixel_sides px y) (columns n)))
         (odd_count (hit g x y) (pixel_sides (Z.of_nat n) y)).
Proof.
  rewrite columns_S, flat_map_app, odd_count_app.
  now rewrite flat_map_cons_app, app_nil_r.
Qed.

Lemma fg_left_of_grid (py : Z) : fg g (-1) py = false.
Proof. apply fg_outside. reflexivity. Qed.

(** Up to the pixel: the transitions met so far. *)
Lemma hit_row_before (n : nat) :
  Z.of_nat n <= x ->
  odd_count (hit g x y) (flat_map (fun px => pixel_sides px y) (columns n))
  = fg g (Z.of_nat n - 1) y && fg g (Z.of_nat n) y.
Proof.
  induction n as [| n IH]; intros Hn.
  - change (Z.of_nat 0 - 1) with (-1). now rewrite fg_left_of_grid.
  - rewrite hit_row_step, IH, hit_pixel by lia.
    replace (Z.of_nat (S n) - 1) with (Z.of_nat n) by lia.
    replace (Z.of_nat (S n)) with (Z.of_nat n + 1) by lia.
    rewrite Z.eqb_refl.
    destruct (Z.leb_spec (Z.of_nat n + 1) x), (Z.leb_spec (Z.of_nat n) x);
      try lia.
    destruct (fg g (Z.of_nat n - 1) y), (fg g (Z.of_nat n) y),
      (fg g (Z.of_nat n + 1) y); reflexivity.
Qed.

(** Beyond the pixel: the pixel itself. *)
Lemma hit_row_after (n : nat) :
  0 <= x < Z.of_nat n ->
  odd_count (hit g x y) (flat_map (fun px => pixel_sides px y) (columns n))
  = fg g x y.
Proof.
  induction n as [| n IH]; intros Hn; [lia|].
  rewrite hit_row_step, hit_pixel, Z.eqb_refl.
  destruct (Z.eq_dec x (Z.of_nat n)) as [E | N].
  - rewrite hit_row_before by lia. rewrite <- E.
    destruct (Z.leb_spec (x + 1) x), (Z.leb_spec x x); try lia.
    destruct (fg g (x - 1) y), (fg g x y), (fg g (x + 1) y); reflexivity.
  - rewrite IH by lia.
    destruct (Z.leb_spec (Z.of_nat n + 1) x), (Z.leb_spec (Z.of_nat n) x);
      try lia.
    rewrite !andb_false_r. now destruct (fg g x y).
Qed.

Lemma odd_count_filter {A} (P Q : A -> bool) (l : list A) :
  odd_count P (filter Q l) = odd_count (fun a => Q a && P a) l.
Proof.
  induction l as [| a l IH]; [reflexivity|]. simpl.
  destruct (Q a) eqn:E; rewrite !odd_count_cons, ?E, IH; reflexivity.
Qed.

(** The half-line of a pixel of the grid crosses an odd number of
    boundary edges exactly when the pixel is foreground. *)
Lemma boundary_parity :
  in_grid g x y = true ->
  odd_count (crossing x y) (boundary_edges g) = fg g x y.
Proof.
  intros Hin. unfold in_grid in Hin. rewrite !andb_true_iff in Hin.
  destruct Hin as [[[Hx0 Hxw] Hy0] Hyh].
  apply Z.leb_le in Hx0, Hy0. apply Z.ltb_lt in Hxw, Hyh.
  unfold boundary_edges. rewrite odd_count_filter. fold (hit g x y).
  unfold all_sides.
  assert (Hrows : forall rows, NoDup rows ->
            odd_count (hit g x y)
              (flat_map (fun y' => flat_map (fun px => pixel_sides px y')
                                            (columns (bg_w g))) rows)
            = if in_dec Z.eq_dec y rows then fg g x y else false).
  { induction 1 as [| y' rows Hy' Hnd IH]; [reflexivity|].
    rewrite flat_map_cons_app, odd_count_app, IH.
    destruct (in_dec Z.eq_dec y (y' :: rows)) as [Hyin | Hyout].
    - destruct Hyin as [-> | Hyin].
      + rewrite hit_row_after by lia.
        destruct (in_dec Z.eq_dec y rows); [contradiction|].
        now rewrite xorb_false_r.
      + rewrite hit_other_row by congruence.
        destruct (in_dec Z.eq_dec y rows); [reflexivity | contradiction].
    - rewrite hit_other_row by (intros ->; apply Hyout; now left).
      destruct (in_dec Z.eq_dec y rows); [|reflexivity].
      exfalso. apply Hyout. now right. }
  rewrite (Hrows _ (NoDup_columns (bg_h g))).
  destruct (in_dec Z.eq_dec y (columns (bg_h g))) as [_ | N]; [reflexivity|].
  exfalso. apply N, in_columns. lia.
Qed.

End Row.


(** ** The rings of the tracer *)

Lemma odd_count_map {A B} (f : A -> B) (P : B -> bool) (l : list A) :
  odd_count P (map f l) = odd_count (fun a => P (f a)) l.
Proof. unfold odd_count. now rewrite filter_map_length. Qed.

Lemma filter_all {A} (P : A -> bool) (l : list A) :
  (forall a, P a = true) -> filter P l = l.
Proof.
  intros H. induction l as [| a l IH]; [reflexivity|].
  simpl. now rewrite H, IH.
Qed.

Lemma combine_map_l {A B} (f : A -> B) (l : list A) :
  combine (map f l) l = map (fun a => (f a, a)) l.
Proof. induction l as [| a l IH]; simpl; [reflexivity | now rewrite IH]. Qed.

Lemma nothing_dropped (rs : list (Ring (Z * Z))) (r : Ring (Z * Z)) :
  dropped rs 0 false r = false.
Proof.
  assert (Hsmall : forall r', too_small 0 r' = false).
  { intros r'. unfold too_small, abs_twice_area. apply Z.ltb_ge. lia. }
  unfold dropped. rewrite Hsmall. simpl.
  destruct (nth_error rs (Z.to_nat (parent_id r))); rewrite ?Hsmall;
    apply andb_false_r.
Qed.

(** With no minimal area and with holes, the rings of the tracer are the
    rings of the loops: the parity of the rings that hold a pixel is the
    same. *)
Lemma trace_rings_parity (g : bit_grid) (x y : Z) :
  odd_count (fun r => inside r x y) (rings (trace g 0 false))
  = odd_count (fun lp => inside (ring_of_loop lp) x y) (loops_of g).
Proof.
  unfold trace, compact. cbn [rings].
  rewrite filter_all by (intros r; now rewrite nothing_dropped).
  rewrite odd_count_map. unfold nested_rings. cbv zeta.
  rewrite combine_map_l, map_map, odd_count_map.
  apply odd_count_ext. intros lp _. reflexivity.
Qed.

(** ** The bits of a grid, row by row *)

Lemma map_nth_firstn {A} (d : A) (l : list A) :
  forall w, (w <= List.length l)%nat ->
    map (fun x => nth x l d) (seq 0 w) = firstn w l.
Proof.
  induction l as [| a l IH]; intros w Hw.
  - destruct w; [reflexivity | simpl in Hw; lia].
  - destruct w as [| w]; [reflexivity|].
    simpl. f_equal. rewrite <- seq_shift, map_map.
    apply IH. simpl in Hw. lia.
Qed.

Lemma flat_map_map {A B C} (f : B -> list C) (k : A -> B) (l : list A) :
  flat_map f (map k l) = flat_map (fun a => f (k a)) l.
Proof. induction l as [| a l IH]; simpl; [reflexivity | now rewrite IH]. Qed.

Lemma flat_map_ext_in {A B} (f k : A -> list B) (l : list A) :
  (forall a, In a l -> f a = k a) -> flat_map f l = flat_map k l.
Proof.
  induction l as [| a l IH]; intros H; simpl; [reflexivity|].
  rewrite (H a) by now left. rewrite IH; [reflexivity|].
  intros b Hb. apply H. now right.
Qed.

Lemma row_major (w : nat) (d : bool) :
  forall h l, List.length l = (h * w)%nat ->
    flat_map (fun y => map (fun x => nth (y * w + x) l d) (seq 0 w))
             (seq 0 h) = l.
Proof.
  induction h as [| h IH]; intros l Hl.
  - destruct l; [reflexivity | discriminate].
  - change (seq 0 (S h)) with (0%nat :: seq 1 h).
    rewrite flat_map_cons_app, <- seq_shift, flat_map_map.
    change (map (fun x => nth (0 * w + x) l d) (seq 0 w))
      with (map (fun x => nth x l d) (seq 0 w)).
    rewrite (map_nth_firstn d l w) by (simpl in Hl; lia).
    transitivity (firstn w l ++ skipn w l); [|apply firstn_skipn].
    f_equal.
    rewrite <- (IH (skipn w l))
      by (rewrite length_skipn; simpl in Hl; lia).
    apply flat_map_ext_in. intros y' _. apply map_ext. intros x'.
    rewrite nth_skipn. f_equal. lia.
Qed.

Lemma fg_nth (g : bit_grid) (x y : nat) :
  bit_grid_wf g -> (x < bg_w g)%nat -> (y < bg_h g)%nat ->
  fg g (Z.of_nat x) (Z.of_nat y) = nth (y * bg_w g + x) (bits g) false.
Proof.
  intros Hwf Hx Hy. unfold fg, bg_get, in_grid.
  destruct (Z.leb_spec 0 (Z.of_nat x)); [|lia].
  destruct (Z.ltb_spec (Z.of_nat x) (Z.of_nat (bg_w g))); [|lia].
  destruct (Z.leb_spec 0 (Z.of_nat y)); [|lia].
  destruct (Z.ltb_spec (Z.of_nat y) (Z.of_nat (bg_h g))); [|lia].
  simpl. rewrite !Nat2Z.id.
  rewrite (nth_error_nth' (bits g) false); [reflexivity|].
  rewrite Hwf. nia.
Qed.

Lemma grid_row_major (g : bit_grid) :
  bit_grid_wf g ->
  flat_map (fun y => map (fun x => fg g x y) (columns (bg_w g)))
           (columns (bg_h g)) = bits g.
Proof.
  intros Hwf. unfold columns. rewrite flat_map_map.
  transitivity
    (flat_map (fun y => map (fun x => nth (y * bg_w g + x) (bits g) false)
                            (seq 0 (bg_w g))) (seq 0 (bg_h g)));
    [|now apply row_major].
  apply flat_map_ext_in. intros y' Hy. rewrite map_map.
  apply map_ext_in. intros x' Hx. apply in_seq in Hx, Hy.
  apply fg_nth; [assumption | lia | lia].
Qed.


(** ** The round trip *)

Lemma fill_trace_bit (g : bit_grid) (x y : Z) :
  in_grid g x y = true ->
  Nat.odd (List.length (filter (fun r => inside r x y)
                               (rings (trace g 0 false))))
  = fg g x y.
Proof.
  intros Hin. fold (odd_count (fun r => inside r x y) (rings (trace g 0 false))).
  now rewrite trace_rings_parity, rings_parity, boundary_parity.
Qed.

Lemma fill_trace (g : bit_grid) :
  bit_grid_wf g ->
  fill (trace g 0 false) (bg_w g) (bg_h g) = g.
Proof.
  intros Hwf. unfold fill.
  replace (flat_map _ (columns (bg_h g))) with (bits g);
    [now destruct g|].
  rewrite <- (grid_row_major g Hwf).
  apply flat_map_ext_in. intros y' Hy. apply map_ext_in. intros x' Hx.
  symmetry. apply fill_trace_bit.
  apply in_columns in Hx, Hy. unfold in_grid.
  destruct (Z.leb_spec 0 x'), (Z.ltb_spec x' (Z.of_nat (bg_w g))),
    (Z.leb_spec 0 y'), (Z.ltb_spec y' (Z.of_nat (bg_h g)));
    try lia; reflexivity.
Qed.

(** C2: rasterizing the traced multipolygon gives the mask back,
    [fill(trace(mask, 0, false), w, h) = mask], for every grid that has
    one bit per pixel.  In the driver, with inversion, erosion, major
    ring, hole suppression, minimal area, bevel and pinching all off, the
    Mpoly that goes to the mask output rasterizes to the mask that was
    read. *)
Theorem fill_trace_round_trip :
  (forall g : bit_grid,
     bit_grid_wf g -> fill (trace g 0 false) (bg_w g) (bg_h g) = g)
  /\
  (forall erode_grid ring_area bevel pinch reduce split to_en to_ll
          (G : @Gdal (model_core erode_grid ring_area bevel pinch reduce
                        split to_en to_ll))
          (o : locals) (georef : georef_t) dbuf class_id color
          (mask : bit_grid) (mp : Mpoly (Z * Z)) (w h : Z) (fn : string),
     bit_grid_wf mask ->
     georef_w georef = Z.of_nat (bg_w mask) ->
     georef_h georef = Z.of_nat (bg_h mask) ->
     do_invert o = false -> do_erosion o = false ->
     major_ring_only o = false -> no_donuts o = false ->
     min_ring_area o = 0 ->
     dbl_eq (bevel_size o) dbl_0 = true ->
     do_pinch_excursions o = false ->
     In (EvMaskFromMpoly (G := G) mp w h fn)
        (trace_of (process_mask (G := G) o georef dbuf class_id color mask)) ->
     fill mp (Z.to_nat w) (Z.to_nat h) = mask).
Proof.
  split; [exact fill_trace|].
  intros erode_grid ring_area bevel pinch reduce split to_en to_ll G
    o georef dbuf class_id color mask mp w h fn
    Hwf Hw Hh Hinv Hero Hmaj Hnd Hmin Hbev Hpin Hin.
  apply mask_out_source in Hin. destruct Hin as (Hres & -> & -> & _).
  unfold prepare_mask in Hres. rewrite Hinv, Hero, Hmaj, Hnd, Hmin in Hres.
  unfold calc_ring_from_mask, take_major_ring in Hres. cbv zeta in Hres.
  simpl andb in Hres. cbv iota in Hres.
  rewrite bind_tell, bind_ret_l, (bevel_pass_off _ _ Hbev) in Hres.
  rewrite result_bind in Hres. cbn [result_of snd] in Hres.
  unfold pinch_pass in Hres. rewrite Hpin, andb_false_r in Hres.
  cbn [result_of snd ret] in Hres. injection Hres as <-.
  rewrite Hw, Hh, !Nat2Z.id. now apply fill_trace.
Qed.

(** * Examples on the small world *)
Section Examples.
Import World.

(** The check rejects [1.5] and lets [0.5] pass. *)
Lemma bevel_size_range_check_witness :
  main ["gdal_trace_outline"; "in.tif"; "-bevel-size"; "1.5"; "-v"]
  = ([], Fatal "-bevel-size must be in the range 0 <= bevel < 1")
  /\
  main ["gdal_trace_outline"; "in.tif"; "-bevel-size"; "0.5"; "-v"]
  = (o' <- lift (parse_args ["-v"]
                   (set_bevel_size dbl_half
                      (set_input_raster_fn (Some "in.tif") initial_locals))) ;;
     run o' tt 0).
Proof.
  split.
  - refine (proj1 (bevel_size_range_check
             ["gdal_trace_outline"; "in.tif"; "-bevel-size"; "1.5"; "-v"]
             ["gdal_trace_outline"; "in.tif"; "-bevel-size"; "1.5"; "-v"]
             ["in.tif"] ["-v"] "gdal_trace_outline" "1.5" tt 0 dbl_1_5
             (set_input_raster_fn (Some "in.tif") initial_locals)
             _ eq_refl eq_refl eq_refl eq_refl) (or_intror eq_refl)).
    simpl. discriminate.
  - refine (proj2 (bevel_size_range_check
             ["gdal_trace_outline"; "in.tif"; "-bevel-size"; "0.5"; "-v"]
             ["gdal_trace_outline"; "in.tif"; "-bevel-size"; "0.5"; "-v"]
             ["in.tif"] ["-v"] "gdal_trace_outline" "0.5" tt 0 dbl_half
             (set_input_raster_fn (Some "in.tif") initial_locals)
             _ eq_refl eq_refl eq_refl eq_refl) (conj eq_refl eq_refl)).
    simpl. discriminate.
Defined.

(** The mask of one pixel is traced, then bevelled. *)
Lemma bevel_zero_is_noop_witness :
  bevel_pass {| rings := [square 0 0] |} dbl_0
  = ([], Ok {| rings := [square 0 0] |})
  /\ bevel_pass {| rings := [] |} dbl_0_1 = ([], Ok {| rings := [] |})
  /\ calc_ring_from_mask [[true; false]; [false; false]] 2 2 false false 0 dbl_0
     = ([EvTraceMask [[true; false]; [false; false]] 2 2 0 false],
        Ok {| rings := [square 0 0] |}).
Proof.
  split; [|split].
  - exact (proj1 (bevel_zero_is_noop {| rings := [square 0 0] |} dbl_0
                    [] 0 0 false false 0) eq_refl).
  - exact (proj1 (proj2 (bevel_zero_is_noop {| rings := [] |} dbl_0_1
                           [] 0 0 false false 0)) eq_refl).
  - exact (proj1 (proj2 (proj2 (bevel_zero_is_noop {| rings := [] |} dbl_0
                           [[true; false]; [false; false]] 2 2
                           false false 0))) eq_refl).
Defined.

Lemma zero_tolerance_is_noop_witness :
  reduce_pass exact_outline {| rings := [square 0 0] |}
  = ([], Ok {| rings := [square 0 0] |}).
Proof.
  exact (proj1 (zero_tolerance_is_noop exact_outline georef_2x2 None 0 None
                  [[true; false]; [false; false]]
                  {| rings := [square 0 0] |} eq_refl)).
Defined.

Lemma major_ring_forces_no_donuts_witness :
  Forall (fun e => suppresses_holes e = true) (trace_of (run major_xy tt 0)).
Proof.
  exact (proj2 major_ring_forces_no_donuts major_xy tt 0 eq_refl).
Defined.

Lemma major_ring_conflicts_rejected_witness :
  trace_of (run major_with_area tt 0) = []
  /\ result_of (run major_with_area tt 0) =
     Fatal "-major-ring and -min-ring-area options cannot both be used at the same time".
Proof.
  assert (N : min_ring_area major_with_area <> 0) by discriminate.
  pose proof (major_ring_conflicts_rejected major_with_area tt 0
                eq_refl (or_introl N)) as (Ht & _ & Hr).
  split; [exact Ht | exact (Hr "in.tif" eq_refl)].
Defined.

Lemma unavailable_cs_rejected_witness :
  run plain_ll tt 0 = ([EvGDALOpen "plain.tif"], Fatal "missing affine transform")
  \/ run plain_ll tt 0
     = ([EvGDALOpen "plain.tif"], Fatal "missing coordinate transform").
Proof.
  refine (proj2 (proj2 (unavailable_cs_rejected plain_ll tt 0
                          "plain.tif" "plain.tif"
                          {| out_cs := CS_LL; wkt_fn := Some "o.wkt";
                             wkb_fn := None; ogr_fn := None;
                             ogr_fmt := None |}
                          eq_refl eq_refl (or_introl eq_refl) eq_refl))
            eq_refl).
Defined.

(** Two rings: the first of the largest area is taken.  With the faulty
    tracer the largest ring has a parent and the process ends. *)
Lemma major_ring_selection_witness :
  calc_ring_from_mask [[true; false]; [false; true]] 2 2 true false 0 dbl_0
  = ([EvTraceMask [[true; false]; [false; true]] 2 2 0 true],
     Ok {| rings := [square 0 0] |})
  /\ calc_ring_from_mask (C := faulty_core) (G := faulty_gdal)
       [[true; false]; [false; true]] 2 2 true false 0 dbl_0
     = ([EvTraceMask (C := faulty_core) (G := faulty_gdal)
           [[true; false]; [false; true]] 2 2 0 true],
        Fatal "largest ring should not have a parent")
  /\ calc_ring_from_mask [[true; false]; [false; false]] 2 2 true false 0 dbl_0
     = ([EvTraceMask [[true; false]; [false; false]] 2 2 0 true],
        Ok {| rings := [square 0 0] |})
  /\ (forall r, In r [square 0 0; square 1 1] ->
      dbl_le (area r) (area (square 0 0)) = true).
Proof.
  assert (Hsize : (1 < 2)%nat) by (constructor).
  assert (Hneg : -1 < 0) by reflexivity.
  assert (Hpar : 0 >= 0) by discriminate.
  assert (Hone : (1 <= 1)%nat) by constructor.
  assert (Hpos : forall r, In r [square 0 0; square 1 1] ->
                           dbl_le dbl_0 (area r) = true).
  { intros r [<- | [<- | []]]; reflexivity. }
  split; [|split; [|split]].
  - exact (proj1 (proj2 (proj2 (major_ring_selection
             [[true; false]; [false; true]] 2 2 false 0 dbl_0) Hsize)) Hneg).
  - exact (proj1 (proj2 (major_ring_selection
             (C := faulty_core) (G := faulty_gdal)
             [[true; false]; [false; true]] 2 2 false 0 dbl_0) Hsize) Hpar).
  - exact (proj1 (major_ring_selection
             [[true; false]; [false; false]] 2 2 false 0 dbl_0) Hone).
  - exact (proj2 (proj2 (proj2 (proj2 (major_ring_selection
             [[true; false]; [false; true]] 2 2 false 0 dbl_0) Hsize)) Hpos)).
Defined.

(** With [-mask-out] the rasterizer is given the bevelled ring. *)
Lemma rasterizer_takes_pixel_space_witness :
  result_of
    (fp <- calc_ring_from_mask
             (prepare_mask with_mask_out [[true; false]; [false; false]])
             2 2 false false 0 dbl_0_1 ;;
     pinch_pass with_mask_out None fp)
  = Ok (mark (-1, -1) {| rings := [square 0 0] |}).
Proof.
  refine (proj1 (proj1 (rasterizer_takes_pixel_space with_mask_out)
                   georef_2x2 None 0 None [[true; false]; [false; false]]
                   (mark (-1, -1) {| rings := [square 0 0] |})
                   2 2 "m.pbm" _)).
  vm_compute. right. right. left. reflexivity.
Defined.

(** A pass with the beveler, the pincher, a mask output, the simplifier
    and an output in easting and northing: the calls, one by one. *)
Lemma stages_in_driver_order_witness :
  trace_of (process_mask (set_do_pinch_excursions true with_mask_out)
              georef_2x2 None 0 None [[true; false]; [false; false]])
  = [EvTraceMask [[true; false]; [false; false]] 2 2 0 false;
     EvBevel {| rings := [square 0 0] |} dbl_0_1;
     EvPinch (mark (-1, -1) {| rings := [square 0 0] |});
     EvMaskFromMpoly
       (mark (-2, -2) (mark (-1, -1) {| rings := [square 0 0] |}))
       2 2 "m.pbm";
     EvReduce (mark (-2, -2) (mark (-1, -1) {| rings := [square 0 0] |}))
              dbl_2;
     EvXy2en
       (mark (-3, -3)
          (mark (-2, -2) (mark (-1, -1) {| rings := [square 0 0] |})));
     EvWkt 0
       (mark (-4, -4)
          (mark (-3, -3)
             (mark (-2, -2) (mark (-1, -1) {| rings := [square 0 0] |}))))].
Proof.
  exact (proj2 (proj2 (proj2
           (stages_in_driver_order (set_do_pinch_excursions true with_mask_out)
              georef_2x2 None 0 None [[true; false]; [false; false]])))
           eq_refl).
Defined.

(** C1, against the claim as stated: with the pincher and the beveler
    both on, the beveler runs before the pincher and the simplifier, so
    the stages do not come in the order tracer, pincher, simplifier,
    beveler, mapper. *)
Lemma overview_order_violated :
  ranks overview_rank
    (trace_of (main ["gdal_trace_outline"; "in.tif"; "-pinch-excursions";
                     "-out-cs"; "en"; "-wkt-out"; "o.wkt"]))
  = [0; 3; 1; 2; 4; 4]%nat
  /\ in_rank_order overview_rank
       (trace_of (main ["gdal_trace_outline"; "in.tif"; "-pinch-excursions";
                        "-out-cs"; "en"; "-wkt-out"; "o.wkt"]))
     = false.
Proof. split; vm_compute; reflexivity. Qed.

(** C6, against the claim as stated: on a mask without data the tracer
    finds no ring, and in major-ring mode the result is the empty Mpoly,
    neither a fatal error nor a single ring; and when the tracer answers
    a single ring that has a parent, the check is skipped and the ring
    is the result. *)
Lemma major_ring_of_empty_mask :
  let res := result_of (calc_ring_from_mask [[false; false]; [false; false]]
                          2 2 true false 0 dbl_0) in
  let res' := result_of (calc_ring_from_mask
                           (C := orphan_core) (G := orphan_gdal)
                           [[true; false]; [false; false]]
                           2 2 true false 0 dbl_0) in
  (res = Ok {| rings := [] |}
   /\ (forall r, res <> Ok {| rings := [r] |})
   /\ (forall msg, res <> Fatal msg))
  /\ (res' = Ok {| rings := [{| pts := [(0, 0); (1, 0); (1, 1); (0, 1)];
                                is_hole := true; parent_id := 0 |}] |}
      /\ (forall msg, res' <> Fatal msg)).
Proof.
  vm_compute. split; split; try reflexivity.
  - split; intros; discriminate.
  - intros; discriminate.
Qed.

(** C10, against the claim as stated: [-major-ring] with
    [-min-ring-area 0] is not rejected; the raster is opened and the
    outline is written. *)
Lemma major_ring_with_zero_area_accepted :
  let m := main ["gdal_trace_outline"; "in.tif"; "-major-ring";
                 "-min-ring-area"; "0"; "-out-cs"; "xy";
                 "-wkt-out"; "o.wkt"] in
  result_of m = Ok tt
  /\ In (EvGDALOpen "in.tif") (trace_of m)
  /\ existsb is_output (trace_of m) = true.
Proof.
  vm_compute. split; [reflexivity|]. split; [now left | reflexivity].
Qed.

(** Two pixels that touch by a corner, and an island in a hole. *)
Lemma fill_trace_round_trip_witness :
  fill (trace diagonal_pixels 0 false) 4 4 = diagonal_pixels
  /\ fill (trace ring_in_ring 0 false) 5 5 = ring_in_ring
  /\ fill (trace diagonal_pixels 0 false) (Z.to_nat 4) (Z.to_nat 4)
     = diagonal_pixels.
Proof.
  split; [|split].
  - exact (proj1 fill_trace_round_trip diagonal_pixels eq_refl).
  - exact (proj1 fill_trace_round_trip ring_in_ring eq_refl).
  - refine (proj2 fill_trace_round_trip _ _ _ _ _ _ _ _ plain_model_gdal
              exact_with_mask_out georef_4x4 None 0 None diagonal_pixels
              (trace diagonal_pixels 0 false) 4 4 "m.pbm"
              eq_refl eq_refl eq_refl eq_refl eq_refl eq_refl eq_refl
              eq_refl eq_refl eq_refl _).
    right. left. reflexivity.
Defined.

End Examples.

(** * More examples on the small world *)
Section MoreExamples.
Import World.


Lemma output_before_out_cs_rejected_witness :
  parse_args ["in.tif"; "-v"; "-wkt-out"; "o.wkt"; "-out-cs"; "xy"]
             initial_locals
  = Fatal "must specify output coordinate system with -out-cs option before specifying output".
Proof.
  refine (output_before_out_cs_rejected ["in.tif"; "-v"] ["-out-cs"; "xy"]
            "-wkt-out" "o.wkt"
            (set_VERBOSE 1 (set_input_raster_fn (Some "in.tif") initial_locals))
            _ eq_refl eq_refl).
  repeat constructor; discriminate.
Defined.

Lemma option_without_value_is_usage_witness :
  parse_args ["in.tif"; "-dp-toler"] initial_locals = Usage.
Proof.
  exact (option_without_value_is_usage ["in.tif"] "-dp-toler" initial_locals
           (set_input_raster_fn (Some "in.tif") initial_locals)
           eq_refl eq_refl).
Defined.

Lemma second_file_name_is_usage_witness :
  parse_args ["a.tif"; "b.tif"; "-v"] initial_locals = Usage.
Proof.
  exact (second_file_name_is_usage ["a.tif"] ["-v"] "b.tif" "a.tif"
           initial_locals
           (set_input_raster_fn (Some "a.tif") initial_locals)
           eq_refl eq_refl eq_refl).
Defined.

(** The output named first keeps its coordinate system when [-out-cs]
    is given again. *)
Lemma outputs_are_append_only_witness :
  nth_error
    (geom_outputs
       (set_geom_outputs
          [{| out_cs := CS_XY; wkt_fn := Some "a.wkt"; wkb_fn := None;
              ogr_fn := None; ogr_fmt := None |};
           {| out_cs := CS_LL; wkt_fn := None; wkb_fn := Some "b.wkb";
              ogr_fn := None; ogr_fmt := None |}]
          (set_cur_out_cs CS_LL
             (set_input_raster_fn (Some "in.tif") initial_locals)))) 0
  = Some {| out_cs := CS_XY; wkt_fn := Some "a.wkt"; wkb_fn := None;
            ogr_fn := None; ogr_fmt := None |}.
Proof.
  exact (proj2 (outputs_are_append_only
                  ["in.tif"; "-out-cs"; "xy"; "-wkt-out"; "a.wkt"]
                  ["-out-cs"; "ll"; "-wkb-out"; "b.wkb"]
                  initial_locals
                  (set_geom_outputs
                     [{| out_cs := CS_XY; wkt_fn := Some "a.wkt";
                         wkb_fn := None; ogr_fn := None; ogr_fmt := None |}]
                     (set_cur_out_cs CS_XY
                        (set_input_raster_fn (Some "in.tif") initial_locals)))
                  (set_geom_outputs
                     [{| out_cs := CS_XY; wkt_fn := Some "a.wkt";
                         wkb_fn := None; ogr_fn := None; ogr_fmt := None |};
                      {| out_cs := CS_LL; wkt_fn := None;
                         wkb_fn := Some "b.wkb"; ogr_fn := None;
                         ogr_fmt := None |}]
                     (set_cur_out_cs CS_LL
                        (set_input_raster_fn (Some "in.tif") initial_locals)))
                  eq_refl eq_refl)
               0%nat
               {| out_cs := CS_XY; wkt_fn := Some "a.wkt"; wkb_fn := None;
                  ogr_fn := None; ogr_fmt := None |}
               eq_refl).
Defined.

Lemma mask_pass_failure_modes_witness :
  result_of (process_mask with_mask_out georef_2x2 None 0 None
               [[true; false]; [false; false]]) = Ok tt
  \/ (major_ring_only with_mask_out = true /\
      result_of (process_mask with_mask_out georef_2x2 None 0 None
                   [[true; false]; [false; false]]) =
      Fatal "largest ring should not have a parent").
Proof.
  refine (mask_pass_failure_modes with_mask_out georef_2x2 None 0 None
            [[true; false]; [false; false]] _).
  repeat constructor.
Defined.

Lemma major_ring_is_a_traced_ring_witness :
  (rings_size {| rings := [square 0 0] |} <= 1)%nat
  /\ incl [square 0 0] [square 0 0; square 1 1]
  /\ ((1 < 2)%nat -> forall r, In r [square 0 0] -> parent_id r < 0).
Proof.
  exact (major_ring_is_a_traced_ring
           {| rings := [square 0 0; square 1 1] |}
           {| rings := [square 0 0] |} eq_refl).
Defined.

(** A square before a ring of five vertices, which is the larger. *)
Lemma major_ring_is_first_of_largest_witness :
  dbl_lt (area (square 0 0))
         (area {| pts := [(0, 0); (2, 0); (2, 2); (1, 3); (0, 2)];
                  is_hole := false; parent_id := -1 |}) = true.
Proof.
  refine (major_ring_is_first_of_largest
            {| rings := [square 0 0;
                         {| pts := [(0, 0); (2, 0); (2, 2); (1, 3); (0, 2)];
                            is_hole := false; parent_id := -1 |}] |}
            0%nat _ (le_n 1)).
  intros r [<- | [<- | []]]; reflexivity.
Defined.

(** Two rings without a vertex have the area zero. *)
Lemma major_ring_without_positive_area_witness :
  best_idx_of {| rings := [{| pts := []; is_hole := false; parent_id := -1 |};
                           {| pts := []; is_hole := true; parent_id := 0 |}] |}
  = 0%nat.
Proof.
  refine (major_ring_without_positive_area
            {| rings := [{| pts := []; is_hole := false; parent_id := -1 |};
                         {| pts := []; is_hole := true; parent_id := 0 |}] |}
            _).
  intros r [<- | [<- | []]]; reflexivity.
Defined.

(** A mask without a set pixel, with a mask output. *)
Lemma empty_outline_writes_no_geometry_witness :
  process_mask with_mask_out georef_2x2 None 0 None
    [[false; false]; [false; false]]
  = ([EvTraceMask [[false; false]; [false; false]] 2 2 0 false;
      EvMaskFromMpoly {| rings := [] |} 2 2 "m.pbm"], Ok tt).
Proof.
  exact (empty_outline_writes_no_geometry with_mask_out georef_2x2 None 0 None
           [[false; false]; [false; false]] eq_refl).
Defined.

Lemma beveler_called_in_range_witness :
  Forall (fun e => bevel_call_in_range e = true)
    (trace_of (run (set_bevel_size dbl_half
                      (set_input_raster_fn (Some "in.tif") initial_locals))
                   tt 0)).
Proof.
  exact (beveler_called_in_range ["in.tif"; "-bevel-size"; "0.5"]
           (set_bevel_size dbl_half
              (set_input_raster_fn (Some "in.tif") initial_locals))
           tt 0 eq_refl).
Defined.

Lemma without_outputs_nothing_is_served_witness :
  Forall (fun e => serves_geom_output e = false)
         (trace_of (run exact_outline tt 0)).
Proof.
  exact (without_outputs_nothing_is_served exact_outline tt 0 eq_refl).
Defined.

Lemma classify_conflicts_rejected_witness :
  trace_of (run (set_do_invert true
                   (set_classify true
                      (set_input_raster_fn (Some "in.tif") initial_locals)))
                tt 0) = []
  /\ result_of (run (set_do_invert true
                       (set_classify true
                          (set_input_raster_fn (Some "in.tif")
                             initial_locals)))
                    tt 0)
     = Fatal "-classify option is not compatible with -invert option".
Proof.
  pose proof (classify_conflicts_rejected
                (set_do_invert true
                   (set_classify true
                      (set_input_raster_fn (Some "in.tif") initial_locals)))
                tt 0 eq_refl (or_intror (or_introl eq_refl))) as H.
  split; [exact (proj1 H)|].
  exact (proj2 (proj2 H) "in.tif" eq_refl eq_refl).
Defined.



Lemma single_pass_without_classify_witness :
  class_loop exact_outline georef_2x2 None None None
    (map Z.of_nat (seq 0 256)) [[true; false]; [false; false]]
  = process_mask exact_outline georef_2x2 None 0 None
      [[true; false]; [false; false]].
Proof.
  exact (single_pass_without_classify exact_outline georef_2x2 None None None
           [[true; false]; [false; false]] eq_refl).
Defined.

(** Of the values 6, 7 and 8, only 7 occurs in the raster. *)
Lemma classify_pass_per_used_value_witness :
  class_loop (set_classify true exact_outline) georef_2x2 None
    (Some ([[true; false]; [false; false]], fun v => v =? 7)) None
    [6; 7; 8] []
  = for_each [7]
      (fun class_id =>
         process_mask (set_classify true exact_outline) georef_2x2 None
           class_id None [[true; false]; [false; false]]).
Proof.
  exact (classify_pass_per_used_value (set_classify true exact_outline)
           georef_2x2 None [[true; false]; [false; false]]
           (fun v => v =? 7) None [6; 7; 8] [] eq_refl).
Defined.

Lemma usage_only_from_command_line_witness :
  trace_of (main ["gdal_trace_outline"; "in.tif"; "-h"]) = [].
Proof.
  exact (usage_only_from_command_line
           ["gdal_trace_outline"; "in.tif"; "-h"] eq_refl).
Defined.

Lemma opened_outputs_are_closed_witness :
  In (EvFclose "o.wkt") (trace_of (run with_mask_out tt 0)).
Proof.
  refine (proj1 (opened_outputs_are_closed with_mask_out tt 0 "o.wkt"
                   eq_refl) _).
  right. right. left. reflexivity.
Defined.

End MoreExamples.
